(** * gnuflag: a typed command-line option parser

    A shallow embedding of [gnuflag.h] / [gnuflag.cpp] (namespace
    [GnuFlag]) and of the part of glibc's [getopt_long] and of
    [std::stoi] that [parseCLI] and [IntType] call.

    Conventions of the embedding:
    - a [const char *] is an [option string] ([None] is [nullptr]); a C
      string holds no NUL character, so [strlen] is [String.length];
    - a [char] is an [ascii]; where C converts it to [int] the platform's
      signed conversion is written out ([int_of_char]);
    - an [int] is a [Z]; the flags are tested with [Z.land];
    - the caller's variables, which the setters reach through the pointers
      they close over, live in a store [gmap loc Var]; [std::cerr] is the
      list of the lines written so far;
    - [argc] is the length of [argv]. *)

From Stdlib Require Import ZArith Ascii String List Bool Lia DecimalString.
From Stdlib Require Import DecimalPos.
From stdpp Require Import base option list gmap strings.

Local Open Scope string_scope.
Local Open Scope Z_scope.

(** ** The caller's memory and the error stream *)

Definition loc := nat.

(** What a target variable holds: [std::string], [int], [bool], or a
    container of strings. *)
Inductive Var :=
| VString (s : string)
| VInt (n : Z)
| VBool (b : bool)
| VStrings (l : list string).

Record World := mkWorld {
  vars : gmap loc Var;
  cerr : list string
}.

Definition store (l : loc) (x : Var) (w : World) : World :=
  mkWorld (<[l := x]> (vars w)) (cerr w).

Definition emit (line : string) (w : World) : World :=
  mkWorld (vars w) (cerr w ++ [line]).

(** [operator<<] on a [const char *] that is not null.  For [nullptr]
    the stream sets [badbit]: the rest of the line and whatever is written
    to the stream later are lost.  [std::cerr] is modelled without that
    state, as the lines written while it is good; for a null name the
    model goes on with an empty text where the real stream stops.  So
    what the model says about the text of a diagnostic is the real
    output for options that have a long name only, and the properties
    of [Value::set] state that text for such options. *)
Definition show (s : option string) : string := default "" s.

(** ** CommandOption::ArgFlags *)

Definition NoArgument : Z := 0.
Definition RequiredArgument : Z := 1.
Definition OptionalArgument : Z := 2.
Definition ArgumentTypeMask : Z := 15.
Definition Repeatable : Z := 16.

(** [flags & f], read as a condition. *)
Definition has_flag (flags f : Z) : bool := negb (Z.land flags f =? 0).

(** ** Value and CommandOption

    A setter receives a [CommandOption *].  None of the setters of the
    library reaches the [Value] through that pointer, so the pointee is
    passed as its plain fields, [OptionRef]. *)

Record OptionRef := mkRef {
  ref_name : option string;
  ref_shortName : ascii;
  ref_flags : Z;
  ref_help : string
}.

Definition DefValueFun := unit -> option string.
Definition SetterFun := OptionRef -> option string -> World -> World * bool.

Record Value := mkValue {
  _wasSet : bool;
  _defaultVal : DefValueFun;
  _setter : SetterFun;
  _argHint : string
}.

(** The constructor: [_wasSet] starts [false]. *)
Definition Value_new (defValue : DefValueFun) (setter : SetterFun)
    (argHint : string) : Value :=
  mkValue false defValue setter argHint.

Record CommandOption := mkOption {
  name : option string;
  shortName : ascii;
  flags : Z;
  value : Value;
  help : string
}.

Record CommandGroup := mkGroup {
  grp_name : string;
  options : list CommandOption
}.

(** [operator bool] of a [boost::optional]. *)
Definition present {A} (o : option A) : bool :=
  match o with Some _ => true | None => false end.

Definition ref_of (o : CommandOption) : OptionRef :=
  mkRef (name o) (shortName o) (flags o) (help o).

Definition mark_set (v : Value) : Value :=
  mkValue true (_defaultVal v) (_setter v) (_argHint v).

(** [Value::set]: the new state of the [Value], the world and the result. *)
Definition set (v : Value) (opt : OptionRef) (input : option string)
    (w : World) : Value * World * bool :=
  if _wasSet v && negb (has_flag (ref_flags opt) Repeatable) then
    (v, emit ("Option " ++ show (ref_name opt) ++ " can only be used once") w,
     false)
  else
    let v' := mark_set v in
    if negb (present input)
       && has_flag (ref_flags opt) OptionalArgument then
      match _defaultVal v' tt with
      | None => (v', w, false)
      | Some optVal =>
          let '(w', r) := _setter v' opt (Some optVal) w in (v', w', r)
      end
    else if present input
            || (negb (present input)
                && (Z.land (ref_flags opt) ArgumentTypeMask =? NoArgument))
    then
      let '(w', r) := _setter v' opt input w in (v', w', r)
    else (v', w, false).

Definition defaultValue (v : Value) : option string := _defaultVal v tt.
Definition argHint (v : Value) : string := _argHint v.

(** ** std::stoi and std::to_string

    [std::stoi (str)] is [strtol] in base 10 on the whole string: leading
    white space is skipped, one sign is accepted, then the longest run of
    decimal digits is converted and whatever follows it is ignored.  It
    throws [std::invalid_argument] when there is no digit to convert and
    [std::out_of_range] when the value does not fit an [int]. *)

Inductive stoi_result :=
| Converted (n : Z)
| invalid_argument
| out_of_range.

Definition INT_MIN : Z := -2147483648.
Definition INT_MAX : Z := 2147483647.

Definition isspace (c : ascii) : bool :=
  let n := nat_of_ascii c in
  (n =? 32)%nat || ((9 <=? n)%nat && (n <=? 13)%nat).

Definition digit_of (c : ascii) : option Z :=
  let n := nat_of_ascii c in
  if (48 <=? n)%nat && (n <=? 57)%nat then Some (Z.of_nat n - 48) else None.

Fixpoint skip_spaces (s : string) : string :=
  match s with
  | String c r => if isspace c then skip_spaces r else s
  | EmptyString => s
  end.

(** The value of the longest prefix of digits, continuing from [acc]. *)
Fixpoint digits_from (acc : Z) (s : string) : Z :=
  match s with
  | String c r =>
      match digit_of c with
      | Some d => digits_from (10 * acc + d) r
      | None => acc
      end
  | EmptyString => acc
  end.

Definition starts_with_digit (s : string) : bool :=
  match s with
  | String c _ => present (digit_of c)
  | EmptyString => false
  end.

Definition strip_sign (s : string) : bool * string :=
  match s with
  | String "-" r => (true, r)
  | String "+" r => (false, r)
  | _ => (false, s)
  end.

Definition stoi (str : string) : stoi_result :=
  let '(negative, body) := strip_sign (skip_spaces str) in
  if starts_with_digit body then
    let magnitude := digits_from 0 body in
    let n := if negative then - magnitude else magnitude in
    if (INT_MIN <=? n) && (n <=? INT_MAX) then Converted n else out_of_range
  else invalid_argument.

Definition to_string (n : Z) : string :=
  NilZero.string_of_int (Z.to_int n).

(** ** The typed constructors *)

(** [defValue] is a [boost::optional<const char *>]: absent, or a pointer
    that may itself be null. *)
Definition StringType (target : loc) (defValue : option (option string))
    (hint : string) : Value :=
  Value_new
    (fun _ => match defValue with
              | None | Some None => None
              | Some (Some s) => Some s
              end)
    (fun _ input w =>
       (match input with
        | Some s => store target (VString s) w
        | None => w
        end, present input))
    hint.

(** [std::stoi] throws nothing but the two exceptions modelled, so the
    [catch (...)] of the setter is not reached. *)
Definition IntType (target : loc) (defValue : option Z) : Value :=
  Value_new
    (fun _ => match defValue with
              | Some n => Some (to_string n)
              | None => None
              end)
    (fun opt input w =>
       match input with
       | None => (w, false)
       | Some s =>
           match stoi s with
           | Converted n => (store target (VInt n) w, true)
           | invalid_argument =>
               (emit ("Argument: " ++ show (ref_name opt) ++ " is invalid.") w,
                false)
           | out_of_range =>
               (emit ("Argument: " ++ show (ref_name opt)
                      ++ " is out of range.") w,
                false)
           end
       end)
    "NUMBER".

Inductive StoreFlag := StoreFalse | StoreTrue.

Definition StoreFlag_eqb (a b : StoreFlag) : bool :=
  match a, b with
  | StoreFalse, StoreFalse | StoreTrue, StoreTrue => true
  | _, _ => false
  end.

Definition BoolType (target : loc) (store_ : StoreFlag)
    (defVal : option bool) : Value :=
  Value_new
    (fun _ => match defVal with
              | None => None
              | Some b => Some (if b then "true" else "false")
              end)
    (fun _ _ w =>
       (store target (VBool (StoreFlag_eqb store_ StoreTrue)) w, true))
    "".

(** [target->push_back (s)] on the container the pointer designates. *)
Definition push_back (target : loc) (s : string) (w : World) : World :=
  match vars w !! target with
  | Some (VStrings l) => store target (VStrings (l ++ [s])) w
  | _ => w
  end.

Definition StringContainerType (target : loc) (hint : string) : Value :=
  Value_new
    (fun _ => None)
    (fun _ input w =>
       match input with
       | None => (w, false)
       | Some s => (push_back target s w, true)
       end)
    hint.

(** ** glibc's getopt_long, as parseCLI uses it

    [parseCLI] always passes an option string that starts with ["+:"],
    leaves [opterr] at 0 and passes long options whose [flag] and [val]
    are 0.  The model is glibc's [_getopt_internal_r] for that use:
    ordering REQUIRE_ORDER (the leading [+]), no message printed, and
    [long_only] false. *)

Record long_option := mkLong {
  lo_name : option string;   (* [None] ends the array *)
  has_arg : Z
}.

Definition no_argument : Z := 0.
Definition required_argument : Z := 1.
Definition optional_argument : Z := 2.

(** The tokenizer's variables: [optind], [optarg], [optopt] and the
    scan position inside a cluster of short options ([""] when there is
    none). *)
Record getopt_data := mkGetopt {
  optind : nat;
  nextchar : string;
  optarg : option string;
  optopt : Z
}.

(** [char] to [int]: plain [char] is signed. *)
Definition int_of_char (c : ascii) : Z :=
  let n := Z.of_nat (nat_of_ascii c) in
  if n <? 128 then n else n - 256.

(** [(char) n] for an [int] n. *)
Definition char_of_int (n : Z) : ascii :=
  ascii_of_nat (Z.to_nat (n mod 256)).

(** [strchr (s, c)]: the rest of [s] from the first [c] on. *)
Fixpoint strchr (s : string) (c : ascii) : option string :=
  match s with
  | EmptyString => None
  | String a r => if Ascii.eqb a c then Some s else strchr r c
  end.

(** The character at [i], NUL at the end of the string. *)
Definition char_at (s : string) (i : nat) : ascii :=
  default zero (String.get i s).

(** [s + n], for [n] within the string. *)
Fixpoint string_drop (n : nat) (s : string) : string :=
  match n, s with
  | O, _ => s
  | S n', String _ r => string_drop n' r
  | S _, EmptyString => EmptyString
  end.

(** Splits [s] at its first [=]: the name, and what follows the [=]. *)
Fixpoint split_name (s : string) : string * option string :=
  match s with
  | EmptyString => (EmptyString, None)
  | String c r =>
      if Ascii.eqb c "=" then (EmptyString, Some r)
      else let '(n, v) := split_name r in (String c n, v)
  end.

(** [argv[optind][0] != '-' || argv[optind][1] == '\0'] *)
Definition NONOPTION_P (arg : string) : bool :=
  negb (Ascii.eqb (char_at arg 0) "-") || Ascii.eqb (char_at arg 1) zero.

(** The first loop of [process_long_option]: an exact match. *)
Fixpoint exact_match (nm : string) (p : list long_option) (n_options : nat)
    : option (nat * long_option) :=
  match p with
  | [] => None
  | o :: rest =>
      match lo_name o with
      | None => None
      | Some pname =>
          if String.eqb pname nm then Some (n_options, o)
          else exact_match nm rest (S n_options)
      end
  end.

(** The second loop: abbreviations.  [pfound] is the first option of which
    [nm] is a prefix; a later one that differs from it in [has_arg] makes
    the abbreviation ambiguous ([flag] and [val] are equal throughout). *)
Fixpoint abbreviations (nm : string) (p : list long_option)
    (option_index : nat) (pfound : option (nat * long_option))
    (ambig : bool) : option (nat * long_option) * bool :=
  match p with
  | [] => (pfound, ambig)
  | o :: rest =>
      match lo_name o with
      | None => (pfound, ambig)
      | Some pname =>
          if String.prefix nm pname then
            match pfound with
            | None =>
                abbreviations nm rest (S option_index)
                  (Some (option_index, o)) ambig
            | Some (_, first) =>
                abbreviations nm rest (S option_index) pfound
                  (ambig || negb (has_arg first =? has_arg o))
            end
          else abbreviations nm rest (S option_index) pfound ambig
      end
  end.

Definition lookup_long (nm : string) (longopts : list long_option)
    : option (nat * long_option) * bool :=
  match exact_match nm longopts 0 with
  | Some found => (Some found, false)
  | None => abbreviations nm longopts 0 None false
  end.

(** What a call returns: the value, what it stored through [longind]
    (if anything), and the tokenizer's variables. *)
Definition getopt_result : Type := Z * option nat * getopt_data.

(** [optstring[0] == ':' ? ':' : '?'] *)
Definition missing_code (optstring : string) : Z :=
  if Ascii.eqb (char_at optstring 0) ":" then int_of_char ":"
  else int_of_char "?".

Definition process_long_option (argv : list string) (optstring : string)
    (longopts : list long_option) (d : getopt_data) : getopt_result :=
  let '(nm, attached) := split_name (nextchar d) in
  match lookup_long nm longopts with
  | (_, true) | (None, _) =>
      (int_of_char "?", None, mkGetopt (S (optind d)) "" (optarg d) 0)
  | (Some (option_index, pfound), false) =>
      let optind1 := S (optind d) in
      match attached with
      | Some a =>
          if has_arg pfound =? 0 then
            (int_of_char "?", None, mkGetopt optind1 "" (optarg d) 0)
          else (0, Some option_index, mkGetopt optind1 "" (Some a) (optopt d))
      | None =>
          if has_arg pfound =? 1 then
            match argv !! optind1 with
            | Some a =>
                (0, Some option_index,
                 mkGetopt (S optind1) "" (Some a) (optopt d))
            | None =>
                (missing_code optstring, None,
                 mkGetopt optind1 "" (optarg d) 0)
            end
          else (0, Some option_index, mkGetopt optind1 "" (optarg d) (optopt d))
      end
  end.

(** The next short option character, [c], of a cluster whose rest is
    [rest]. *)
Definition short_option (argv : list string) (optstring : string)
    (longopts : list long_option) (c : ascii) (rest : string)
    (d : getopt_data) : getopt_result :=
  let optind1 := if String.eqb rest "" then S (optind d) else optind d in
  match strchr optstring c with
  | None =>
      (int_of_char "?", None,
       mkGetopt optind1 rest (optarg d) (int_of_char c))
  | Some temp =>
      if Ascii.eqb c ":" || Ascii.eqb c ";" then
        (int_of_char "?", None,
         mkGetopt optind1 rest (optarg d) (int_of_char c))
      else if Ascii.eqb (char_at temp 0) "W" && Ascii.eqb (char_at temp 1) ";"
      then
        (* -W foo is --foo *)
        if negb (String.eqb rest "") then
          process_long_option argv optstring longopts
            (mkGetopt optind1 rest None (optopt d))
        else
          match argv !! optind1 with
          | None =>
              (missing_code optstring, None,
               mkGetopt optind1 rest (optarg d) (int_of_char c))
          | Some a =>
              process_long_option argv optstring longopts
                (mkGetopt optind1 a None (optopt d))
          end
      else if Ascii.eqb (char_at temp 1) ":" then
        if Ascii.eqb (char_at temp 2) ":" then
          (* an argument is accepted, attached only *)
          if negb (String.eqb rest "") then
            (int_of_char c, None,
             mkGetopt (S optind1) "" (Some rest) (optopt d))
          else (int_of_char c, None, mkGetopt optind1 "" None (optopt d))
        else
          (* an argument is required *)
          if negb (String.eqb rest "") then
            (int_of_char c, None,
             mkGetopt (S optind1) "" (Some rest) (optopt d))
          else
            match argv !! optind1 with
            | None =>
                (missing_code optstring, None,
                 mkGetopt optind1 "" (optarg d) (int_of_char c))
            | Some a =>
                (int_of_char c, None,
                 mkGetopt (S optind1) "" (Some a) (optopt d))
            end
      else (int_of_char c, None, mkGetopt optind1 rest (optarg d) (optopt d))
  end.

(** On entry: [optind == 0] asks for a fresh scan, and [optarg] is
    reset. *)
Definition getopt_enter (d0 : getopt_data) : getopt_data :=
  if (optind d0 =? 0)%nat then mkGetopt 1 "" None (optopt d0)
  else mkGetopt (optind d0) (nextchar d0) None (optopt d0).

(** The scan proper: go on in the current cluster of short options, or
    look at the next element of [argv]. *)
Definition next_option (argv : list string) (optstring : string)
    (longopts : list long_option) (d : getopt_data) : getopt_result :=
  match nextchar d with
  | String c rest => short_option argv optstring longopts c rest d
  | EmptyString =>
      match argv !! optind d with
      | None => (-1, None, d)
      | Some arg =>
          if String.eqb arg "--" then
            (-1, None, mkGetopt (S (optind d)) "" None (optopt d))
          else if NONOPTION_P arg then (-1, None, d)
          else if Ascii.eqb (char_at arg 1) "-" then
            process_long_option argv optstring longopts
              (mkGetopt (optind d) (string_drop 2 arg) None (optopt d))
          else
            (* [arg + 1] is not empty: [arg] is an option element *)
            match string_drop 1 arg with
            | String c rest => short_option argv optstring longopts c rest d
            | EmptyString => (-1, None, d)
            end
      end
  end.

Definition getopt_long (argv : list string) (shortopts : string)
    (longopts : list long_option) (d0 : getopt_data) : getopt_result :=
  if (length argv <? 1)%nat then (-1, None, d0)
  else
    (* the leading [+] of the option string is skipped *)
    next_option argv (string_drop 1 shortopts) longopts (getopt_enter d0).

(** ** parseCLI *)

Inductive Exception := mkException (what : string).

(** A computation that returns or throws. *)
Inductive result (A : Type) :=
| Normal (a : A)
| Thrown (e : Exception).
Arguments Normal {A} a.
Arguments Thrown {A} e.

#[global] Instance result_bind : MBind result := fun A B k m =>
  match m with
  | Normal a => k a
  | Thrown e => Thrown e
  end.

Definition appendToOptString (option : CommandOption) (optstring : string)
    : string :=
  if Ascii.eqb (shortName option) zero then optstring
  else
    let optstring := optstring ++ String (shortName option) "" in
    let mask := Z.land (flags option) ArgumentTypeMask in
    if mask =? RequiredArgument then optstring ++ ":"
    else if mask =? OptionalArgument then optstring ++ "::"
    else optstring.

(** [has_arg] is declared without an initialiser and the switch has no
    default: for a mask outside the three cases the entry gets whatever
    the variable holds, [indeterminate]. *)
Definition appendToLongOptions (indeterminate : Z) (opt : CommandOption)
    (opts : list long_option) : list long_option :=
  let mask := Z.land (flags opt) ArgumentTypeMask in
  let has_arg :=
    if mask =? NoArgument then no_argument
    else if mask =? RequiredArgument then required_argument
    else if mask =? OptionalArgument then optional_argument
    else indeterminate in
  (opts ++ [mkLong (name opt) has_arg])%list.

(** [flags & RequiredArgument && flags & OptionalArgument] *)
Definition arity_conflict (flags : Z) : bool :=
  has_flag flags RequiredArgument && has_flag flags OptionalArgument.

(** The locals that the first loop of [parseCLI] fills. *)
Record Registry := mkRegistry {
  shortopts : string;
  longopts : list long_option;
  allOpts : list CommandOption;
  longOptIndex : gmap string nat;
  shortOptIndex : gmap ascii nat
}.

Definition empty_registry : Registry :=
  mkRegistry "+:" [] [] ∅ ∅.

(** One turn of the inner loop.  [indeterminate i] is what the
    uninitialised [has_arg] holds in the turn for option [i]. *)
Definition register (indeterminate : nat -> Z) (currOpt : CommandOption)
    (r : Registry) : result Registry :=
  let allOpts' := (allOpts r ++ [currOpt])%list in
  let allOptIndex := (length allOpts' - 1)%nat in
  if arity_conflict (flags currOpt) then
    Thrown (mkException "Argument can either be Required or Optional")
  else
    '(longIdx, longs) ←
      match name currOpt with
      | Some n =>
          match longOptIndex r !! n with
          | Some _ =>
              Thrown (mkException "Duplicate long option <insertnamehere>")
          | None =>
              Normal (<[n := allOptIndex]> (longOptIndex r),
                      appendToLongOptions (indeterminate allOptIndex)
                        currOpt (longopts r))
          end
      | None => Normal (longOptIndex r, longopts r)
      end;
    '(shortIdx, shorts) ←
      (if Ascii.eqb (shortName currOpt) zero then
         Normal (shortOptIndex r, shortopts r)
       else
         match shortOptIndex r !! shortName currOpt with
         | Some _ =>
             Thrown (mkException "Duplicate short option <insertnamehere>")
         | None =>
             Normal (<[shortName currOpt := allOptIndex]> (shortOptIndex r),
                     appendToOptString currOpt (shortopts r))
         end);
    Normal (mkRegistry shorts longs allOpts' longIdx shortIdx).

Fixpoint register_options (indeterminate : nat -> Z)
    (opts : list CommandOption) (r : Registry) : result Registry :=
  match opts with
  | [] => Normal r
  | currOpt :: rest =>
      r' ← register indeterminate currOpt r;
      register_options indeterminate rest r'
  end.

Fixpoint register_groups (indeterminate : nat -> Z)
    (groups : list CommandGroup) (r : Registry) : result Registry :=
  match groups with
  | [] => Normal r
  | grp :: rest =>
      r' ← register_options indeterminate (options grp) r;
      register_groups indeterminate rest r'
  end.

(** The first loop, and the terminator of the long options. *)
Definition build_registry (indeterminate : nat -> Z)
    (groups : list CommandGroup) : result Registry :=
  r ← register_groups indeterminate groups empty_registry;
  Normal (mkRegistry (shortopts r) (longopts r ++ [mkLong None 0])
            (allOpts r) (longOptIndex r) (shortOptIndex r)).

Definition with_value (o : CommandOption) (v : Value) : CommandOption :=
  mkOption (name o) (shortName o) (flags o) v (help o).

(** [argv[i]] *)
Definition arg_at (argv : list string) (i : nat) : string :=
  default "" (argv !! i).

(** The body of the [switch], for a value [optc] other than -1.  The
    index found is within [allOpts]: it comes from [shortOptIndex], or it
    is a position in [longopts], which has no more entries than [allOpts]
    has options. *)
Definition dispatch (argv : list string) (shortIdx : gmap ascii nat)
    (optc : Z) (option_index : option nat) (d : getopt_data)
    (opts : list CommandOption) (w : World)
    : list CommandOption * World :=
  if optc =? int_of_char "?" then
    let culprit :=
      if present option_index || (optopt d =? 0)
      then arg_at argv (optind d - 1)
      else String (char_of_int (optopt d)) "" in
    (opts, emit ("Unknown option '" ++ culprit ++ "'") w)
  else if optc =? int_of_char ":" then
    (opts, emit ("Missing argument for " ++ arg_at argv (optind d - 1)) w)
  else
    let index :=
      match option_index with
      | None => shortIdx !! char_of_int optc
      | Some i => Some i
      end in
    match index with
    | None => (opts, w)
    | Some i =>
        match opts !! i with
        | None => (opts, w)
        | Some o =>
            let arg :=
              match optarg d with
              | Some a => if (String.length a =? 0)%nat then None else Some a
              | None => None
              end in
            let '(v', w', _) := set (value o) (ref_of o) arg w in
            (<[i := with_value o v']> opts, w')
        end
    end.

(** The [while (true)] loop; [None] when [fuel] turns do not reach the
    [break]. *)
Fixpoint scan (fuel : nat) (argv : list string) (reg : Registry)
    (d : getopt_data) (opts : list CommandOption) (w : World)
    : option (getopt_data * list CommandOption * World) :=
  match fuel with
  | O => None
  | S fuel' =>
      let '(optc, option_index, d') :=
        getopt_long argv (shortopts reg) (longopts reg) d in
      if optc =? -1 then Some (d', opts, w)
      else
        let '(opts', w') :=
          dispatch argv (shortOptIndex reg) optc option_index d' opts w in
        scan fuel' argv reg d' opts' w'
  end.

(** The characters and elements of [argv] from index [k] on. *)
Definition remaining (argv : list string) (k : nat) : nat :=
  list_sum (map (fun a => S (String.length a)) (drop k argv)).

(** Turns that always suffice: every turn but the last consumes a
    character or an element of [argv] ([scan_from_start_total]). *)
Definition enough_fuel (argv : list string) : nat :=
  S (remaining argv 1).

Inductive outcome :=
| Returned (n : Z)
| Threw (e : Exception).

(** A run of [parseCLI], with the final state of its local [allOpts].
    The tokenizer starts with [optind = 0] (a fresh scan); its [optopt],
    which only appears in the wording of a diagnostic, is taken as 0, the
    value it has in a process's first parse.  glibc keeps [optopt] from
    one scan to the next: in a later parse of the same process the first
    diagnostic for a declared option [?] may name the character the
    earlier parse left there. *)
Definition parseCLI_run (indeterminate : nat -> Z) (argv : list string)
    (groups : list CommandGroup) (w : World)
    : option (list CommandOption * World * outcome) :=
  match build_registry indeterminate groups with
  | Thrown e => Some ([], w, Threw e)
  | Normal reg =>
      match scan (enough_fuel argv) argv reg (mkGetopt 0 "" None 0)
              (allOpts reg) w with
      | Some (d, opts, w') => Some (opts, w', Returned (Z.of_nat (optind d)))
      | None => None
      end
  end.

(** What the caller observes: its memory, and the value returned or the
    exception. *)
Definition parseCLI (indeterminate : nat -> Z) (argv : list string)
    (groups : list CommandGroup) (w : World) : option (World * outcome) :=
  match parseCLI_run indeterminate argv groups w with
  | Some (_, w', out) => Some (w', out)
  | None => None
  end.

(** ** The configuration of main.cpp *)

Module Main.

Definition myStringVar : loc := 0%nat.
Definition optionalVar : loc := 1%nat.
Definition stringVec : loc := 2%nat.
Definition myFlag : loc := 3%nat.
Definition myInt : loc := 4%nat.

(** The variables as [main] initialises them. *)
Definition initial_vars : gmap loc Var :=
  <[myStringVar := VString "I was untouched"]>
  (<[optionalVar := VString "I'm optional"]>
  (<[stringVec := VStrings []]>
  (<[myFlag := VBool false]>
  (<[myInt := VInt 10]> ∅)))).

Definition initial_world : World := mkWorld initial_vars [].

Definition options : list CommandGroup :=
  [ mkGroup "Default"
      [ mkOption (Some "int") "i" RequiredArgument
          (IntType myInt (Some 10)) "Set the Int value.";
        mkOption (Some "bool") "b" NoArgument
          (BoolType myFlag StoreTrue (Some false)) "Enable the bool switch." ];
    mkGroup "Extended"
      [ mkOption (Some "string") "s" RequiredArgument
          (StringType myStringVar (Some (Some "I was untouched")) "STRING")
          "Set the String value.";
        mkOption (Some "ostring") "o" (Z.lor OptionalArgument Repeatable)
          (StringType optionalVar (Some (Some "Seen, i was seen")) "STRING")
          "Set the optional String value.";
        mkOption (Some "cstring") "c" (Z.lor RequiredArgument Repeatable)
          (StringContainerType stringVec "STRING")
          "Add value to list of strings." ] ].

End Main.

(** ** Auxiliary definitions for the properties *)

(** The diagnostic of the once-only check of [Value::set]. *)
Definition once_only_message (opt : OptionRef) : string :=
  "Option " ++ show (ref_name opt) ++ " can only be used once".

(** Successive calls of [set] on one [Value], one per input; the results
    are collected in order. *)
Fixpoint set_each (v : Value) (opt : OptionRef) (inputs : list (option string))
    (w : World) : Value * World * list bool :=
  match inputs with
  | [] => (v, w, [])
  | input :: rest =>
      let '(v1, w1, r) := set v opt input w in
      let '(v2, w2, rs) := set_each v1 opt rest w1 in
      (v2, w2, r :: rs)
  end.

(** A configuration of one string option, [--string] / [-s], with the
    given flags and target. *)
Definition string_option (flags : Z) (target : loc) (defValue : option string)
    : list CommandGroup :=
  [ mkGroup "Extended"
      [ mkOption (Some "string") "s" flags
          (StringType target (Some defValue) "STRING")
          "Set the String value." ] ].

(** An argument that [std::stoi] cannot convert: after the white space
    and the sign there is no decimal digit. *)
Definition malformed (s : string) : Prop :=
  starts_with_digit (strip_sign (skip_spaces s)).2 = false.

(** The number the leading digits of a well-formed argument denote. *)
Definition denoted (s : string) : Z :=
  let '(negative, body) := strip_sign (skip_spaces s) in
  if negative then - digits_from 0 body else digits_from 0 body.

Definition out_of_int_range (s : string) : Prop :=
  ~ malformed s /\ ~ (INT_MIN <= denoted s <= INT_MAX).

(** [flags & ArgumentTypeMask] *)
Definition arity_mask (flags : Z) : Z := Z.land flags ArgumentTypeMask.

(** The three values for which the switch of [appendToLongOptions] has a
    case. *)
Definition arity_defined (flags : Z) : Prop :=
  arity_mask flags = NoArgument \/ arity_mask flags = RequiredArgument
  \/ arity_mask flags = OptionalArgument.

(** The options of all groups, in order: what [allOpts] holds once the
    first loop is through. *)
Definition all_options (groups : list CommandGroup) : list CommandOption :=
  concat (map options groups).

Definition share_long_name (all : list CommandOption) : Prop :=
  exists i j o1 o2 n,
    i <> j /\ all !! i = Some o1 /\ all !! j = Some o2
    /\ name o1 = Some n /\ name o2 = Some n.

Definition share_short_name (all : list CommandOption) : Prop :=
  exists i j o1 o2,
    i <> j /\ all !! i = Some o1 /\ all !! j = Some o2
    /\ shortName o1 = shortName o2 /\ shortName o1 <> zero.

Definition conflicting_arity (all : list CommandOption) : Prop :=
  exists o, o ∈ all /\ arity_conflict (flags o) = true.

(** The two indices hold the names of the options registered so far. *)
Definition indexed (r : Registry) : Prop :=
  (forall n, is_Some (longOptIndex r !! n) <->
             exists o, o ∈ allOpts r /\ name o = Some n)
  /\ (forall c, is_Some (shortOptIndex r !! c) <->
                c <> zero /\ exists o, o ∈ allOpts r /\ shortName o = c).

(** No option of [all] is refused by the first loop. *)
Definition unambiguous (all : list CommandOption) : Prop :=
  (forall o, o ∈ all -> arity_conflict (flags o) = false)
  /\ (forall i j o1 o2 n,
        all !! i = Some o1 -> all !! j = Some o2 ->
        name o1 = Some n -> name o2 = Some n -> i = j)
  /\ (forall i j o1 o2,
        all !! i = Some o1 -> all !! j = Some o2 ->
        shortName o1 = shortName o2 -> shortName o1 <> zero -> i = j).

(** A configuration whose first option has a short name only and whose
    second one has both names; both are boolean switches. *)
Definition short_only_first (a_target b_target : loc) : list CommandGroup :=
  [ mkGroup "Default"
      [ mkOption None "a" NoArgument (BoolType a_target StoreTrue None)
          "Short name only.";
        mkOption (Some "bee") "b" NoArgument (BoolType b_target StoreTrue None)
          "Both names." ] ].

(** [o'] is the definition [o], except that its [Value] may have been
    marked as set. *)
Definition same_definition (o o' : CommandOption) : Prop :=
  name o' = name o /\ shortName o' = shortName o /\ flags o' = flags o
  /\ help o' = help o
  /\ _defaultVal (value o') = _defaultVal (value o)
  /\ _setter (value o') = _setter (value o)
  /\ _argHint (value o') = _argHint (value o)
  /\ (_wasSet (value o) = true -> _wasSet (value o') = true).

(** What is left to scan from element [k] on, [s] being the rest of the
    cluster of short options in it (if any): the characters of the cluster
    and the elements of [argv] not reached yet. *)
Definition left_to_scan (argv : list string) (k : nat) (s : string) : nat :=
  match s with
  | EmptyString => remaining argv k
  | _ => (String.length s + remaining argv (S k))%nat
  end.

Definition unscanned (argv : list string) (d0 : getopt_data) : nat :=
  let d := getopt_enter d0 in
  left_to_scan argv (optind d) (nextchar d).

(** The scan position is inside [argv]; inside a cluster it is on an
    element. *)
Definition in_bounds (argv : list string) (d0 : getopt_data) : Prop :=
  let d := getopt_enter d0 in
  (optind d <= length argv)%nat
  /\ (nextchar d <> "" -> (optind d < length argv)%nat).

(** For comparison with [parseCLI]: two scans in a row over one registry,
    the second one going on with the [allOpts] that the first one leaves.
    The world after the second scan. *)
Definition scan_twice (indeterminate : nat -> Z) (argv1 argv2 : list string)
    (groups : list CommandGroup) (w : World) : option World :=
  match build_registry indeterminate groups with
  | Thrown _ => None
  | Normal reg =>
      match scan (enough_fuel argv1) argv1 reg (mkGetopt 0 "" None 0)
              (allOpts reg) w with
      | Some (_, opts1, w1) =>
          match scan (enough_fuel argv2) argv2 reg (mkGetopt 0 "" None 0)
                  opts1 w1 with
          | Some (_, _, w2) => Some w2
          | None => None
          end
      | None => None
      end
  end.

(** Where a scan can end: at the end of [argv], on an element that is
    not an option, or behind the element [--]. *)
Definition end_of_options (argv : list string) (k : nat) : Prop :=
  k = length argv
  \/ (exists a, argv !! k = Some a /\ NONOPTION_P a = true)
  \/ ((1 <= k)%nat /\ argv !! (k - 1)%nat = Some "--").

(** No short option is the character whose [int] value is -1, the value
    by which [getopt_long] says that the options are through. *)
Definition no_char_255 (all : list CommandOption) : Prop :=
  forall o, o ∈ all -> shortName o <> "255"%char.

(** A configuration whose first option has the character 255 as its
    short name; the second one is [-b].  Both are boolean switches. *)
Definition char_255_first (a_target b_target : loc) : list CommandGroup :=
  [ mkGroup "Default"
      [ mkOption None "255" NoArgument (BoolType a_target StoreTrue None)
          "Character 255.";
        mkOption (Some "bool") "b" NoArgument
          (BoolType b_target StoreTrue None) "Enable the bool switch." ] ].

(** ** Definitions without their targets

    An option definition as the caller writes it, with the target of its
    [Value] named by a variable of the caller instead of an address;
    [bind] puts the addresses in.  Two calls of [bind] with different
    addresses are the same definitions bound to different variables. *)

Inductive ValueSpec :=
| StringSpec (target : nat) (defValue : option (option string)) (hint : string)
| IntSpec (target : nat) (defValue : option Z)
| BoolSpec (target : nat) (store_ : StoreFlag) (defVal : option bool)
| StringContainerSpec (target : nat) (hint : string).

Record OptionSpec := mkOptionSpec {
  spec_name : option string;
  spec_shortName : ascii;
  spec_flags : Z;
  spec_value : ValueSpec;
  spec_help : string
}.

Record GroupSpec := mkGroupSpec {
  spec_group : string;
  spec_options : list OptionSpec
}.

Definition bind_value (addr : nat -> loc) (v : ValueSpec) : Value :=
  match v with
  | StringSpec target defValue hint => StringType (addr target) defValue hint
  | IntSpec target defValue => IntType (addr target) defValue
  | BoolSpec target store_ defVal => BoolType (addr target) store_ defVal
  | StringContainerSpec target hint => StringContainerType (addr target) hint
  end.

Definition with_wasSet (b : bool) (v : Value) : Value :=
  mkValue b (_defaultVal v) (_setter v) (_argHint v).

(** The option [o] bound to its target, with [_wasSet] at [b]. *)
Definition bound (addr : nat -> loc) (b : bool) (o : OptionSpec)
    : CommandOption :=
  mkOption (spec_name o) (spec_shortName o) (spec_flags o)
    (with_wasSet b (bind_value addr (spec_value o))) (spec_help o).

Definition bind_option (addr : nat -> loc) (o : OptionSpec) : CommandOption :=
  mkOption (spec_name o) (spec_shortName o) (spec_flags o)
    (bind_value addr (spec_value o)) (spec_help o).

Definition bind_group (addr : nat -> loc) (g : GroupSpec) : CommandGroup :=
  mkGroup (spec_group g) (map (bind_option addr) (spec_options g)).

Definition bind (addr : nat -> loc) (groups : list GroupSpec)
    : list CommandGroup :=
  map (bind_group addr) groups.

Definition all_specs (groups : list GroupSpec) : list OptionSpec :=
  concat (map spec_options groups).

(** The two memories hold the same values in corresponding variables, and
    the same lines have been written to [cerr]. *)
Definition same_targets (addr1 addr2 : nat -> loc) (w1 w2 : World) : Prop :=
  cerr w1 = cerr w2
  /\ forall x, vars w1 !! addr1 x = vars w2 !! addr2 x.

(** Two lists of options that are the same definitions in the same state,
    bound to the two sets of targets. *)
Definition same_options (addr1 addr2 : nat -> loc)
    (opts1 opts2 : list CommandOption) : Prop :=
  Forall2
    (fun o1 o2 => exists b s, o1 = bound addr1 b s /\ o2 = bound addr2 b s)
    opts1 opts2.

Definition same_registry (addr1 addr2 : nat -> loc) (r1 r2 : Registry)
    : Prop :=
  shortopts r1 = shortopts r2 /\ longopts r1 = longopts r2
  /\ longOptIndex r1 = longOptIndex r2 /\ shortOptIndex r1 = shortOptIndex r2
  /\ same_options addr1 addr2 (allOpts r1) (allOpts r2).

(** Two computations end alike: both throw the same exception, or both
    return, with related results. *)
Definition alike {A B} (R : A -> B -> Prop) (m1 : result A) (m2 : result B)
    : Prop :=
  match m1, m2 with
  | Normal a, Normal b => R a b
  | Thrown e1, Thrown e2 => e1 = e2
  | _, _ => False
  end.

(** The configuration of main.cpp as definitions without targets. *)
Definition main_specs : list GroupSpec :=
  [ mkGroupSpec "Default"
      [ mkOptionSpec (Some "int") "i" RequiredArgument
          (IntSpec 4 (Some 10)) "Set the Int value.";
        mkOptionSpec (Some "bool") "b" NoArgument
          (BoolSpec 3 StoreTrue (Some false)) "Enable the bool switch." ];
    mkGroupSpec "Extended"
      [ mkOptionSpec (Some "string") "s" RequiredArgument
          (StringSpec 0 (Some (Some "I was untouched")) "STRING")
          "Set the String value.";
        mkOptionSpec (Some "ostring") "o" (Z.lor OptionalArgument Repeatable)
          (StringSpec 1 (Some (Some "Seen, i was seen")) "STRING")
          "Set the optional String value.";
        mkOptionSpec (Some "cstring") "c" (Z.lor RequiredArgument Repeatable)
          (StringContainerSpec 2 "STRING")
          "Add value to list of strings." ] ].

(** One string option, [--level], whose arity mask is 0x04: none of
    the three masks for which [appendToLongOptions] sets [has_arg]. *)
Definition level_specs : list GroupSpec :=
  [ mkGroupSpec "Default"
      [ mkOptionSpec (Some "level") zero 4 (StringSpec 0 None "LEVEL")
          "Set the level." ] ].

(** How a call that finds no option ends. *)
Inductive stop (argv : list string) (optstring : string) (d d' : getopt_data)
    : Prop :=
| stop_at_end :
    nextchar d = "" -> argv !! optind d = None -> optind d' = optind d ->
    stop argv optstring d d'
| stop_after_dashes :
    nextchar d = "" -> argv !! optind d = Some "--" ->
    optind d' = S (optind d) ->
    stop argv optstring d d'
| stop_at_nonoption a :
    nextchar d = "" -> argv !! optind d = Some a -> NONOPTION_P a = true ->
    optind d' = optind d ->
    stop argv optstring d d'
| stop_on_char_255 ch :
    int_of_char ch = -1 -> is_Some (strchr optstring ch) ->
    stop argv optstring d d'.

(** The calls of a scan, one after the other, up to the one that returns
    -1: what each returns and stores through [longind], and [optind],
    [optarg] and [optopt] after it. *)
Fixpoint getopt_trace (fuel : nat) (argv : list string) (shortopts : string)
    (longopts : list long_option) (d : getopt_data)
    : list (Z * option nat * nat * option string * Z) :=
  match fuel with
  | O => []
  | S fuel' =>
      let '(c, longind, d') := getopt_long argv shortopts longopts d in
      (c, longind, optind d', optarg d', optopt d')
      :: (if c =? -1 then []
          else getopt_trace fuel' argv shortopts longopts d')
  end.

(** The option string and the long options that [parseCLI] builds for
    the configuration of main.cpp. *)
Definition main_shortopts : string := "+:i:bs:o::c:".

Definition main_longopts : list long_option :=
  [ mkLong (Some "int") 1; mkLong (Some "bool") 0; mkLong (Some "string") 1;
    mkLong (Some "ostring") 2; mkLong (Some "cstring") 1; mkLong None 0 ].

(** ** Definitions for further properties *)

(** The two indices say where each name is: a long name, or a short
    character, is bound to [i] exactly when option [i] carries it. *)
Definition exact_indices (r : Registry) : Prop :=
  (forall n i, longOptIndex r !! n = Some i <->
               exists o, allOpts r !! i = Some o /\ name o = Some n)
  /\ (forall c i, shortOptIndex r !! c = Some i <->
                  c <> zero
                  /\ exists o, allOpts r !! i = Some o /\ shortName o = c).


(** The entry of [longopts] that [appendToLongOptions] makes for the
    option [o]: its long name, and its arity when the mask is one of the
    three that the switch knows. *)
Definition entry_of (o : CommandOption) (e : long_option) : Prop :=
  lo_name e = name o
  /\ (arity_defined (flags o) -> has_arg e = arity_mask (flags o)).

(** The options that have a long name. *)
Definition named (all : list CommandOption) : list CommandOption :=
  filter (fun o => is_Some (name o)) all.

(** The argument that [parseCLI] passes on: [optarg], unless it is null
    or empty. *)
Definition passed_argument (d : getopt_data) : option string :=
  match optarg d with
  | Some a => if (String.length a =? 0)%nat then None else Some a
  | None => None
  end.

(** The variable that a definition writes to. *)
Definition target_of (v : ValueSpec) : nat :=
  match v with
  | StringSpec target _ _ => target
  | IntSpec target _ => target
  | BoolSpec target _ _ => target
  | StringContainerSpec target _ => target
  end.

(** From [w] to [w1] nothing changed but the variables in [targets], and
    [cerr] got longer, if anything. *)
Definition touches_only (targets : loc -> Prop) (w w1 : World) : Prop :=
  (forall l, ~ targets l -> vars w1 !! l = vars w !! l)
  /\ exists lines, cerr w1 = (cerr w ++ lines)%list.

(** The targets of the definitions in [specs], at their addresses. *)
Definition targets_of (addr : nat -> loc) (specs : list OptionSpec)
    (l : loc) : Prop :=
  exists s, s ∈ specs /\ l = addr (target_of (spec_value s)).

(** The options of a list are definitions of [specs], bound by [addr]. *)
Definition bound_from (addr : nat -> loc) (specs : list OptionSpec)
    (opts : list CommandOption) : Prop :=
  Forall (fun o => exists b s, s ∈ specs /\ o = bound addr b s) opts.

(** The arguments that are there, in order. *)
Definition given (inputs : list (option string)) : list string :=
  omap id inputs.

(** The characters that [appendToOptString] adds for an option. *)
Definition optstring_entry (o : CommandOption) : string :=
  appendToOptString o "".

Fixpoint optstring_entries (all : list CommandOption) : string :=
  match all with
  | [] => ""
  | o :: rest => optstring_entry o ++ optstring_entries rest
  end.

(** What [getopt_long] is to do with the short option character [c] of
    an option with the flags [flags], going by the flags: [rest] is what
    follows [c] in its element of [argv]. *)
Definition short_option_by_flags (argv : list string) (flags : Z) (c : ascii)
    (rest : string) (d : getopt_data) : getopt_result :=
  let optind1 := if String.eqb rest "" then S (optind d) else optind d in
  let mask := Z.land flags ArgumentTypeMask in
  if mask =? RequiredArgument then
    if negb (String.eqb rest "") then
      (int_of_char c, None, mkGetopt (S optind1) "" (Some rest) (optopt d))
    else
      match argv !! optind1 with
      | None =>
          (int_of_char ":", None,
           mkGetopt optind1 "" (optarg d) (int_of_char c))
      | Some a =>
          (int_of_char c, None, mkGetopt (S optind1) "" (Some a) (optopt d))
      end
  else if mask =? OptionalArgument then
    if negb (String.eqb rest "") then
      (int_of_char c, None, mkGetopt (S optind1) "" (Some rest) (optopt d))
    else (int_of_char c, None, mkGetopt optind1 "" None (optopt d))
  else (int_of_char c, None, mkGetopt optind1 rest (optarg d) (optopt d)).

(** ** std::cout and renderHelp

    [renderHelp] streams [opt.name], a [const char *], whether or not it
    is null, so for [std::cout] the state of the stream is part of the
    model: [operator<<] on a null [const char *] sets [badbit], and a
    stream that is not good takes no further output. *)

Record ostream := mkStream {
  text : string;
  badbit : bool
}.

(** [out << s] for a [std::string], a string literal or a number as
    text. *)
Definition put (s : string) (out : ostream) : ostream :=
  if badbit out then out else mkStream (text out ++ s) false.

(** [out << s] for a [const char *] that may be null. *)
Definition put_cstr (s : option string) (out : ostream) : ostream :=
  match s with
  | Some s => put s out
  | None => mkStream (text out) true
  end.

Definition endl (out : ostream) : ostream := put (String "010" "") out.

(** The start of the line of an option, up to the two dashes of the
    long name. *)
Definition option_start (opt : CommandOption) (out : ostream) : ostream :=
  let out :=
    if Ascii.eqb (shortName opt) zero then put "    " out
    else put ", " (put (String (shortName opt) "") (put "-" out)) in
  put "--" out.

(** The body of the inner loop of [renderHelp]. *)
Definition render_option (opt : CommandOption) (out : ostream) : ostream :=
  let out := put_cstr (name opt) (option_start opt out) in
  let argSyntax := argHint (value opt) in
  let out :=
    if (String.length argSyntax =? 0)%nat then out
    else
      let out :=
        if has_flag (flags opt) OptionalArgument then put "[=" out
        else put " <" out in
      let out := put argSyntax out in
      if has_flag (flags opt) OptionalArgument then put "]" out
      else put ">" out in
  let out := put (help opt) (put (String "009" "") out) in
  let out :=
    match defaultValue (value opt) with
    | Some defVal => put defVal (put " Default: " out)
    | None => out
    end in
  endl out.

Definition render_options (opts : list CommandOption) (out : ostream)
    : ostream :=
  fold_left (fun out opt => render_option opt out) opts out.

(** The heading of a group. *)
Definition group_start (grp_name : string) (out : ostream) : ostream :=
  endl (endl (put ":" (put grp_name out))).

(** The body of the outer loop of [renderHelp]. *)
Definition render_group (grp : CommandGroup) (out : ostream) : ostream :=
  endl (render_options (options grp) (group_start (grp_name grp) out)).

Definition renderHelp (groups : list CommandGroup) (out : ostream)
    : ostream :=
  fold_left (fun out grp => render_group grp out) groups out.

(** An option without a long name. *)
Definition nameless (o : CommandOption) : bool := negb (present (name o)).

(** ** main

    How [main] ends: it returns, or [parseCLI] throws, which nothing
    catches. *)
Inductive exit :=
| returned (status : Z)
| terminated (e : Exception).

(** The loop over [stringVec]. *)
Definition print_container (l : list string) (out : ostream) : ostream :=
  fold_left (fun out str => endl (put str (put (String "009" "") out))) l out.

(** [main], from a [std::cout] that is empty and good: what was written
    to [std::cout], the variables and [std::cerr] at the end, and how it
    ended.  [argv[nextArgv]] is an element of [argv] or the null pointer
    that ends it; there is no result ([None]) for an index beyond that,
    or if [parseCLI] had none. *)
Definition main (indeterminate : nat -> Z) (argv : list string)
    : option (ostream * World * exit) :=
  let cout := endl (put "My options: " (mkStream "" false)) in
  let cout := renderHelp Main.options cout in
  match parseCLI indeterminate argv Main.options Main.initial_world with
  | None => None
  | Some (w, Threw e) => Some (cout, w, terminated e)
  | Some (w, Returned nextArgv) =>
      match vars w !! Main.myStringVar, vars w !! Main.optionalVar,
            vars w !! Main.stringVec, vars w !! Main.myFlag,
            vars w !! Main.myInt with
      | Some (VString myStringVar), Some (VString optionalVar),
        Some (VStrings stringVec), Some (VBool myFlag), Some (VInt myInt) =>
          let cout := endl (put "Hello World!" cout) in
          let cout := endl (put myStringVar (put "myStringVar: " cout)) in
          let cout := endl (put optionalVar (put "optionalVar: " cout)) in
          let cout :=
            endl (put (if myFlag then "1" else "0")
                    (put "myFlag:      " cout)) in
          let cout := endl (put (to_string myInt) (put "myInt:       " cout)) in
          let cout := endl (put "container:   " cout) in
          let cout := print_container stringVec cout in
          if (Z.to_nat nextArgv <=? length argv)%nat then
            let cout :=
              endl (put_cstr (argv !! Z.to_nat nextArgv)
                      (put "next in argv: " cout)) in
            Some (cout, w, returned 0)
          else None
      | _, _, _, _, _ => None
      end
  end.

(** The variables of [main] hold values of their types. *)
Definition main_typed (w : World) : Prop :=
  (exists s, vars w !! Main.myStringVar = Some (VString s))
  /\ (exists s, vars w !! Main.optionalVar = Some (VString s))
  /\ (exists l, vars w !! Main.stringVec = Some (VStrings l))
  /\ (exists b, vars w !! Main.myFlag = Some (VBool b))
  /\ (exists n, vars w !! Main.myInt = Some (VInt n)).

(** What a piece of output does to a stream: the text grows at its end
    only, and [badbit] is what it was, or set when [b] holds. *)
Definition extends_by (b : bool) (out out' : ostream) : Prop :=
  badbit out' = badbit out || b
  /\ exists s, text out' = text out ++ s.

(** The setter of the option keeps [P]. *)
Definition keeps (P : World -> Prop) (o : CommandOption) : Prop :=
  forall opt x w, P w -> P (_setter (value o) opt x w).1.

(** The definition writes to the variable of [main] that has its type. *)
Definition main_slot (vs : ValueSpec) : Prop :=
  match vs with
  | StringSpec target _ _ => target = 0%nat \/ target = 1%nat
  | StringContainerSpec target _ => target = 2%nat
  | BoolSpec target _ _ => target = 3%nat
  | IntSpec target _ => target = 4%nat
  end.

(** The scan stands at the short option character [c], with [rest]
    behind it in the same element of [argv]: inside a cluster, or at an
    element that is a dash followed by [c]. *)
Definition at_short_option (argv : list string) (d : getopt_data)
    (c : ascii) (rest : string) : Prop :=
  nextchar d = String c rest
  \/ (nextchar d = ""
      /\ argv !! optind d = Some (String "-" (String c rest))
      /\ c <> "-"%char).





(** * Properties *)

(** ** The tokenizer on some command lines

    glibc's [getopt_long] gives these results. *)

Example trace_clusters_and_arguments :
  getopt_trace 20
    ["prog"; "-bi7"; "--ost=x"; "-ofoo"; "-o"; "-c"; "q"; "--"; "-b"]
    main_shortopts main_longopts (mkGetopt 0 "" None 0)
  = [ (98, None, 1%nat, None, 0); (105, None, 2%nat, Some "7", 0);
      (0, Some 3%nat, 3%nat, Some "x", 0); (111, None, 4%nat, Some "foo", 0);
      (111, None, 5%nat, None, 0); (99, None, 7%nat, Some "q", 0);
      (-1, None, 8%nat, None, 0) ].
Proof. vm_compute. reflexivity. Qed.

Example trace_errors :
  getopt_trace 20 ["prog"; "-z"; "--nope"; "--bool=1"; "--="; "-i"]
    main_shortopts main_longopts (mkGetopt 0 "" None 0)
  = [ (63, None, 2%nat, None, 122); (63, None, 3%nat, None, 0);
      (63, None, 4%nat, None, 0); (63, None, 5%nat, None, 0);
      (58, None, 6%nat, None, 105); (-1, None, 6%nat, None, 105) ].
Proof. vm_compute. reflexivity. Qed.

Example trace_registry_of_main indet :
  match build_registry indet Main.options with
  | Normal reg => (shortopts reg, longopts reg)
  | Thrown _ => (EmptyString, [])
  end = (main_shortopts, main_longopts).
Proof. vm_compute. reflexivity. Qed.

(** The option character 255 is returned as -1, which ends the loop of
    [parseCLI] in front of [-b]. *)
Example trace_char_255 :
  getopt_trace 20 ["prog"; String "-" (String "255" ""); "-b"]
    (String "+" (String ":" (String "255" "b"))) [mkLong None 0]
    (mkGetopt 0 "" None 0)
  = [ (-1, None, 2%nat, None, 0) ].
Proof. vm_compute. reflexivity. Qed.

(** ** Value::set *)

Lemma set_rejects_repeat v opt input w :
  _wasSet v = true ->
  has_flag (ref_flags opt) Repeatable = false ->
  set v opt input w = (v, emit (once_only_message opt) w, false).
Proof.
  intros Hset Hrep. unfold set. rewrite Hset, Hrep. reflexivity.
Qed.

Lemma set_marks v opt input w :
  _wasSet (set v opt input w).1.1 = true.
Proof.
  unfold set.
  destruct (_wasSet v) eqn:Hv, (has_flag (ref_flags opt) Repeatable); simpl;
    try exact Hv;
    repeat match goal with
           | |- context [if ?b then _ else _] => destruct b
           | |- context [match ?x with Some _ => _ | None => _ end] =>
               destruct x
           | |- context [let '(_, _) := ?x in _] => destruct x
           end; reflexivity.
Qed.

(** When the once-only check lets the call through, [set] is the
    dispatch on the argument and the arity. *)
Lemma set_accepted v opt input w :
  _wasSet v = false \/ has_flag (ref_flags opt) Repeatable = true ->
  set v opt input w =
    if negb (present input) && has_flag (ref_flags opt) OptionalArgument then
      match _defaultVal v tt with
      | None => (mark_set v, w, false)
      | Some optVal =>
          let '(w', r) := _setter v opt (Some optVal) w in (mark_set v, w', r)
      end
    else if present input
            || (Z.land (ref_flags opt) ArgumentTypeMask =? NoArgument) then
      let '(w', r) := _setter v opt input w in (mark_set v, w', r)
    else (mark_set v, w, false).
Proof.
  intros Hpass. unfold set.
  assert (_wasSet v && negb (has_flag (ref_flags opt) Repeatable) = false)
    as -> by (destruct Hpass as [-> | ->]; [reflexivity | apply andb_false_r]).
  destruct input; reflexivity.
Qed.

Lemma set_each_rejected v opt inputs w :
  _wasSet v = true ->
  has_flag (ref_flags opt) Repeatable = false ->
  let '(v', w', rs) := set_each v opt inputs w in
  v' = v /\ vars w' = vars w /\ Forall (fun r => r = false) rs
  /\ cerr w'
     = (cerr w ++ replicate (length inputs) (once_only_message opt))%list.
Proof.
  intros Hset Hrep. revert w.
  induction inputs as [|input rest IH]; intros w; simpl.
  - rewrite app_nil_r. auto.
  - rewrite (set_rejects_repeat _ _ _ _ Hset Hrep).
    specialize (IH (emit (once_only_message opt) w)).
    destruct (set_each v opt rest _) as [[v2 w2] rs].
    destruct IH as (-> & Hvars & Hrs & Hcerr).
    repeat split; auto.
    rewrite Hcerr. simpl. rewrite <- app_assoc. reflexivity.
Qed.

Lemma set_each_length v opt inputs w :
  length (set_each v opt inputs w).2 = length inputs.
Proof.
  revert v w. induction inputs as [|input rest IH]; intros v w; simpl;
    [reflexivity|].
  destruct (set v opt input w) as [[v1 w1] r].
  specialize (IH v1 w1).
  destruct (set_each v1 opt rest w1) as [[v2 w2] rs]. simpl in *.
  now rewrite IH.
Qed.



(** C6: after every call of [Value::set] the [Value] is marked as set,
    whatever the call returned; so for an option that is not Repeatable
    every call after the first one fails the once-only check, also when
    the first call itself failed (no default for an absent optional
    argument, or a required argument that is absent): the [Value] and
    the variables stay as they are and every result is false.  For an
    option with a long name each of these calls writes the once-only
    line with that name. *)
Theorem C6_set_marks_wasSet_on_every_call :
  (forall v opt input w, _wasSet (set v opt input w).1.1 = true)
  /\ (forall v opt first later w,
        has_flag (ref_flags opt) Repeatable = false ->
        let '(v1, w1, _) := set v opt first w in
        let '(v2, w2, rs) := set_each v1 opt later w1 in
        v2 = v1 /\ vars w2 = vars w1 /\ Forall (fun r => r = false) rs
        /\ length rs = length later
        /\ (exists lines, cerr w2 = (cerr w1 ++ lines)%list)
        /\ (forall n,
              ref_name opt = Some n ->
              cerr w2
              = (cerr w1
                 ++ replicate (length later)
                      ("Option " ++ n
                       ++ " can only be used once")%string)%list))
  /\ (forall target hint name short help input w,
        let v := StringType target None hint in
        let opt := mkRef (Some name) short OptionalArgument help in
        set v opt None w = (mark_set v, w, false)
        /\ set (mark_set v) opt input w =
             (mark_set v,
              emit ("Option " ++ name ++ " can only be used once") w, false))
  /\ (forall target def hint name short help input w,
        let v := StringType target def hint in
        let opt := mkRef (Some name) short RequiredArgument help in
        set v opt None w = (mark_set v, w, false)
        /\ set (mark_set v) opt input w =
             (mark_set v,
              emit ("Option " ++ name ++ " can only be used once") w, false)).
Proof.
  split; [|split; [|split]].
  - apply set_marks.
  - intros v opt first later w Hrep.
    pose proof (set_marks v opt first w) as Hmark.
    destruct (set v opt first w) as [[v1 w1] r1]. simpl in Hmark.
    pose proof (set_each_rejected v1 opt later w1 Hmark Hrep) as H.
    pose proof (set_each_length v1 opt later w1) as Hlen.
    destruct (set_each v1 opt later w1) as [[v2 w2] rs].
    destruct H as (Hv & Hvars & Hrs & Hcerr). simpl in Hlen.
    split; [exact Hv|]. split; [exact Hvars|]. split; [exact Hrs|].
    split; [exact Hlen|]. split; [eauto|].
    intros n Hn. rewrite Hcerr. unfold once_only_message. rewrite Hn.
    reflexivity.
  - intros. split; [reflexivity|].
    apply set_rejects_repeat; reflexivity.
  - intros. split; [reflexivity|].
    apply set_rejects_repeat; reflexivity.
Qed.

Lemma C6_witness :
  has_flag OptionalArgument Repeatable = false
  /\ let v := StringType 0%nat None "STRING" in
     let opt := mkRef (Some "ostring") "o" OptionalArgument "" in
     let w := mkWorld ∅ [] in
     let '(v1, w1, _) := set v opt None w in
     let '(v2, w2, rs) := set_each v1 opt [Some "a"; None] w1 in
     v2 = v1 /\ vars w2 = vars w1 /\ Forall (fun r => r = false) rs
     /\ length rs = 2%nat
     /\ (exists lines, cerr w2 = (cerr w1 ++ lines)%list)
     /\ (forall n,
           ref_name opt = Some n ->
           cerr w2
           = (cerr w1
              ++ replicate 2
                   ("Option " ++ n ++ " can only be used once")%string)%list).
Proof.
  split; [reflexivity|].
  exact (proj1 (proj2 C6_set_marks_wasSet_on_every_call)
           (StringType 0%nat None "STRING")
           (mkRef (Some "ostring") "o" OptionalArgument "")
           None [Some "a"; None] (mkWorld ∅ []) eq_refl).
Defined.

(** Not every call without an argument on an OptionalArgument option
    reaches the default-value provider: a second call on an option that is
    not Repeatable is stopped by the once-only check before.  Here the
    first call stores ["x"]; the second one, without an argument, has a
    default at hand and a setter that would succeed, and yet returns false
    and leaves ["x"] in the target. *)
Lemma C4_counterexample :
  let v := StringType 0%nat (Some (Some "Seen, i was seen")) "STRING" in
  let opt := mkRef (Some "ostring") "o" OptionalArgument "" in
  let w := mkWorld (<[0%nat := VString "I'm optional"]> ∅) [] in
  let '(v1, w1, _) := set v opt (Some "x") w in
  has_flag (ref_flags opt) OptionalArgument = true
  /\ _defaultVal v1 tt = Some "Seen, i was seen"
  /\ (_setter v1 opt (Some "Seen, i was seen") w1).2 = true
  /\ (set v1 opt None w1).2 = false
  /\ vars (set v1 opt None w1).1.2 !! 0%nat = Some (VString "x")
  /\ vars (_setter v1 opt (Some "Seen, i was seen") w1).1 !! 0%nat
     = Some (VString "Seen, i was seen").
Proof. vm_compute. repeat split; reflexivity. Qed.

(** C4 (amended): when [Value::set] is called without an argument on an
    OptionalArgument option and the once-only check lets the call through
    (the [Value] was not set before, or the option is Repeatable), it asks
    the default-value provider; without a default it returns false and the
    setter is not called; with one it calls the setter with the default
    and returns the setter's result.  Parsing [--ostring] with no attached
    value stores the default ["Seen, i was seen"]. *)
Theorem C4_optional_argument_takes_default :
  (forall v opt w,
     _wasSet v = false \/ has_flag (ref_flags opt) Repeatable = true ->
     has_flag (ref_flags opt) OptionalArgument = true ->
     set v opt None w =
       match _defaultVal v tt with
       | None => (mark_set v, w, false)
       | Some optVal =>
           let '(w', r) := _setter v opt (Some optVal) w in (mark_set v, w', r)
       end)
  /\ (forall indet prog w,
        parseCLI indet [prog; "--ostring"] Main.options w =
        Some (store Main.optionalVar (VString "Seen, i was seen") w,
              Returned 2))
  /\ (forall indet prog w,
        parseCLI indet [prog; "--ostring"; "--cstring=a"] Main.options w =
        Some (push_back Main.stringVec "a"
                (store Main.optionalVar (VString "Seen, i was seen") w),
              Returned 3)).
Proof.
  split; [|split].
  - intros v opt w Hpass Hopt.
    rewrite (set_accepted _ _ _ _ Hpass), Hopt. reflexivity.
  - intros. vm_compute. reflexivity.
  - intros. vm_compute. reflexivity.
Qed.

Lemma C4_witness :
  (_wasSet (StringType 1%nat (Some (Some "Seen, i was seen")) "STRING") = false
   \/ has_flag (Z.lor OptionalArgument Repeatable) Repeatable = true)
  /\ has_flag (Z.lor OptionalArgument Repeatable) OptionalArgument = true
  /\ let v := StringType 1%nat (Some (Some "Seen, i was seen")) "STRING" in
     let opt :=
       mkRef (Some "ostring") "o" (Z.lor OptionalArgument Repeatable) "" in
     set v opt None (mkWorld ∅ []) =
       (mark_set v,
        store 1%nat (VString "Seen, i was seen") (mkWorld ∅ []), true).
Proof.
  split; [left; reflexivity|]. split; [reflexivity|].
  exact (proj1 C4_optional_argument_takes_default
           (StringType 1%nat (Some (Some "Seen, i was seen")) "STRING")
           (mkRef (Some "ostring") "o" (Z.lor OptionalArgument Repeatable) "")
           (mkWorld ∅ []) (or_introl eq_refl) eq_refl).
Defined.

(** ** The integer setter *)

Lemma stoi_cases s :
  (malformed s /\ stoi s = invalid_argument)
  \/ (out_of_int_range s /\ stoi s = out_of_range)
  \/ (INT_MIN <= denoted s <= INT_MAX /\ ~ malformed s
      /\ stoi s = Converted (denoted s)).
Proof.
  unfold malformed, out_of_int_range, malformed, denoted, stoi.
  destruct (strip_sign (skip_spaces s)) as [negative body]; simpl.
  destruct (starts_with_digit body); [|left; auto].
  right.
  set (n := if negative then - digits_from 0 body else digits_from 0 body).
  destruct (Z.leb_spec INT_MIN n), (Z.leb_spec n INT_MAX); simpl;
    first [ right; repeat split; (lia || discriminate)
          | left; repeat split; (lia || discriminate) ].
Qed.

(** Not every argument that is no base-10 integer is refused: [std::stoi]
    converts the digits an argument starts with and ignores the rest.  For
    ["12abc"] the setter stores 12 and returns true, and nothing is written
    to [cerr]. *)
Lemma C5_counterexample :
  let v := IntType Main.myInt (Some 10) in
  let opt := mkRef (Some "int") "i" RequiredArgument "Set the Int value." in
  stoi "12abc" = Converted 12
  /\ _setter v opt (Some "12abc") Main.initial_world
     = (store Main.myInt (VInt 12) Main.initial_world, true)
  /\ parseCLI (fun _ => 0) ["prog"; "--int"; "12abc"] Main.options
       Main.initial_world
     = Some (store Main.myInt (VInt 12) Main.initial_world, Returned 3)
  /\ vars Main.initial_world !! Main.myInt = Some (VInt 10)
  /\ cerr (store Main.myInt (VInt 12) Main.initial_world) = [].
Proof. vm_compute. repeat split; reflexivity. Qed.

(** C5 (amended): the setter of [IntType] reads its argument in base 10
    with [std::stoi]: white space and one sign are skipped, the digits that
    follow are converted and what comes after them is ignored.  For every
    argument that has no digit in that place, or whose number is out of
    the range of [int], it writes a diagnostic, returns false and stores
    nothing, also when called through [Value::set]; parsing
    [--int notanumber] leaves the targets as they were and still returns
    the index past both elements. *)
Theorem C5_int_setter_rejects_bad_arguments :
  (forall target defValue opt s w,
     malformed s \/ out_of_int_range s ->
     exists line,
       _setter (IntType target defValue) opt (Some s) w = (emit line w, false)
       /\ set (IntType target defValue) opt (Some s) w
          = (mark_set (IntType target defValue), emit line w, false)
       /\ vars (emit line w) = vars w)
  /\ (forall target defValue opt s w,
        ~ malformed s -> INT_MIN <= denoted s <= INT_MAX ->
        _setter (IntType target defValue) opt (Some s) w
        = (store target (VInt (denoted s)) w, true))
  /\ denoted "42" = 42 /\ denoted "-7" = -7
  /\ malformed "notanumber" /\ out_of_int_range "2147483648"
  /\ (forall indet prog w,
        parseCLI indet [prog; "--int"; "notanumber"] Main.options w =
        Some (emit "Argument: int is invalid." w, Returned 3))
  /\ (forall indet prog w,
        parseCLI indet [prog; "--int"; "2147483648"] Main.options w =
        Some (emit "Argument: int is out of range." w, Returned 3))
  /\ (forall indet prog w,
        parseCLI indet [prog; "--int"; "5"] Main.options w =
        Some (store Main.myInt (VInt 5) w, Returned 3)).
Proof.
  split; [|split; [|split; [|split; [|split; [|split; [|split; [|split]]]]]]].
  - intros target defValue opt s w Hbad.
    assert (exists line,
      _setter (IntType target defValue) opt (Some s) w = (emit line w, false))
      as [line Hline].
    { simpl.
      destruct (stoi_cases s) as [[_ ->] | [[_ ->] | (Hr & Hm & _)]];
        [eexists; reflexivity | eexists; reflexivity |].
      destruct Hbad as [Hbad | [_ Hbad]]; contradiction. }
    exists line. split; [exact Hline|]. split; [|reflexivity].
    rewrite set_accepted by (left; reflexivity).
    simpl negb. simpl andb. cbv iota.
    change (present (Some s) || _) with true. cbv iota.
    rewrite Hline. reflexivity.
  - intros target defValue opt s w Hm Hr. simpl.
    destruct (stoi_cases s) as [[Hm' _] | [[[_ Hr'] _] | (_ & _ & ->)]];
      [contradiction | contradiction | reflexivity].
  - reflexivity.
  - reflexivity.
  - reflexivity.
  - split; [discriminate|]. vm_compute. intros [_ H]. apply H. reflexivity.
  - intros. vm_compute. reflexivity.
  - intros. vm_compute. reflexivity.
  - intros. vm_compute. reflexivity.
Qed.

Lemma C5_witness :
  (malformed "notanumber" \/ out_of_int_range "notanumber")
  /\ exists line,
       let v := IntType Main.myInt (Some 10) in
       let opt := mkRef (Some "int") "i" RequiredArgument "" in
       _setter v opt (Some "notanumber") Main.initial_world
       = (emit line Main.initial_world, false)
       /\ set v opt (Some "notanumber") Main.initial_world
          = (mark_set v, emit line Main.initial_world, false)
       /\ vars (emit line Main.initial_world) = vars Main.initial_world.
Proof.
  split; [left; reflexivity|].
  exact (proj1 C5_int_setter_rejects_bad_arguments
           Main.myInt (Some 10) (mkRef (Some "int") "i" RequiredArgument "")
           "notanumber" Main.initial_world (or_introl eq_refl)).
Defined.

(** ** Arity flags and has_arg *)

Lemma arity_mask_range flags : 0 <= arity_mask flags < 16.
Proof.
  unfold arity_mask, ArgumentTypeMask.
  change 15 with (Z.ones 4). rewrite Z.land_ones by lia.
  apply Z.mod_pos_bound. reflexivity.
Qed.

Lemma has_flag_of_mask flags f :
  Z.land ArgumentTypeMask f = f ->
  has_flag flags f = has_flag (arity_mask flags) f.
Proof.
  intros Hf. unfold has_flag, arity_mask.
  rewrite <- Z.land_assoc, Hf. reflexivity.
Qed.

Lemma arity_conflict_of_mask flags :
  arity_conflict flags = arity_conflict (arity_mask flags).
Proof.
  unfold arity_conflict.
  rewrite (has_flag_of_mask flags RequiredArgument) by reflexivity.
  rewrite (has_flag_of_mask flags OptionalArgument) by reflexivity.
  reflexivity.
Qed.

(** The check of [parseCLI] rejects exactly the masks that hold both the
    Required and the Optional bit. *)
Lemma arity_conflict_iff flags :
  arity_conflict flags = true <->
  arity_mask flags = 3 \/ arity_mask flags = 7 \/ arity_mask flags = 11
  \/ arity_mask flags = 15.
Proof.
  rewrite arity_conflict_of_mask.
  pose proof (arity_mask_range flags) as Hr.
  set (m := arity_mask flags) in *. clearbody m.
  assert (m = 0 \/ m = 1 \/ m = 2 \/ m = 3 \/ m = 4 \/ m = 5 \/ m = 6 \/ m = 7
          \/ m = 8 \/ m = 9 \/ m = 10 \/ m = 11 \/ m = 12 \/ m = 13 \/ m = 14
          \/ m = 15) as Hm by lia.
  repeat (destruct Hm as [-> | Hm]); try subst m;
    (split; [intros H; vm_compute in H; first [discriminate | lia] | ]);
    intros H; first [reflexivity | lia].
Qed.

Lemma arity_defined_no_conflict flags :
  arity_defined flags -> arity_conflict flags = false.
Proof.
  intros Hd. destruct (arity_conflict flags) eqn:Hc; [|reflexivity].
  apply arity_conflict_iff in Hc.
  unfold arity_defined, NoArgument, RequiredArgument, OptionalArgument in Hd.
  lia.
Qed.

Lemma appendToLongOptions_defined indet opt opts :
  arity_defined (flags opt) ->
  appendToLongOptions indet opt opts
  = (opts ++ [mkLong (name opt) (arity_mask (flags opt))])%list.
Proof.
  unfold arity_defined, appendToLongOptions, arity_mask.
  intros [-> | [-> | ->]]; reflexivity.
Qed.

Lemma appendToLongOptions_undefined indet opt opts :
  ~ arity_defined (flags opt) ->
  appendToLongOptions indet opt opts
  = (opts ++ [mkLong (name opt) indet])%list.
Proof.
  unfold arity_defined, appendToLongOptions, arity_mask.
  intros Hn.
  destruct (Z.eqb_spec (Z.land (flags opt) ArgumentTypeMask) NoArgument);
    [tauto|].
  destruct (Z.eqb_spec (Z.land (flags opt) ArgumentTypeMask) RequiredArgument);
    [tauto|].
  destruct (Z.eqb_spec (Z.land (flags opt) ArgumentTypeMask) OptionalArgument);
    [tauto|].
  reflexivity.
Qed.

(** C10: [appendToLongOptions] gives [has_arg] a value only for the masks
    NoArgument, RequiredArgument and OptionalArgument, and the check of
    [parseCLI] rejects only the masks that hold both the Required and the
    Optional bit.  So for a defined mask the entry pushed is the same
    whatever the uninitialised variable holds; for any other mask that
    does not hold both bits (0x04 for one) the check passes and the entry
    carries the uninitialised value, on which the parse then depends. *)
Theorem C10_has_arg_defined_for_three_masks_only :
  (forall indet1 indet2 opt opts,
     arity_defined (flags opt) ->
     appendToLongOptions indet1 opt opts = appendToLongOptions indet2 opt opts
     /\ appendToLongOptions indet1 opt opts
        = (opts ++ [mkLong (name opt) (arity_mask (flags opt))])%list)
  /\ (forall flags,
        arity_conflict flags = true <->
        has_flag flags RequiredArgument = true
        /\ has_flag flags OptionalArgument = true)
  /\ (forall indet opt opts,
        ~ arity_defined (flags opt) ->
        arity_conflict (flags opt) = false ->
        appendToLongOptions indet opt opts
        = (opts ++ [mkLong (name opt) indet])%list)
  /\ (forall indet nm short v hlp r,
        longOptIndex r !! nm = None ->
        shortOptIndex r !! short = None ->
        exists r',
          register indet (mkOption (Some nm) short 4 v hlp) r = Normal r'
          /\ longopts r'
             = (longopts r
                ++ [mkLong (Some nm) (indet (length (allOpts r)))])%list)
  /\ (forall prog target w,
        parseCLI (fun _ => required_argument) [prog; "--string"; "x"]
          (string_option 4 target None) w
        = Some (store target (VString "x") w, Returned 3)
        /\ parseCLI (fun _ => no_argument) [prog; "--string"; "x"]
             (string_option 4 target None) w
           = Some (w, Returned 2)).
Proof.
  split; [|split; [|split; [|split]]].
  - intros indet1 indet2 opt opts Hd.
    rewrite !appendToLongOptions_defined by assumption. auto.
  - intros flags. unfold arity_conflict. apply andb_true_iff.
  - intros indet opt opts Hn _. apply appendToLongOptions_undefined, Hn.
  - intros indet nm short v hlp r Hlong Hshort.
    unfold register. simpl. rewrite Hlong.
    change (arity_conflict 4) with false. cbv iota.
    rewrite length_app, Nat.add_sub. simpl.
    destruct (Ascii.eqb short zero); simpl.
    + eexists; split; reflexivity.
    + rewrite Hshort. simpl. eexists; split; reflexivity.
  - intros. split; vm_compute; reflexivity.
Qed.

Lemma C10_witness :
  arity_defined (flags (mkOption (Some "int") "i" RequiredArgument
                          (IntType Main.myInt (Some 10)) "Set the Int value."))
  /\ let opt := mkOption (Some "int") "i" RequiredArgument
                 (IntType Main.myInt (Some 10)) "Set the Int value." in
     appendToLongOptions 0 opt [] = appendToLongOptions 7 opt []
     /\ appendToLongOptions 0 opt []
        = ([] ++ [mkLong (name opt) (arity_mask (flags opt))])%list.
Proof.
  split; [right; left; reflexivity|].
  exact (proj1 C10_has_arg_defined_for_three_masks_only 0 7
           (mkOption (Some "int") "i" RequiredArgument
              (IntType Main.myInt (Some 10)) "Set the Int value.")
           [] (or_intror (or_introl eq_refl))).
Defined.

(** ** Registry construction *)

(** What a turn that does not throw has checked and stored. *)
Lemma register_inv indet o r r' :
  register indet o r = Normal r' ->
  arity_conflict (flags o) = false
  /\ allOpts r' = (allOpts r ++ [o])%list
  /\ match name o with
     | Some n =>
         longOptIndex r !! n = None
         /\ longOptIndex r' = <[n := length (allOpts r)]> (longOptIndex r)
         /\ longopts r'
            = appendToLongOptions (indet (length (allOpts r))) o (longopts r)
     | None => longOptIndex r' = longOptIndex r /\ longopts r' = longopts r
     end
  /\ if Ascii.eqb (shortName o) zero
     then shortOptIndex r' = shortOptIndex r /\ shortopts r' = shortopts r
     else shortOptIndex r !! shortName o = None
          /\ shortOptIndex r'
             = <[shortName o := length (allOpts r)]> (shortOptIndex r)
          /\ shortopts r' = appendToOptString o (shortopts r).
Proof.
  unfold register. rewrite length_app, Nat.add_sub.
  destruct (arity_conflict (flags o)); [discriminate|].
  destruct (name o) as [n|]; [destruct (longOptIndex r !! n); [discriminate|]|];
    (destruct (Ascii.eqb (shortName o) zero);
     [|destruct (shortOptIndex r !! shortName o); [discriminate|]]);
    simpl; intros [= <-]; simpl; repeat split; reflexivity.
Qed.

Lemma register_Normal indet o r r' :
  indexed r -> unambiguous (allOpts r) ->
  register indet o r = Normal r' ->
  allOpts r' = (allOpts r ++ [o])%list /\ indexed r'
  /\ unambiguous (allOpts r').
Proof.
  intros [Hlong Hshort] (Hconf & Hnames & Hshorts) Hreg.
  apply register_inv in Hreg as (Hc & Hall & Hl & Hs).
  assert (forall n, name o = Some n -> longOptIndex r !! n = None) as Hfresh.
  { intros n Hn. rewrite Hn in Hl. apply Hl. }
  assert (shortName o <> zero -> shortOptIndex r !! shortName o = None)
    as Hsfresh.
  { intros Hnz. apply Ascii.eqb_neq in Hnz. rewrite Hnz in Hs. apply Hs. }
  assert (forall o', o' ∈ allOpts r' <-> o' ∈ allOpts r \/ o' = o) as Hin'.
  { intros o'. rewrite Hall, elem_of_app, list_elem_of_singleton. tauto. }
  split; [assumption|]. split; [split|].
  - intros n. destruct (name o) as [n0|] eqn:Hn.
    + destruct Hl as (_ & -> & _). rewrite lookup_insert.
      case_decide as Heq.
      * subst n0. split; [|eauto].
        intros _. exists o. rewrite Hin'. auto.
      * rewrite Hlong. split.
        -- intros (o' & Hin & Hn'). exists o'. rewrite Hin'. auto.
        -- intros (o' & Hin & Hn'). apply Hin' in Hin as [Hin | ->];
             [eauto | congruence].
    + destruct Hl as [-> _]. rewrite Hlong. split.
      * intros (o' & Hin & Hn'). exists o'. rewrite Hin'. auto.
      * intros (o' & Hin & Hn'). apply Hin' in Hin as [Hin | ->];
          [eauto | congruence].
  - intros c. destruct (Ascii.eqb (shortName o) zero) eqn:Hz.
    + apply Ascii.eqb_eq in Hz. destruct Hs as [-> _]. rewrite Hshort. split.
      * intros (Hc0 & o' & Hin & Hn'). split; [assumption|].
        exists o'. rewrite Hin'. auto.
      * intros (Hc0 & o' & Hin & Hn'). split; [assumption|].
        apply Hin' in Hin as [Hin | ->]; [eauto | congruence].
    + apply Ascii.eqb_neq in Hz. destruct Hs as (_ & -> & _).
      rewrite lookup_insert. case_decide as Heq.
      * subst c. split; [|eauto]. intros _. split; [assumption|].
        exists o. rewrite Hin'. auto.
      * rewrite Hshort. split.
        -- intros (Hc0 & o' & Hin & Hn'). split; [assumption|].
           exists o'. rewrite Hin'. auto.
        -- intros (Hc0 & o' & Hin & Hn'). split; [assumption|].
           apply Hin' in Hin as [Hin | ->]; [eauto | congruence].
  - rewrite Hall. split; [|split].
    + intros o' Hin. apply elem_of_app in Hin as [Hin | Hin]; [auto|].
      apply list_elem_of_singleton in Hin. subst o'. assumption.
    + intros i j o1 o2 n H1 H2 Hn1 Hn2.
      apply lookup_app_Some in H1 as [H1 | [Hi H1]];
        apply lookup_app_Some in H2 as [H2 | [Hj H2]].
      * eauto.
      * apply list_lookup_singleton_Some in H2 as [_ <-].
        specialize (Hfresh n Hn2).
        assert (is_Some (longOptIndex r !! n)) as [? Hsome]
          by (apply Hlong; exists o1; split;
              [eapply list_elem_of_lookup_2; eassumption | assumption]).
        congruence.
      * apply list_lookup_singleton_Some in H1 as [_ <-].
        specialize (Hfresh n Hn1).
        assert (is_Some (longOptIndex r !! n)) as [? Hsome]
          by (apply Hlong; exists o2; split;
              [eapply list_elem_of_lookup_2; eassumption | assumption]).
        congruence.
      * apply list_lookup_singleton_Some in H1 as [H1 _].
        apply list_lookup_singleton_Some in H2 as [H2 _]. lia.
    + intros i j o1 o2 H1 H2 Heq Hnz.
      apply lookup_app_Some in H1 as [H1 | [Hi H1]];
        apply lookup_app_Some in H2 as [H2 | [Hj H2]].
      * eauto.
      * apply list_lookup_singleton_Some in H2 as [_ <-].
        rewrite Heq in Hnz. specialize (Hsfresh Hnz).
        assert (is_Some (shortOptIndex r !! shortName o)) as [? Hsome]
          by (apply Hshort; split; [assumption|]; exists o1; split;
              [eapply list_elem_of_lookup_2; eassumption | assumption]).
        congruence.
      * apply list_lookup_singleton_Some in H1 as [_ <-].
        specialize (Hsfresh Hnz).
        assert (is_Some (shortOptIndex r !! shortName o)) as [? Hsome]
          by (apply Hshort; split; [assumption|]; exists o2; split;
              [eapply list_elem_of_lookup_2; eassumption | congruence]).
        congruence.
      * apply list_lookup_singleton_Some in H1 as [H1 _].
        apply list_lookup_singleton_Some in H2 as [H2 _]. lia.
Qed.

Lemma register_options_Normal indet l r r' :
  indexed r -> unambiguous (allOpts r) ->
  register_options indet l r = Normal r' ->
  allOpts r' = (allOpts r ++ l)%list /\ indexed r' /\ unambiguous (allOpts r').
Proof.
  revert r. induction l as [|o l IH]; intros r Hi Hu; simpl.
  - intros [= <-]. rewrite app_nil_r. auto.
  - destruct (register indet o r) as [r1|e] eqn:Hreg; [|discriminate].
    simpl. intros Hrest.
    destruct (register_Normal _ _ _ _ Hi Hu Hreg) as (Hall & Hi1 & Hu1).
    destruct (IH _ Hi1 Hu1 Hrest) as (Hall' & Hi' & Hu').
    split; [|auto]. rewrite Hall', Hall, <- app_assoc. reflexivity.
Qed.

Lemma register_groups_Normal indet groups r r' :
  indexed r -> unambiguous (allOpts r) ->
  register_groups indet groups r = Normal r' ->
  allOpts r' = (allOpts r ++ all_options groups)%list
  /\ indexed r' /\ unambiguous (allOpts r').
Proof.
  revert r. induction groups as [|g groups IH]; intros r Hi Hu; simpl.
  - intros [= <-]. unfold all_options. simpl. rewrite app_nil_r. auto.
  - destruct (register_options indet (options g) r) as [r1|e] eqn:Hreg;
      [|discriminate].
    simpl. intros Hrest.
    destruct (register_options_Normal _ _ _ _ Hi Hu Hreg) as (Hall & Hi1 & Hu1).
    destruct (IH _ Hi1 Hu1 Hrest) as (Hall' & Hi' & Hu').
    split; [|auto]. unfold all_options in *. simpl.
    rewrite Hall', Hall, <- app_assoc. reflexivity.
Qed.

Lemma indexed_empty : indexed empty_registry.
Proof.
  split; intros k; simpl; rewrite lookup_empty; split.
  - intros [? ?]; discriminate.
  - intros (o & Hin & _). inversion Hin.
  - intros [? ?]; discriminate.
  - intros (_ & o & Hin & _). inversion Hin.
Qed.

Lemma unambiguous_nil : unambiguous [].
Proof.
  split; [|split].
  - intros o Hin. inversion Hin.
  - intros i j o1 o2 n H. rewrite lookup_nil in H. discriminate.
  - intros i j o1 o2 H. rewrite lookup_nil in H. discriminate.
Qed.

(** The registry that the first loop leaves holds a copy of every option
    of the caller, in order, and none of them is ambiguous. *)
Lemma build_registry_Normal indet groups reg :
  build_registry indet groups = Normal reg ->
  allOpts reg = all_options groups /\ indexed reg
  /\ unambiguous (all_options groups).
Proof.
  unfold build_registry.
  destruct (register_groups indet groups empty_registry) as [r|e] eqn:Hreg;
    [|discriminate].
  simpl. intros [= <-].
  destruct (register_groups_Normal _ _ _ _ indexed_empty unambiguous_nil Hreg)
    as (Hall & Hi & Hu).
  simpl in Hall. rewrite Hall in Hu. simpl. auto.
Qed.

Lemma ambiguous_not_unambiguous all :
  share_long_name all \/ share_short_name all \/ conflicting_arity all ->
  ~ unambiguous all.
Proof.
  intros Hbad (Hconf & Hnames & Hshorts).
  destruct Hbad as [(i & j & o1 & o2 & n & Hij & H1 & H2 & Hn1 & Hn2)
                   | [(i & j & o1 & o2 & Hij & H1 & H2 & Heq & Hnz)
                     | (o & Hin & Hc)]].
  - apply Hij. eauto.
  - apply Hij. eauto.
  - rewrite (Hconf o Hin) in Hc. discriminate.
Qed.

(** C3: when two options of the configuration have the same long name,
    or the same short character, or one option has the Required and the
    Optional flag at once, [parseCLI] throws while it builds its registry:
    whatever [argv] is, the call ends with the exception and the caller's
    memory is what it was. *)
Theorem C3_ambiguous_configuration_throws :
  forall indet groups,
    share_long_name (all_options groups)
    \/ share_short_name (all_options groups)
    \/ conflicting_arity (all_options groups) ->
    exists e, forall argv w,
      parseCLI indet argv groups w = Some (w, Threw e).
Proof.
  intros indet groups Hbad.
  destruct (build_registry indet groups) as [reg|e] eqn:Hreg.
  - apply build_registry_Normal in Hreg as (_ & _ & Hu).
    destruct (ambiguous_not_unambiguous _ Hbad Hu).
  - exists e. intros argv w. unfold parseCLI, parseCLI_run.
    rewrite Hreg. reflexivity.
Qed.

Lemma C3_witness :
  (share_long_name
     (all_options (string_option RequiredArgument 0%nat None
                   ++ string_option NoArgument 1%nat None))
   \/ share_short_name
        (all_options (string_option RequiredArgument 0%nat None
                      ++ string_option NoArgument 1%nat None))
   \/ conflicting_arity
        (all_options (string_option RequiredArgument 0%nat None
                      ++ string_option NoArgument 1%nat None)))
  /\ exists e, forall argv w,
       parseCLI (fun _ => 0)  argv
         (string_option RequiredArgument 0%nat None
          ++ string_option NoArgument 1%nat None) w
       = Some (w, Threw e).
Proof.
  assert (share_long_name
            (all_options (string_option RequiredArgument 0%nat None
                          ++ string_option NoArgument 1%nat None))) as H.
  { exists 0%nat, 1%nat. eexists. eexists. exists "string".
    split; [discriminate|]. split; [reflexivity|]. split; [reflexivity|].
    split; reflexivity. }
  split; [left; exact H|].
  exact (C3_ambiguous_configuration_throws (fun _ => 0) _ (or_introl H)).
Defined.

(** ** Dispatch to the options *)

(** C7: a long option is dispatched to [allOpts[option_index]], but
    [option_index] counts only the options that have a long name (the
    comment in the source takes the two indices for the same).  With a
    short-only option in front, [--bee] reaches the [Value] of the
    short-only option [-a] and not its own, while [-b] reaches the right
    one. *)
Theorem C7_long_option_index_misses_nameless_options :
  forall indet prog a_target b_target w,
    parseCLI indet [prog; "--bee"] (short_only_first a_target b_target) w
    = Some (store a_target (VBool true) w, Returned 2)
    /\ parseCLI indet [prog; "-b"] (short_only_first a_target b_target) w
       = Some (store b_target (VBool true) w, Returned 2)
    /\ match build_registry indet (short_only_first a_target b_target) with
       | Normal reg =>
           map name (allOpts reg) = [None; Some "bee"]
           /\ map lo_name (longopts reg) = [Some "bee"; None]
           /\ longOptIndex reg !! "bee" = Some 1%nat
       | Thrown _ => False
       end.
Proof. intros. repeat split; vm_compute; reflexivity. Qed.

(** An attached argument of length zero is passed on as no argument. *)
Lemma dispatch_empty_argument argv shortIdx optc option_index d opts w :
  optarg d = Some "" ->
  dispatch argv shortIdx optc option_index d opts w
  = dispatch argv shortIdx optc option_index
      (mkGetopt (optind d) (nextchar d) None (optopt d)) opts w.
Proof. intros H. unfold dispatch. rewrite H. reflexivity. Qed.

(** [--ostring=] takes the default, [-b] after a failed [--int] is still
    handled: the result of [set] is dropped. *)
Lemma parse_empty_attached_argument indet prog w :
  parseCLI indet [prog; "--ostring="] Main.options w
  = Some (store Main.optionalVar (VString "Seen, i was seen") w, Returned 2)
  /\ parseCLI indet [prog; "--int=x"; "-b"] Main.options w
     = Some (store Main.myFlag (VBool true)
               (emit "Argument: int is invalid." w), Returned 3).
Proof. split; vm_compute; reflexivity. Qed.

(** ** The caller's definitions and the copies in allOpts *)

Lemma same_definition_refl o : same_definition o o.
Proof. repeat split; auto. Qed.

Lemma set_value_cases v opt input w :
  (set v opt input w).1.1 = v \/ (set v opt input w).1.1 = mark_set v.
Proof.
  unfold set.
  repeat match goal with
         | |- context [if ?b then _ else _] => destruct b
         | |- context [match ?x with Some _ => _ | None => _ end] => destruct x
         | |- context [let '(_, _) := ?x in _] => destruct x
         end; simpl; auto.
Qed.

Lemma dispatch_same_definition base argv shortIdx optc option_index d opts w :
  Forall2 same_definition base opts ->
  Forall2 same_definition base
    (dispatch argv shortIdx optc option_index d opts w).1.
Proof.
  intros Hsame. unfold dispatch.
  destruct (optc =? int_of_char "?"); [exact Hsame|].
  destruct (optc =? int_of_char ":"); [exact Hsame|].
  destruct (match option_index with
            | Some i => Some i
            | None => shortIdx !! char_of_int optc
            end) as [i|]; [|exact Hsame].
  destruct (opts !! i) as [o|] eqn:Ho; [|exact Hsame].
  destruct (Forall2_lookup_r _ _ _ _ _ Hsame Ho) as (o0 & Ho0 & Hdef).
  set (arg := match optarg d with
              | Some a => if (String.length a =? 0)%nat then None else Some a
              | None => None
              end).
  pose proof (set_value_cases (value o) (ref_of o) arg w) as Hv.
  destruct (set (value o) (ref_of o) arg w) as [[v' w'] r]. simpl in *.
  rewrite <- (list_insert_id base i o0 Ho0).
  apply Forall2_insert; [exact Hsame|].
  destruct Hdef as (? & ? & ? & ? & ? & ? & ? & ?).
  destruct Hv as [-> | ->]; repeat split; simpl; auto.
Qed.

Lemma scan_same_definition base fuel argv reg d opts w d' opts' w' :
  Forall2 same_definition base opts ->
  scan fuel argv reg d opts w = Some (d', opts', w') ->
  Forall2 same_definition base opts'.
Proof.
  revert d opts w. induction fuel as [|fuel IH]; intros d opts w Hsame; simpl;
    [discriminate|].
  destruct (getopt_long argv (shortopts reg) (longopts reg) d)
    as [[optc option_index] d1].
  destruct (optc =? -1).
  - intros [= <- <- <-]. exact Hsame.
  - pose proof (dispatch_same_definition base argv (shortOptIndex reg) optc
                  option_index d1 opts w Hsame) as Hstep.
    destruct (dispatch argv (shortOptIndex reg) optc option_index d1 opts w)
      as [opts1 w1].
    apply IH. exact Hstep.
Qed.

(** C9: [parseCLI] works on copies.  Its local list starts as a copy of
    the caller's options, [Value] and [_wasSet] included; what it holds in
    the end differs from the caller's definitions in [_wasSet] at most; the
    definitions themselves are only read, so a later call on them starts
    with their own [_wasSet] again.  After [--string=a], a second parse of
    [--string=b] on the same definitions stores ["b"], whereas a scan that
    went on with the copies of the first one ([scan_twice]) refuses it. *)
Theorem C9_parseCLI_mutates_only_its_copies :
  (forall indet groups reg,
     build_registry indet groups = Normal reg ->
     allOpts reg = all_options groups)
  /\ (forall indet argv groups w opts' w' out,
        parseCLI_run indet argv groups w = Some (opts', w', out) ->
        (exists e, out = Threw e /\ w' = w)
        \/ Forall2 same_definition (all_options groups) opts')
  /\ (forall indet prog w,
        let w1 := store Main.myStringVar (VString "a") w in
        parseCLI indet [prog; "--string=a"] Main.options w
        = Some (w1, Returned 2)
        /\ parseCLI indet [prog; "--string=b"] Main.options w1
           = Some (store Main.myStringVar (VString "b") w1, Returned 2)
        /\ scan_twice indet [prog; "--string=a"] [prog; "--string=b"]
             Main.options w
           = Some (emit "Option string can only be used once" w1)).
Proof.
  split; [|split].
  - intros indet groups reg Hreg.
    apply build_registry_Normal in Hreg. apply Hreg.
  - intros indet argv groups w opts' w' out. unfold parseCLI_run.
    destruct (build_registry indet groups) as [reg|e] eqn:Hreg.
    + apply build_registry_Normal in Hreg as (Hall & _ & _).
      destruct (scan _ argv reg _ (allOpts reg) w) as [[[d opts1] w1]|]
        eqn:Hscan; [|discriminate].
      intros [= <- <- <-]. right.
      eapply scan_same_definition; [|exact Hscan].
      rewrite Hall. clear. induction (all_options groups); constructor;
        auto using same_definition_refl.
    + intros [= <- <- <-]. left. eauto.
  - intros indet prog w. repeat split; vm_compute; reflexivity.
Qed.

Lemma C9_witness :
  build_registry (fun _ => 0) (string_option RequiredArgument 0%nat None)
  = Normal
      (mkRegistry "+:s:"
         [mkLong (Some "string") 1; mkLong None 0]
         (all_options (string_option RequiredArgument 0%nat None))
         {["string" := 0%nat]} {["s"%char := 0%nat]})
  /\ allOpts
       (mkRegistry "+:s:"
          [mkLong (Some "string") 1; mkLong None 0]
          (all_options (string_option RequiredArgument 0%nat None))
          {["string" := 0%nat]} {["s"%char := 0%nat]})
     = all_options (string_option RequiredArgument 0%nat None).
Proof.
  assert (build_registry (fun _ => 0)
            (string_option RequiredArgument 0%nat None)
          = Normal
              (mkRegistry "+:s:"
                 [mkLong (Some "string") 1; mkLong None 0]
                 (all_options (string_option RequiredArgument 0%nat None))
                 {["string" := 0%nat]} {["s"%char := 0%nat]})) as H
    by (vm_compute; reflexivity).
  split; [exact H|].
  exact (proj1 C9_parseCLI_mutates_only_its_copies _ _ _ H).
Defined.

(** ** The tokenizer: bounds and progress *)

Lemma remaining_lookup argv k a :
  argv !! k = Some a ->
  remaining argv k = (S (String.length a) + remaining argv (S k))%nat.
Proof.
  intros H. unfold remaining.
  rewrite (drop_S _ _ _ H). reflexivity.
Qed.

Lemma remaining_S argv k : (remaining argv (S k) <= remaining argv k)%nat.
Proof.
  destruct (argv !! k) as [a|] eqn:H.
  - rewrite (remaining_lookup _ _ _ H). lia.
  - unfold remaining. apply lookup_ge_None in H.
    rewrite !drop_ge by lia. reflexivity.
Qed.

Lemma remaining_mono argv k k' :
  (k <= k')%nat -> (remaining argv k' <= remaining argv k)%nat.
Proof.
  induction 1 as [|k' _ IH]; [reflexivity|].
  pose proof (remaining_S argv k'). lia.
Qed.

Lemma left_to_scan_advanced argv k k' :
  (k < k')%nat -> (left_to_scan argv k' "" <= remaining argv (S k))%nat.
Proof. intros H. simpl. apply remaining_mono. lia. Qed.

Lemma int_of_char_question : int_of_char "?" = 63.
Proof. reflexivity. Qed.

Lemma missing_code_cases optstring :
  missing_code optstring = 58 \/ missing_code optstring = 63.
Proof.
  unfold missing_code.
  destruct (Ascii.eqb (char_at optstring 0) ":"); [left | right]; reflexivity.
Qed.

(** A long option consumes its element, and the next one when it takes
    it as its argument. *)
Lemma process_long_option_shape argv optstring longopts d c oi d' :
  (optind d < length argv)%nat ->
  process_long_option argv optstring longopts d = (c, oi, d') ->
  nextchar d' = "" /\ (optind d < optind d' <= length argv)%nat /\ c <> -1.
Proof.
  intros Hlt. unfold process_long_option.
  pose proof (missing_code_cases optstring) as Hmiss.
  destruct (split_name (nextchar d)) as [nm attached].
  destruct (lookup_long nm longopts) as [[[option_index pfound]|] [|]];
    try (intros [= <- <- <-]; simpl; rewrite ?int_of_char_question;
         repeat split; lia).
  destruct attached as [a|].
  - destruct (has_arg pfound =? 0); intros [= <- <- <-]; simpl;
      rewrite ?int_of_char_question; repeat split; lia.
  - destruct (has_arg pfound =? 1).
    + destruct (argv !! S (optind d)) as [a|] eqn:Ha; intros [= <- <- <-];
        simpl; [apply lookup_lt_Some in Ha|]; repeat split; lia.
    + intros [= <- <- <-]; simpl; repeat split; lia.
Qed.

(** A short option either stays in its cluster, one character further, or
    leaves it and consumes the element (and its argument).  It returns -1
    for the one character whose code is -1, when that is an option. *)
Lemma short_option_shape argv optstring longopts ch rest d c oi d' :
  (optind d < length argv)%nat ->
  short_option argv optstring longopts ch rest d = (c, oi, d') ->
  ((nextchar d' = rest /\ rest <> "" /\ optind d' = optind d)
   \/ (nextchar d' = "" /\ (optind d < optind d' <= length argv)%nat))
  /\ (c = -1 -> int_of_char ch = -1 /\ is_Some (strchr optstring ch)).
Proof.
  intros Hlt. unfold short_option.
  pose proof (missing_code_cases optstring) as Hmiss.
  assert (forall x : getopt_data,
    nextchar x = rest -> optind x
      = (if String.eqb rest "" then S (optind d) else optind d) ->
    (nextchar x = rest /\ rest <> "" /\ optind x = optind d)
    \/ (nextchar x = "" /\ (optind d < optind x <= length argv)%nat)) as Hkeep.
  { intros x Hn Ho. destruct (String.eqb_spec rest "") as [-> | Hne].
    - right. split; [assumption | lia].
    - left. auto. }
  destruct (strchr optstring ch) as [temp|] eqn:Htemp.
  2: { intros [= <- <- <-]. split; [apply Hkeep; reflexivity|].
       rewrite int_of_char_question. lia. }
  destruct (Ascii.eqb ch ":" || Ascii.eqb ch ";").
  { intros [= <- <- <-]. split; [apply Hkeep; reflexivity|].
    rewrite int_of_char_question. lia. }
  destruct (Ascii.eqb (char_at temp 0) "W" && Ascii.eqb (char_at temp 1) ";").
  { destruct (String.eqb_spec rest "") as [-> | Hne]; simpl.
    - destruct (argv !! S (optind d)) as [a|] eqn:Ha.
      + intros Hlong. apply lookup_lt_Some in Ha.
        apply process_long_option_shape in Hlong as (Hn & Ho & Hc);
          simpl in *; [|lia].
        split; [right; split; [assumption | lia] | contradiction].
      + intros [= <- <- <-]. simpl. split; [right; split; [reflexivity | lia]|].
        lia.
    - intros Hlong.
      apply process_long_option_shape in Hlong as (Hn & Ho & Hc);
        simpl in *; [|lia].
      split; [right; split; [assumption | lia] | contradiction]. }
  destruct (Ascii.eqb (char_at temp 1) ":").
  - destruct (Ascii.eqb (char_at temp 2) ":").
    + destruct (String.eqb_spec rest "") as [-> | Hne]; simpl;
        intros [= <- <- <-]; simpl;
        (split; [right; split; [reflexivity | lia] | eauto]).
    + destruct (String.eqb_spec rest "") as [-> | Hne]; simpl.
      * destruct (argv !! S (optind d)) as [a|] eqn:Ha;
          intros [= <- <- <-]; simpl; [apply lookup_lt_Some in Ha|];
          (split; [right; split; [reflexivity | lia] | first [lia | eauto]]).
      * intros [= <- <- <-]; simpl.
        split; [right; split; [reflexivity | lia] | eauto].
  - intros [= <- <- <-]. split; [apply Hkeep; reflexivity | eauto].
Qed.

Lemma string_drop_1_cons arg ch rest :
  string_drop 1 arg = String ch rest ->
  String.length arg = S (S (String.length rest)).
Proof.
  destruct arg as [|a arg]; simpl; [discriminate|]. intros ->. reflexivity.
Qed.

Lemma left_to_scan_cons argv k ch rest :
  left_to_scan argv k (String ch rest)
  = (S (String.length rest) + remaining argv (S k))%nat.
Proof. reflexivity. Qed.

Lemma left_to_scan_rest argv k rest :
  (left_to_scan argv k rest <= String.length rest + remaining argv k)%nat.
Proof.
  destruct rest; simpl; [lia|]. pose proof (remaining_S argv k). lia.
Qed.

(** One call from a position inside [argv]: the position stays inside
    and does not go back; a call that finds an option leaves less to
    scan; a call that finds none stops for one of the reasons of
    [stop]. *)
Lemma next_option_step argv optstring longopts d c oi d' :
  (optind d <= length argv)%nat ->
  (nextchar d <> "" -> (optind d < length argv)%nat) ->
  next_option argv optstring longopts d = (c, oi, d') ->
  (optind d <= optind d' <= length argv)%nat
  /\ (nextchar d' <> "" -> (optind d' < length argv)%nat)
  /\ (c <> -1 ->
      (left_to_scan argv (optind d') (nextchar d')
       < left_to_scan argv (optind d) (nextchar d))%nat)
  /\ (c = -1 -> stop argv optstring d d').
Proof.
  intros Hle Hin. unfold next_option.
  destruct (nextchar d) as [|ch rest] eqn:Hnext.
  - destruct (argv !! optind d) as [arg|] eqn:Harg.
    2: { intros [= <- <- <-]. rewrite Hnext.
         repeat split; try lia; try congruence.
         intros _. apply stop_at_end; auto. }
    pose proof (lookup_lt_Some _ _ _ Harg) as Hlt.
    destruct (String.eqb_spec arg "--") as [-> | Hdash].
    { intros [= <- <- <-]. simpl.
      repeat split; try lia; try congruence.
      intros _. apply stop_after_dashes; auto. }
    destruct (NONOPTION_P arg) eqn:Hnon.
    { intros [= <- <- <-]. rewrite Hnext.
      repeat split; try lia; try congruence.
      intros _. eapply stop_at_nonoption; eauto. }
    destruct (Ascii.eqb (char_at arg 1) "-").
    { intros Hlong.
      apply process_long_option_shape in Hlong as (Hn & Ho & Hc);
        simpl in *; [|lia].
      rewrite Hn. repeat split; try lia; try congruence.
      intros _. simpl. rewrite (remaining_lookup _ _ _ Harg).
      pose proof (remaining_mono argv (S (optind d)) (optind d')). lia. }
    destruct (string_drop 1 arg) as [|ch rest] eqn:Hdrop.
    { (* not reached: an option element has a character after the dash *)
      exfalso. unfold NONOPTION_P, char_at in Hnon.
      destruct arg as [|a [|b arg]]; simpl in *; try discriminate.
      destruct (Ascii.eqb a "-"); discriminate. }
    intros Hshort. apply string_drop_1_cons in Hdrop.
    apply short_option_shape in Hshort as [Hshape Hc]; [|lia].
    simpl left_to_scan at 2. rewrite (remaining_lookup _ _ _ Harg), Hdrop.
    destruct Hshape as [(Hn & Hne & Ho) | (Hn & Ho)]; rewrite Hn, ?Ho.
    + repeat split; try lia.
      * intros _. pose proof (left_to_scan_rest argv (optind d) rest).
        pose proof (remaining_S argv (optind d)).
        destruct rest; [congruence|]. simpl in *. lia.
      * intros Hm. destruct (Hc Hm). eapply stop_on_char_255; eauto.
    + repeat split; try lia; try congruence.
      * intros _. simpl.
        pose proof (remaining_mono argv (S (optind d)) (optind d')). lia.
      * intros Hm. destruct (Hc Hm). eapply stop_on_char_255; eauto.
  - specialize (Hin ltac:(discriminate)).
    intros Hshort.
    apply short_option_shape in Hshort as [Hshape Hc]; [|lia].
    rewrite left_to_scan_cons.
    destruct Hshape as [(Hn & Hne & Ho) | (Hn & Ho)]; rewrite Hn, ?Ho.
    + repeat split; try lia.
      * intros _. destruct rest; [congruence|]. simpl. lia.
      * intros Hm. destruct (Hc Hm). eapply stop_on_char_255; eauto.
    + repeat split; try lia; try congruence.
      * intros _. simpl.
        pose proof (remaining_mono argv (S (optind d)) (optind d')). lia.
      * intros Hm. destruct (Hc Hm). eapply stop_on_char_255; eauto.
Qed.

Lemma getopt_enter_positive d : (1 <= optind (getopt_enter d))%nat.
Proof.
  unfold getopt_enter. destruct (Nat.eqb_spec (optind d) 0); simpl; lia.
Qed.

Lemma getopt_enter_stable d :
  optind d <> 0%nat ->
  optind (getopt_enter d) = optind d /\ nextchar (getopt_enter d) = nextchar d.
Proof.
  intros H. unfold getopt_enter.
  destruct (Nat.eqb_spec (optind d) 0); [contradiction|]. auto.
Qed.

(** The same for [getopt_long] on a non-empty [argv]. *)
Lemma getopt_long_step argv shortopts longopts d c oi d' :
  argv <> [] -> in_bounds argv d ->
  getopt_long argv shortopts longopts d = (c, oi, d') ->
  in_bounds argv d' /\ optind d' <> 0%nat
  /\ (optind (getopt_enter d) <= optind d')%nat
  /\ (c <> -1 -> (unscanned argv d' < unscanned argv d)%nat)
  /\ (c = -1 -> stop argv (string_drop 1 shortopts) (getopt_enter d) d').
Proof.
  intros Hne [Hle Hin]. unfold getopt_long.
  destruct argv as [|a0 argv]; [contradiction|]. simpl length. simpl Nat.ltb.
  intros Hnext.
  apply next_option_step in Hnext as (Ho & Hin' & Hdec & Hstop);
    [|assumption|assumption].
  pose proof (getopt_enter_positive d) as Hpos.
  assert (optind d' <> 0%nat) as Hnz by lia.
  destruct (getopt_enter_stable d' Hnz) as [Ho' Hn'].
  unfold in_bounds, unscanned. rewrite Ho', Hn'.
  repeat split; try assumption; try lia.
Qed.

(** ** parseCLI returns *)

Lemma scan_total fuel argv reg d opts w :
  argv <> [] -> in_bounds argv d -> (unscanned argv d < fuel)%nat ->
  is_Some (scan fuel argv reg d opts w).
Proof.
  intros Hne. revert d opts w.
  induction fuel as [|fuel IH]; intros d opts w Hb Hlt; [lia|]. simpl.
  destruct (getopt_long argv (shortopts reg) (longopts reg) d)
    as [[optc option_index] d1] eqn:Hget.
  apply getopt_long_step in Hget as (Hb1 & _ & _ & Hdec & _);
    [|assumption|assumption].
  destruct (Z.eqb_spec optc (-1)) as [-> | Hc]; [eauto|].
  destruct (dispatch argv (shortOptIndex reg) optc option_index d1 opts w)
    as [opts1 w1].
  apply IH; [assumption|]. specialize (Hdec Hc). lia.
Qed.

Lemma scan_empty_argv fuel reg d opts w :
  scan (S fuel) [] reg d opts w = Some (d, opts, w).
Proof. reflexivity. Qed.

Lemma in_bounds_start argv :
  argv <> [] -> in_bounds argv (mkGetopt 0 "" None 0).
Proof.
  intros Hne. destruct argv; [contradiction|].
  split; simpl; [lia | congruence].
Qed.

Lemma scan_from_start_total argv reg opts w :
  is_Some (scan (enough_fuel argv) argv reg (mkGetopt 0 "" None 0) opts w).
Proof.
  destruct (decide (argv = [])) as [-> | Hne].
  - simpl. eauto.
  - apply scan_total; [assumption | apply in_bounds_start; assumption |].
    unfold enough_fuel, unscanned. simpl. lia.
Qed.

(** [parseCLI] always ends: it throws or it returns. *)
Lemma parseCLI_total indet argv groups w :
  is_Some (parseCLI indet argv groups w).
Proof.
  unfold parseCLI, parseCLI_run.
  destruct (build_registry indet groups) as [reg|e]; [|eauto].
  destruct (scan_from_start_total argv reg (allOpts reg) w) as [[[d o] w'] ->].
  eauto.
Qed.

(** ** Where the scan ends *)

Lemma register_groups_ind indet (P : Registry -> Prop) :
  (forall o r r', P r -> register indet o r = Normal r' -> P r') ->
  forall groups r r',
    P r -> register_groups indet groups r = Normal r' -> P r'.
Proof.
  intros Hstep.
  assert (forall l r r', P r -> register_options indet l r = Normal r' -> P r')
    as Hopts.
  { induction l as [|o l IH]; intros r r' HP; simpl.
    - intros [= <-]. exact HP.
    - destruct (register indet o r) as [r1|e] eqn:Hreg; [|discriminate].
      simpl. apply IH. eapply Hstep; eassumption. }
  induction groups as [|g groups IH]; intros r r' HP; simpl.
  - intros [= <-]. exact HP.
  - destruct (register_options indet (options g) r) as [r1|e] eqn:Hreg;
      [|discriminate].
    simpl. apply IH. eapply Hopts; eassumption.
Qed.

Lemma strchr_app s t ch :
  is_Some (strchr (s ++ t) ch) ->
  is_Some (strchr s ch) \/ is_Some (strchr t ch).
Proof.
  induction s as [|a s IH]; simpl; [auto|].
  destruct (Ascii.eqb a ch); [eauto | exact IH].
Qed.

Lemma strchr_drop n s ch :
  is_Some (strchr (string_drop n s) ch) -> is_Some (strchr s ch).
Proof.
  revert s. induction n as [|n IH]; intros s; simpl; [auto|].
  destruct s as [|a s]; [auto|]. simpl. intros H.
  destruct (Ascii.eqb a ch); [eauto | auto].
Qed.

Lemma strchr_singleton a ch : is_Some (strchr (String a "") ch) -> ch = a.
Proof.
  simpl. destruct (Ascii.eqb_spec a ch); [auto | intros [? ?]; discriminate].
Qed.

Lemma strchr_colons s ch :
  s = ":" \/ s = "::" -> is_Some (strchr s ch) -> ch = ":"%char.
Proof.
  destruct (Ascii.eqb_spec ":" ch) as [<- | Hne]; [reflexivity|].
  apply Ascii.eqb_neq in Hne.
  intros [-> | ->]; cbn [strchr]; rewrite !Hne; intros [? ?]; discriminate.
Qed.

Lemma appendToOptString_chars o s ch :
  is_Some (strchr (appendToOptString o s) ch) ->
  is_Some (strchr s ch) \/ ch = ":"%char
  \/ (ch = shortName o /\ shortName o <> zero).
Proof.
  unfold appendToOptString.
  destruct (Ascii.eqb_spec (shortName o) zero) as [|Hnz]; [auto|].
  assert (is_Some (strchr (s ++ String (shortName o) "") ch) ->
          is_Some (strchr s ch) \/ ch = ":"%char
          \/ (ch = shortName o /\ shortName o <> zero)) as Hbase.
  { intros H. apply strchr_app in H as [H | H]; [auto|].
    apply strchr_singleton in H. auto. }
  destruct (Z.land (flags o) ArgumentTypeMask =? RequiredArgument);
    [|destruct (Z.land (flags o) ArgumentTypeMask =? OptionalArgument)];
    [| |exact Hbase];
    intros H; apply strchr_app in H as [H | H]; auto;
    right; left;
    first [ exact (strchr_colons ":" ch (or_introl eq_refl) H)
          | exact (strchr_colons "::" ch (or_intror eq_refl) H) ].
Qed.

(** The option string holds the leading ["+:"], colons, and the short
    names of the options. *)
Lemma build_registry_optstring indet groups reg ch :
  build_registry indet groups = Normal reg ->
  is_Some (strchr (shortopts reg) ch) ->
  ch = "+"%char \/ ch = ":"%char
  \/ exists o, o ∈ all_options groups /\ shortName o = ch /\ ch <> zero.
Proof.
  intros Hbuild. pose proof Hbuild as Hall.
  apply build_registry_Normal in Hall as (Hall & _ & _).
  unfold build_registry in Hbuild.
  destruct (register_groups indet groups empty_registry) as [r|e] eqn:Hreg;
    [|discriminate].
  simpl in Hbuild. injection Hbuild as <-. simpl in *. rewrite <- Hall.
  revert ch.
  apply (register_groups_ind indet
           (fun r => forall ch, is_Some (strchr (shortopts r) ch) ->
              ch = "+"%char \/ ch = ":"%char
              \/ exists o, o ∈ allOpts r /\ shortName o = ch /\ ch <> zero))
    with (groups := groups) (r := empty_registry); [| |exact Hreg].
  - intros o r0 r1 IH Hstep ch Hch.
    apply register_inv in Hstep as (_ & Hopts & _ & Hshort).
    rewrite Hopts.
    destruct (Ascii.eqb (shortName o) zero).
    + destruct Hshort as [_ Hs]. rewrite Hs in Hch.
      destruct (IH ch Hch) as [? | [? | (o' & Hin & ? & ?)]]; auto.
      right; right. exists o'. rewrite elem_of_app. auto.
    + destruct Hshort as (_ & _ & Hs). rewrite Hs in Hch.
      apply appendToOptString_chars in Hch as [Hch | [? | [-> Hnz]]]; auto.
      * destruct (IH ch Hch) as [? | [? | (o' & Hin & ? & ?)]]; auto.
        right; right. exists o'. rewrite elem_of_app. auto.
      * right; right. exists o. rewrite elem_of_app, list_elem_of_singleton.
        auto.
  - intros ch. change (shortopts empty_registry) with "+:".
    cbn [strchr].
    destruct (Ascii.eqb_spec "+" ch) as [|_]; [auto|].
    destruct (Ascii.eqb_spec ":" ch) as [|_]; [auto|].
    intros [? ?]; discriminate.
Qed.

Lemma int_of_char_minus_1 ch : int_of_char ch = -1 -> ch = "255"%char.
Proof.
  destruct ch as [[] [] [] [] [] [] [] []]; intros H; vm_compute in H;
    first [discriminate | reflexivity].
Qed.

(** The scan from a position inside [argv] ends inside [argv], not
    before the position, for one of the reasons of [stop]. *)
Lemma scan_end fuel argv reg d opts w d' opts' w' :
  argv <> [] -> in_bounds argv d ->
  scan fuel argv reg d opts w = Some (d', opts', w') ->
  in_bounds argv d' /\ optind d' <> 0%nat
  /\ (optind (getopt_enter d) <= optind d')%nat
  /\ exists d0, stop argv (string_drop 1 (shortopts reg)) d0 d'.
Proof.
  intros Hne. revert d opts w.
  induction fuel as [|fuel IH]; intros d opts w Hb; simpl; [discriminate|].
  destruct (getopt_long argv (shortopts reg) (longopts reg) d)
    as [[optc option_index] d1] eqn:Hget.
  apply getopt_long_step in Hget as (Hb1 & Hnz & Hmono & _ & Hstop);
    [|assumption|assumption].
  destruct (Z.eqb_spec optc (-1)) as [-> | Hc].
  - intros [= <- <- <-]. eauto 6.
  - destruct (dispatch argv (shortOptIndex reg) optc option_index d1 opts w)
      as [opts1 w1].
    intros Hscan. apply IH in Hscan as (Hb' & Hnz' & Hmono' & Hstop');
      [|assumption].
    destruct (getopt_enter_stable d1 Hnz) as [Ho _].
    repeat split; try apply Hb'; try assumption. lia.
Qed.

Lemma stop_end_of_options argv optstring d d' :
  in_bounds argv d' -> optind d' <> 0%nat ->
  (forall ch, int_of_char ch = -1 -> strchr optstring ch = None) ->
  stop argv optstring d d' ->
  end_of_options argv (optind d').
Proof.
  intros [Hle _] Hnz H255 Hstop.
  destruct (getopt_enter_stable d' Hnz) as [Ho _]. rewrite Ho in Hle.
  destruct Hstop as [Hn Harg Heq | Hn Harg Heq | a Hn Harg Hnon Heq
                    | ch Hch Hin].
  - left. rewrite <- Heq in Harg. apply lookup_ge_None in Harg. lia.
  - right; right. rewrite Heq. simpl. rewrite Nat.sub_0_r. split; [lia | auto].
  - right; left. rewrite Heq. eauto.
  - rewrite (H255 ch Hch) in Hin. destruct Hin; discriminate.
Qed.

(** ** What the scan reads of argv *)

(** A call reads no element of [argv] beyond the position it ends at:
    on an [argv'] that agrees with [argv] up to there it does the same. *)
Lemma process_long_option_local argv argv' optstring longopts d c oi d' :
  process_long_option argv optstring longopts d = (c, oi, d') ->
  (forall i, (i <= optind d')%nat -> argv' !! i = argv !! i) ->
  process_long_option argv' optstring longopts d = (c, oi, d').
Proof.
  unfold process_long_option.
  destruct (split_name (nextchar d)) as [nm attached].
  destruct (lookup_long nm longopts) as [[[option_index pfound]|] [|]];
    try (intros H _; exact H).
  destruct attached as [a|]; [intros H _; exact H|].
  destruct (has_arg pfound =? 1); [|intros H _; exact H].
  destruct (argv !! S (optind d)) as [a|] eqn:Ha; intros [= <- <- <-] Hag;
    simpl in Hag; rewrite Hag, Ha by lia; reflexivity.
Qed.

Lemma short_option_local argv argv' optstring longopts ch rest d c oi d' :
  short_option argv optstring longopts ch rest d = (c, oi, d') ->
  (forall i, (i <= optind d')%nat -> argv' !! i = argv !! i) ->
  short_option argv' optstring longopts ch rest d = (c, oi, d').
Proof.
  unfold short_option.
  destruct (strchr optstring ch) as [temp|]; [|intros H _; exact H].
  destruct (Ascii.eqb ch ":" || Ascii.eqb ch ";"); [intros H _; exact H|].
  destruct (Ascii.eqb (char_at temp 0) "W" && Ascii.eqb (char_at temp 1) ";").
  { destruct (String.eqb rest ""); simpl.
    - destruct (argv !! S (optind d)) as [a|] eqn:Ha.
      + intros Hlong Hag.
        pose proof (lookup_lt_Some _ _ _ Ha) as Hlt.
        pose proof (process_long_option_shape argv optstring longopts
                      (mkGetopt (S (optind d)) a None (optopt d)) c oi d'
                      Hlt Hlong) as (_ & Ho & _).
        simpl in Ho. rewrite Hag, Ha by lia.
        eapply process_long_option_local; eassumption.
      + intros [= <- <- <-] Hag. simpl in Hag. rewrite Hag, Ha by lia.
        reflexivity.
    - apply process_long_option_local. }
  destruct (Ascii.eqb (char_at temp 1) ":"); [|intros H _; exact H].
  destruct (Ascii.eqb (char_at temp 2) ":"); [intros H _; exact H|].
  destruct (String.eqb rest ""); simpl; [|intros H _; exact H].
  destruct (argv !! S (optind d)) as [a|] eqn:Ha; intros [= <- <- <-] Hag;
    simpl in Hag; rewrite Hag, Ha by lia; reflexivity.
Qed.

Lemma next_option_local argv argv' optstring longopts d c oi d' :
  (optind d <= length argv)%nat ->
  (nextchar d <> "" -> (optind d < length argv)%nat) ->
  next_option argv optstring longopts d = (c, oi, d') ->
  (forall i, (i <= optind d')%nat -> argv' !! i = argv !! i) ->
  next_option argv' optstring longopts d = (c, oi, d').
Proof.
  intros Hle Hin Hnext Hag.
  pose proof (next_option_step _ _ _ _ _ _ _ Hle Hin Hnext) as ([Hmono _] & _).
  revert Hnext. unfold next_option.
  destruct (nextchar d) as [|ch rest].
  - rewrite (Hag (optind d) Hmono).
    destruct (argv !! optind d) as [arg|]; [|auto].
    destruct (String.eqb arg "--"); [auto|].
    destruct (NONOPTION_P arg); [auto|].
    destruct (Ascii.eqb (char_at arg 1) "-").
    + intros H. eapply process_long_option_local; eassumption.
    + destruct (string_drop 1 arg); [auto|].
      intros H. eapply short_option_local; eassumption.
  - intros H. eapply short_option_local; eassumption.
Qed.

Lemma getopt_long_local argv argv' shortopts longopts d c oi d' :
  argv <> [] -> in_bounds argv d ->
  getopt_long argv shortopts longopts d = (c, oi, d') ->
  (forall i, (i <= optind d')%nat -> argv' !! i = argv !! i) ->
  getopt_long argv' shortopts longopts d = (c, oi, d').
Proof.
  intros Hne [Hle Hin] Hget Hag.
  assert (argv' <> []) as Hne'.
  { intros ->. specialize (Hag 0%nat ltac:(lia)).
    destruct argv; [contradiction | discriminate]. }
  revert Hget. unfold getopt_long.
  destruct argv as [|a0 argv]; [contradiction|].
  destruct argv' as [|a0' argv']; [contradiction|].
  simpl length. simpl Nat.ltb.
  intros H. eapply next_option_local; eassumption.
Qed.

Lemma dispatch_local argv argv' shortIdx optc option_index d opts w :
  (forall i, (i <= optind d)%nat -> argv' !! i = argv !! i) ->
  dispatch argv' shortIdx optc option_index d opts w
  = dispatch argv shortIdx optc option_index d opts w.
Proof.
  intros Hag. unfold dispatch, arg_at. rewrite Hag by lia. reflexivity.
Qed.

Lemma scan_local argv argv' fuel reg d opts w d' opts' w' :
  argv <> [] -> in_bounds argv d ->
  scan fuel argv reg d opts w = Some (d', opts', w') ->
  (forall i, (i <= optind d')%nat -> argv' !! i = argv !! i) ->
  scan fuel argv' reg d opts w = Some (d', opts', w').
Proof.
  intros Hne. revert d opts w.
  induction fuel as [|fuel IH]; intros d opts w Hb; simpl; [discriminate|].
  destruct (getopt_long argv (shortopts reg) (longopts reg) d)
    as [[optc option_index] d1] eqn:Hget.
  pose proof (getopt_long_step _ _ _ _ _ _ _ Hne Hb Hget)
    as (Hb1 & Hnz & _ & _ & _).
  destruct (getopt_enter_stable d1 Hnz) as [Ho1 _].
  destruct (Z.eqb_spec optc (-1)) as [-> | Hc].
  - intros [= <- <- <-] Hag.
    rewrite (getopt_long_local _ _ _ _ _ _ _ _ Hne Hb Hget Hag). reflexivity.
  - destruct (dispatch argv (shortOptIndex reg) optc option_index d1 opts w)
      as [opts1 w1] eqn:Hdisp.
    intros Hscan Hag.
    pose proof (scan_end _ _ _ _ _ _ _ _ _ Hne Hb1 Hscan)
      as (_ & _ & Hmono & _).
    assert (forall i, (i <= optind d1)%nat -> argv' !! i = argv !! i) as Hag1
      by (intros i Hi; apply Hag; lia).
    rewrite (getopt_long_local _ _ _ _ _ _ _ _ Hne Hb Hget Hag1).
    destruct (Z.eqb_spec optc (-1)); [contradiction|].
    rewrite (dispatch_local _ _ _ _ _ _ _ _ Hag1), Hdisp.
    apply IH; assumption.
Qed.

(** The result of a scan does not depend on the fuel it is given. *)
Lemma scan_fuel fuel1 fuel2 argv reg d opts w r1 r2 :
  scan fuel1 argv reg d opts w = Some r1 ->
  scan fuel2 argv reg d opts w = Some r2 ->
  r1 = r2.
Proof.
  revert fuel2 d opts w.
  induction fuel1 as [|fuel1 IH]; intros [|fuel2] d opts w; simpl;
    try discriminate.
  destruct (getopt_long argv (shortopts reg) (longopts reg) d)
    as [[optc option_index] d1].
  destruct (optc =? -1); [congruence|].
  destruct (dispatch argv (shortOptIndex reg) optc option_index d1 opts w).
  apply IH.
Qed.

(** ** The first non-option ends the scan *)

Lemma scan_stops_at_nonoption fuel argv reg d opts w a :
  optind d <> 0%nat -> nextchar d = "" ->
  argv !! optind d = Some a -> NONOPTION_P a = true ->
  scan (S fuel) argv reg d opts w
  = Some (mkGetopt (optind d) "" None (optopt d), opts, w).
Proof.
  intros Hnz Hnext Harg Hnon. simpl. unfold getopt_long.
  destruct argv as [|a0 argv]; [discriminate|]. simpl length. simpl Nat.ltb.
  cbv iota.
  assert (getopt_enter d = mkGetopt (optind d) "" None (optopt d)) as ->.
  { unfold getopt_enter. destruct (Nat.eqb_spec (optind d) 0);
      [contradiction|]. rewrite Hnext. reflexivity. }
  unfold next_option. simpl nextchar. simpl optind. rewrite Harg.
  destruct (String.eqb_spec a "--") as [-> | _]; [discriminate|].
  rewrite Hnon. reflexivity.
Qed.

Lemma scan_stops_at_end fuel argv reg d opts w :
  optind d <> 0%nat -> nextchar d = "" -> argv !! optind d = None ->
  exists d', scan (S fuel) argv reg d opts w = Some (d', opts, w)
             /\ optind d' = optind d.
Proof.
  intros Hnz Hnext Harg. simpl. unfold getopt_long.
  destruct (length argv <? 1)%nat; [eauto|].
  assert (getopt_enter d = mkGetopt (optind d) "" None (optopt d)) as ->.
  { unfold getopt_enter. destruct (Nat.eqb_spec (optind d) 0);
      [contradiction|]. rewrite Hnext. reflexivity. }
  unfold next_option. simpl nextchar. simpl optind. rewrite Harg. simpl.
  eauto.
Qed.

Lemma parseCLI_Returned indet argv groups w w' r :
  parseCLI indet argv groups w = Some (w', Returned r) ->
  exists reg d opts,
    build_registry indet groups = Normal reg
    /\ scan (enough_fuel argv) argv reg (mkGetopt 0 "" None 0) (allOpts reg) w
       = Some (d, opts, w')
    /\ r = Z.of_nat (optind d).
Proof.
  unfold parseCLI, parseCLI_run.
  destruct (build_registry indet groups) as [reg|e]; [|discriminate].
  destruct (scan _ argv reg _ (allOpts reg) w) as [[[d opts] w1]|] eqn:Hscan;
    [|discriminate].
  intros [= <- <-]. eauto 7.
Qed.

Lemma no_char_255_optstring indet groups reg :
  build_registry indet groups = Normal reg ->
  no_char_255 (all_options groups) ->
  forall ch, int_of_char ch = -1 ->
             strchr (string_drop 1 (shortopts reg)) ch = None.
Proof.
  intros Hbuild Hno ch Hch. apply int_of_char_minus_1 in Hch. subst ch.
  destruct (strchr (string_drop 1 (shortopts reg)) "255") as [t|] eqn:Ht;
    [|reflexivity].
  exfalso.
  assert (is_Some (strchr (shortopts reg) "255")) as Hin
    by (eapply strchr_drop; rewrite Ht; eauto).
  eapply build_registry_optstring in Hin as [? | [? | (o & Ho & Hs & _)]];
    [discriminate | discriminate | | exact Hbuild].
  exact (Hno o Ho Hs).
Qed.

(** C1: [parseCLI] scans in order and stops at the first element that is
    not an option.  (1) When the scan, between two elements, is at an
    element that does not start with a dash followed by a character, the
    loop ends there: the index of that element is what is returned and
    neither the options nor the caller's memory change.  (2) Provided
    that no option has the character 255 as its short name, the index
    returned is the end of [argv], or the index of such an element, or
    the index behind the element [--].  (3) Nothing behind that index is
    read: an [argv] equal up to and including that index gives the same
    result.  (4) Parsing [-i 3 positional -b] returns the index of
    [positional], stores 3 and leaves everything else, the boolean target
    too, as it was; with nothing but options the index is [argc]. *)
Theorem C1_scanning_stops_at_first_nonoption :
  (forall fuel argv reg d opts w a,
     optind d <> 0%nat -> nextchar d = "" ->
     argv !! optind d = Some a -> NONOPTION_P a = true ->
     scan (S fuel) argv reg d opts w
     = Some (mkGetopt (optind d) "" None (optopt d), opts, w))
  /\ (forall indet argv groups w w' r,
        no_char_255 (all_options groups) ->
        parseCLI indet argv groups w = Some (w', Returned r) ->
        exists k, r = Z.of_nat k /\ (k <= length argv)%nat
                  /\ end_of_options argv k)
  /\ (forall indet argv argv' groups w w' k,
        parseCLI indet argv groups w = Some (w', Returned (Z.of_nat k)) ->
        take (S k) argv' = take (S k) argv ->
        parseCLI indet argv' groups w = Some (w', Returned (Z.of_nat k)))
  /\ (forall indet prog w,
        parseCLI indet [prog; "-i"; "3"; "positional"; "-b"] Main.options w
        = Some (store Main.myInt (VInt 3) w, Returned 3)
        /\ parseCLI indet [prog; "-b"; "-i"; "3"] Main.options w
           = Some (store Main.myInt (VInt 3)
                     (store Main.myFlag (VBool true) w), Returned 4)).
Proof.
  split; [|split; [|split]].
  - exact scan_stops_at_nonoption.
  - intros indet argv groups w w' r Hno Hparse.
    apply parseCLI_Returned in Hparse as (reg & d & opts & Hbuild & Hscan & ->).
    exists (optind d). split; [reflexivity|].
    destruct (decide (argv = [])) as [-> | Hne].
    + simpl in Hscan. injection Hscan as <- _ _. simpl.
      split; [lia | left; reflexivity].
    + apply scan_end in Hscan as (Hb & Hnz & _ & d0 & Hstop);
        [|assumption | apply in_bounds_start; assumption].
      split.
      * destruct Hb as [Hle _].
        destruct (getopt_enter_stable d Hnz) as [Ho _]. lia.
      * eapply stop_end_of_options; eauto.
        eapply no_char_255_optstring; eassumption.
  - intros indet argv argv' groups w w' k Hparse Htake.
    apply parseCLI_Returned in Hparse as (reg & d & opts & Hbuild & Hscan & Hk).
    apply Nat2Z.inj in Hk. subst k.
    unfold parseCLI, parseCLI_run. rewrite Hbuild.
    destruct (decide (argv = [])) as [-> | Hne].
    + destruct argv' as [|a0' argv']; [|discriminate].
      rewrite Hscan. reflexivity.
    + assert (forall i, (i <= optind d)%nat -> argv' !! i = argv !! i) as Hag.
      { intros i Hi.
        rewrite <- (lookup_take_lt argv' (S (optind d)) i) by lia.
        rewrite <- (lookup_take_lt argv (S (optind d)) i) by lia.
        rewrite Htake. reflexivity. }
      pose proof (scan_local _ argv' _ _ _ _ _ _ _ _ Hne
                    (in_bounds_start _ Hne) Hscan Hag) as Hscan'.
      destruct (scan_from_start_total argv' reg (allOpts reg) w) as [r' Hr'].
      rewrite Hr'.
      rewrite <- (scan_fuel _ _ _ _ _ _ _ _ _ Hscan' Hr'). reflexivity.
  - intros. split; vm_compute; reflexivity.
Qed.

Lemma no_char_255_checked all :
  forallb (fun o => negb (Ascii.eqb (shortName o) "255")) all = true ->
  no_char_255 all.
Proof.
  intros H o Ho Heq.
  apply list_elem_of_In in Ho.
  pose proof (proj1 (forallb_forall _ _) H o Ho) as Hb.
  cbv beta in Hb. rewrite Heq in Hb. discriminate.
Qed.

Lemma C1_witness :
  parseCLI (fun _ => 0) ["prog"; "-i"; "3"; "positional"; "-b"] Main.options
    Main.initial_world
  = Some (store Main.myInt (VInt 3) Main.initial_world, Returned (Z.of_nat 3))
  /\ no_char_255 (all_options Main.options)
  /\ (exists k,
        Z.of_nat 3 = Z.of_nat k /\ (k <= 5)%nat
        /\ end_of_options ["prog"; "-i"; "3"; "positional"; "-b"] k)
  /\ take 4 ["prog"; "-i"; "3"; "positional"; "--bool"; "--string=x"]
     = take 4 ["prog"; "-i"; "3"; "positional"; "-b"]
  /\ parseCLI (fun _ => 0)
       ["prog"; "-i"; "3"; "positional"; "--bool"; "--string=x"] Main.options
       Main.initial_world
     = Some (store Main.myInt (VInt 3) Main.initial_world,
             Returned (Z.of_nat 3)).
Proof.
  assert (parseCLI (fun _ => 0) ["prog"; "-i"; "3"; "positional"; "-b"]
            Main.options Main.initial_world
          = Some (store Main.myInt (VInt 3) Main.initial_world,
                  Returned (Z.of_nat 3))) as H
    by (vm_compute; reflexivity).
  assert (no_char_255 (all_options Main.options)) as Hno
    by (apply no_char_255_checked; vm_compute; reflexivity).
  split; [exact H|]. split; [exact Hno|]. split.
  - exact (proj1 (proj2 C1_scanning_stops_at_first_nonoption)
             (fun _ => 0) ["prog"; "-i"; "3"; "positional"; "-b"]
             Main.options Main.initial_world
             (store Main.myInt (VInt 3) Main.initial_world) (Z.of_nat 3)
             Hno H).
  - split; [reflexivity|].
    exact (proj1 (proj2 (proj2 C1_scanning_stops_at_first_nonoption))
             (fun _ => 0) ["prog"; "-i"; "3"; "positional"; "-b"]
             ["prog"; "-i"; "3"; "positional"; "--bool"; "--string=x"]
             Main.options Main.initial_world
             (store Main.myInt (VInt 3) Main.initial_world) 3%nat H eq_refl).
Defined.

(** The scan does not always go on to the first element that is not an
    option.  Here both [-\255] and [-b] are declared; [getopt_long]
    returns the character 255 as the [int] -1, which [parseCLI] takes for
    the end of the options: it returns 2, the index of [-b], an option it
    recognises (alone it is parsed and sets its target), and leaves both
    targets as they were. *)
Lemma C1_counterexample :
  let argv := ["prog"; String "-" (String "255" ""); "-b"] in
  let w :=
    mkWorld (<[0%nat := VBool false]> (<[1%nat := VBool false]> ∅)) [] in
  parseCLI (fun _ => 0) argv (char_255_first 0%nat 1%nat) w
  = Some (w, Returned 2)
  /\ argv !! 2%nat = Some "-b"
  /\ NONOPTION_P "-b" = false
  /\ ~ end_of_options argv 2
  /\ parseCLI (fun _ => 0) ["prog"; "-b"] (char_255_first 0%nat 1%nat) w
     = Some (store 1%nat (VBool true) w, Returned 2).
Proof.
  cbv zeta. split; [vm_compute; reflexivity|].
  split; [reflexivity|]. split; [reflexivity|]. split.
  - intros [H | [(a & Ha & Hn) | (_ & H)]].
    + discriminate.
    + injection Ha as <-. discriminate.
    + discriminate.
  - vm_compute. reflexivity.
Qed.

(** ** The same definitions bound to other targets *)

Lemma bound_false addr s : bound addr false s = bind_option addr s.
Proof. unfold bound, bind_option. destruct (spec_value s); reflexivity. Qed.

Section Rebinding.

Variables addr1 addr2 : nat -> loc.
Hypothesis addr1_inj : Inj (=) (=) addr1.
Hypothesis addr2_inj : Inj (=) (=) addr2.

Lemma same_targets_store t x w1 w2 :
  same_targets addr1 addr2 w1 w2 ->
  same_targets addr1 addr2 (store (addr1 t) x w1) (store (addr2 t) x w2).
Proof.
  intros [Hcerr Hvars]. split; [exact Hcerr|]. intros y. simpl.
  rewrite !lookup_insert.
  destruct (decide (t = y)) as [-> | Hne].
  - rewrite !decide_True by reflexivity. reflexivity.
  - rewrite !decide_False; [apply Hvars | |];
      intros Heq; [apply addr2_inj in Heq | apply addr1_inj in Heq];
      contradiction.
Qed.

Lemma same_targets_emit line w1 w2 :
  same_targets addr1 addr2 w1 w2 ->
  same_targets addr1 addr2 (emit line w1) (emit line w2).
Proof.
  intros [Hcerr Hvars].
  split; [simpl; rewrite Hcerr; reflexivity | exact Hvars].
Qed.

Lemma same_targets_push_back t s w1 w2 :
  same_targets addr1 addr2 w1 w2 ->
  same_targets addr1 addr2
    (push_back (addr1 t) s w1) (push_back (addr2 t) s w2).
Proof.
  intros Hsame. unfold push_back. rewrite (proj2 Hsame t).
  destruct (vars w2 !! addr2 t) as [[| | |l]|]; try exact Hsame.
  apply same_targets_store, Hsame.
Qed.

Lemma setter_alike vs opt input w1 w2 :
  same_targets addr1 addr2 w1 w2 ->
  same_targets addr1 addr2
    (_setter (bind_value addr1 vs) opt input w1).1
    (_setter (bind_value addr2 vs) opt input w2).1
  /\ (_setter (bind_value addr1 vs) opt input w1).2
     = (_setter (bind_value addr2 vs) opt input w2).2.
Proof.
  intros Hsame.
  destruct vs as [t dv h | t dv | t st dv | t h]; simpl.
  - destruct input; simpl; auto using same_targets_store.
  - destruct input as [s|]; simpl; [|auto].
    destruct (stoi s); simpl;
      auto using same_targets_store, same_targets_emit.
  - auto using same_targets_store.
  - destruct input; simpl; auto using same_targets_push_back.
Qed.

Lemma defaultVal_bind_value vs :
  _defaultVal (bind_value addr1 vs) = _defaultVal (bind_value addr2 vs).
Proof. destruct vs; reflexivity. Qed.

Lemma set_alike b vs opt input w1 w2 :
  same_targets addr1 addr2 w1 w2 ->
  exists b' w1' w2' r,
    set (with_wasSet b (bind_value addr1 vs)) opt input w1
    = (with_wasSet b' (bind_value addr1 vs), w1', r)
    /\ set (with_wasSet b (bind_value addr2 vs)) opt input w2
       = (with_wasSet b' (bind_value addr2 vs), w2', r)
    /\ same_targets addr1 addr2 w1' w2'.
Proof.
  intros Hsame. unfold set. simpl _wasSet.
  destruct (b && negb (has_flag (ref_flags opt) Repeatable)).
  { do 4 eexists. split; [reflexivity|]. split; [reflexivity|].
    apply same_targets_emit, Hsame. }
  change (mark_set (with_wasSet b (bind_value addr1 vs)))
    with (with_wasSet true (bind_value addr1 vs)).
  change (mark_set (with_wasSet b (bind_value addr2 vs)))
    with (with_wasSet true (bind_value addr2 vs)).
  change (_defaultVal (with_wasSet true (bind_value addr2 vs)))
    with (_defaultVal (bind_value addr2 vs)).
  change (_defaultVal (with_wasSet true (bind_value addr1 vs)))
    with (_defaultVal (bind_value addr1 vs)).
  change (_setter (with_wasSet true (bind_value addr2 vs)))
    with (_setter (bind_value addr2 vs)).
  change (_setter (with_wasSet true (bind_value addr1 vs)))
    with (_setter (bind_value addr1 vs)).
  rewrite <- (defaultVal_bind_value vs).
  destruct (negb (present input)
            && has_flag (ref_flags opt) OptionalArgument).
  - destruct (_defaultVal (bind_value addr1 vs) tt) as [optVal|].
    + destruct (setter_alike vs opt (Some optVal) w1 w2 Hsame) as [Hw Hr].
      destruct (_setter (bind_value addr1 vs) opt (Some optVal) w1) as [w1' r1].
      destruct (_setter (bind_value addr2 vs) opt (Some optVal) w2) as [w2' r2].
      simpl in *. subst r2. exists true, w1', w2', r1. auto.
    + exists true, w1, w2, false. auto.
  - destruct (present input
              || negb (present input)
                 && (Z.land (ref_flags opt) ArgumentTypeMask =? NoArgument)).
    + destruct (setter_alike vs opt input w1 w2 Hsame) as [Hw Hr].
      destruct (_setter (bind_value addr1 vs) opt input w1) as [w1' r1].
      destruct (_setter (bind_value addr2 vs) opt input w2) as [w2' r2].
      simpl in *. subst r2. exists true, w1', w2', r1. auto.
    + exists true, w1, w2, false. auto.
Qed.

Lemma dispatch_alike argv shortIdx optc option_index d opts1 opts2 w1 w2 :
  same_options addr1 addr2 opts1 opts2 ->
  same_targets addr1 addr2 w1 w2 ->
  same_options addr1 addr2
    (dispatch argv shortIdx optc option_index d opts1 w1).1
    (dispatch argv shortIdx optc option_index d opts2 w2).1
  /\ same_targets addr1 addr2
       (dispatch argv shortIdx optc option_index d opts1 w1).2
       (dispatch argv shortIdx optc option_index d opts2 w2).2.
Proof.
  intros Hopts Hsame. unfold dispatch.
  destruct (optc =? int_of_char "?");
    [simpl; auto using same_targets_emit|].
  destruct (optc =? int_of_char ":");
    [simpl; auto using same_targets_emit|].
  destruct (match option_index with
            | Some i => Some i
            | None => shortIdx !! char_of_int optc
            end) as [i|]; [|simpl; auto].
  destruct (opts1 !! i) as [o1|] eqn:Ho1.
  - destruct (Forall2_lookup_l _ _ _ _ _ Hopts Ho1)
      as (o2 & Ho2 & b & s & -> & ->).
    rewrite Ho2.
    set (arg := match optarg d with
                | Some a => if (String.length a =? 0)%nat then None else Some a
                | None => None
                end).
    change (ref_of (bound addr2 b s)) with (ref_of (bound addr1 b s)).
    simpl value.
    destruct (set_alike b (spec_value s) (ref_of (bound addr1 b s)) arg
                w1 w2 Hsame) as (b' & w1' & w2' & r & -> & -> & Hw).
    simpl. split; [|exact Hw].
    apply Forall2_insert; [exact Hopts|]. exists b', s. auto.
  - destruct (opts2 !! i) as [o2|] eqn:Ho2; [|simpl; auto].
    destruct (Forall2_lookup_r _ _ _ _ _ Hopts Ho2) as (o1 & Ho1' & _).
    congruence.
Qed.

Lemma scan_alike fuel argv r1 r2 d opts1 opts2 w1 w2 :
  shortopts r1 = shortopts r2 -> longopts r1 = longopts r2 ->
  shortOptIndex r1 = shortOptIndex r2 ->
  same_options addr1 addr2 opts1 opts2 ->
  same_targets addr1 addr2 w1 w2 ->
  match scan fuel argv r1 d opts1 w1, scan fuel argv r2 d opts2 w2 with
  | Some (d1, o1, w1'), Some (d2, o2, w2') =>
      d1 = d2 /\ same_options addr1 addr2 o1 o2
      /\ same_targets addr1 addr2 w1' w2'
  | None, None => True
  | _, _ => False
  end.
Proof.
  intros Hs Hl Hi. revert d opts1 opts2 w1 w2.
  induction fuel as [|fuel IH]; intros d opts1 opts2 w1 w2 Hopts Hsame;
    simpl; [exact I|].
  rewrite <- Hs, <- Hl, <- Hi.
  destruct (getopt_long argv (shortopts r1) (longopts r1) d)
    as [[optc option_index] d1].
  destruct (optc =? -1); [auto|].
  destruct (dispatch_alike argv (shortOptIndex r1) optc option_index d1
              opts1 opts2 w1 w2 Hopts Hsame) as [Ho Hw].
  destruct (dispatch argv (shortOptIndex r1) optc option_index d1 opts1 w1).
  destruct (dispatch argv (shortOptIndex r1) optc option_index d1 opts2 w2).
  apply IH; assumption.
Qed.

Lemma register_alike indet1 indet2 s r1 r2 :
  same_registry addr1 addr2 r1 r2 ->
  arity_defined (spec_flags s) ->
  alike (same_registry addr1 addr2)
    (register indet1 (bind_option addr1 s) r1)
    (register indet2 (bind_option addr2 s) r2).
Proof.
  intros (Hs & Hl & Hli & Hsi & Ho) Hdef.
  assert (same_options addr1 addr2
            (allOpts r1 ++ [bind_option addr1 s])
            (allOpts r2 ++ [bind_option addr2 s])) as Ho'.
  { apply Forall2_app; [exact Ho|]. constructor; [|constructor].
    exists false, s. rewrite !bound_false. auto. }
  unfold register. simpl.
  rewrite !length_app, (Forall2_length _ _ _ Ho), Hs, Hl, Hli, Hsi.
  destruct (arity_conflict (spec_flags s)); [reflexivity|].
  rewrite !appendToLongOptions_defined by exact Hdef. simpl.
  destruct (spec_name s) as [n|];
    [destruct (longOptIndex r2 !! n); [reflexivity|]|];
    (destruct (Ascii.eqb (spec_shortName s) zero);
     [|destruct (shortOptIndex r2 !! spec_shortName s); [reflexivity|]]);
    simpl; repeat split; try reflexivity; exact Ho'.
Qed.

Lemma register_options_alike indet1 indet2 l r1 r2 :
  same_registry addr1 addr2 r1 r2 ->
  Forall (fun s => arity_defined (spec_flags s)) l ->
  alike (same_registry addr1 addr2)
    (register_options indet1 (map (bind_option addr1) l) r1)
    (register_options indet2 (map (bind_option addr2) l) r2).
Proof.
  intros Hr Hdef. revert r1 r2 Hr.
  induction Hdef as [|s l Hs Hl IH]; intros r1 r2 Hr; simpl; [exact Hr|].
  pose proof (register_alike indet1 indet2 s r1 r2 Hr Hs) as Hstep.
  destruct (register indet1 (bind_option addr1 s) r1) as [r1'|e1],
           (register indet2 (bind_option addr2 s) r2) as [r2'|e2];
    simpl in *; try contradiction; [|exact Hstep].
  apply IH, Hstep.
Qed.

Lemma register_groups_alike indet1 indet2 groups r1 r2 :
  same_registry addr1 addr2 r1 r2 ->
  Forall (fun s => arity_defined (spec_flags s)) (all_specs groups) ->
  alike (same_registry addr1 addr2)
    (register_groups indet1 (bind addr1 groups) r1)
    (register_groups indet2 (bind addr2 groups) r2).
Proof.
  revert r1 r2. induction groups as [|g groups IH]; intros r1 r2 Hr Hdef;
    simpl; [exact Hr|].
  unfold all_specs in Hdef. simpl in Hdef.
  apply Forall_app in Hdef as [Hg Hrest].
  pose proof (register_options_alike indet1 indet2 (spec_options g) r1 r2
                Hr Hg) as Hstep.
  destruct (register_options indet1
              (map (bind_option addr1) (spec_options g)) r1)
    as [r1'|e1],
    (register_options indet2 (map (bind_option addr2) (spec_options g)) r2)
    as [r2'|e2];
    simpl in *; try contradiction; [|exact Hstep].
  apply IH; assumption.
Qed.

Lemma build_registry_alike indet1 indet2 groups :
  Forall (fun s => arity_defined (spec_flags s)) (all_specs groups) ->
  alike (same_registry addr1 addr2)
    (build_registry indet1 (bind addr1 groups))
    (build_registry indet2 (bind addr2 groups)).
Proof.
  intros Hdef. unfold build_registry.
  assert (same_registry addr1 addr2 empty_registry empty_registry) as H0
    by (repeat split; constructor).
  pose proof (register_groups_alike indet1 indet2 groups _ _ H0 Hdef) as Hall.
  destruct (register_groups indet1 (bind addr1 groups) empty_registry)
    as [r1|e1],
    (register_groups indet2 (bind addr2 groups) empty_registry) as [r2|e2];
    simpl in *; try contradiction; [|exact Hall].
  destruct Hall as (Hs & Hl & Hli & Hsi & Ho).
  repeat split; simpl; try assumption. rewrite Hl. reflexivity.
Qed.

(** Two runs of [parseCLI] on the same definitions, bound to two sets of
    variables that hold the same values, end alike. *)
Lemma parseCLI_alike indet1 indet2 argv groups w1 w2 :
  Forall (fun s => arity_defined (spec_flags s)) (all_specs groups) ->
  same_targets addr1 addr2 w1 w2 ->
  exists w1' w2' out,
    parseCLI indet1 argv (bind addr1 groups) w1 = Some (w1', out)
    /\ parseCLI indet2 argv (bind addr2 groups) w2 = Some (w2', out)
    /\ same_targets addr1 addr2 w1' w2'.
Proof.
  intros Hdef Hsame. unfold parseCLI, parseCLI_run.
  pose proof (build_registry_alike indet1 indet2 groups Hdef) as Hreg.
  destruct (build_registry indet1 (bind addr1 groups)) as [r1|e1],
           (build_registry indet2 (bind addr2 groups)) as [r2|e2];
    simpl in Hreg; try contradiction.
  - destruct Hreg as (Hs & Hl & Hli & Hsi & Ho).
    pose proof (scan_alike (enough_fuel argv) argv r1 r2 (mkGetopt 0 "" None 0)
                  (allOpts r1) (allOpts r2) w1 w2 Hs Hl Hsi Ho Hsame) as Hscan.
    destruct (scan_from_start_total argv r1 (allOpts r1) w1)
      as [[[d1 o1] w1'] H1].
    rewrite H1 in *.
    destruct (scan (enough_fuel argv) argv r2 _ (allOpts r2) w2)
      as [[[d2 o2] w2']|]; [|contradiction].
    destruct Hscan as (-> & _ & Hw). eauto 7.
  - subst e2. eauto 7.
Qed.

End Rebinding.

Lemma main_specs_bound : bind (fun x => x) main_specs = Main.options.
Proof. reflexivity. Qed.

(** C8: two runs on the same option definitions, each bound to its own
    target variables, do not always end alike.  (1) For the option
    [--level] with the arity mask 0x04 and [argv = prog --level x], the
    run in which the uninitialised [has_arg] holds 1 takes [x] as the
    argument, stores it and returns 3, and the run in which it holds 0
    stores nothing and returns 2.  (2) When every arity mask is one of
    the three defined ones, [has_arg] does not depend on an
    uninitialised variable, and two runs that start from a fresh
    tokenizer state, on distinct variables at distinct addresses that
    hold the same values, with the same [argv], end alike: both throw
    the same exception or both return the same index, and corresponding
    variables hold the same values afterwards (the same lines are
    written to [cerr], too). *)
Theorem C8_same_result_for_defined_masks_only :
  (parseCLI (fun _ => required_argument) ["prog"; "--level"; "x"]
     (bind (fun x => x) level_specs) (mkWorld ∅ [])
   = Some (store 0%nat (VString "x") (mkWorld ∅ []), Returned 3)
   /\ parseCLI (fun _ => no_argument) ["prog"; "--level"; "x"]
        (bind (fun x => (x + 10)%nat) level_specs) (mkWorld ∅ [])
      = Some (mkWorld ∅ [], Returned 2))
  /\ (forall addr1 addr2 indet1 indet2 argv groups w1 w2,
        Inj (=) (=) addr1 -> Inj (=) (=) addr2 ->
        Forall (fun s => arity_defined (spec_flags s)) (all_specs groups) ->
        same_targets addr1 addr2 w1 w2 ->
        exists w1' w2' out,
          parseCLI indet1 argv (bind addr1 groups) w1 = Some (w1', out)
          /\ parseCLI indet2 argv (bind addr2 groups) w2 = Some (w2', out)
          /\ same_targets addr1 addr2 w1' w2').
Proof.
  split.
  - split; vm_compute; reflexivity.
  - intros addr1 addr2 indet1 indet2 argv groups w1 w2 Hinj1 Hinj2 Hdef
      Hsame.
    exact (parseCLI_alike addr1 addr2 Hinj1 Hinj2 indet1 indet2 argv groups
             w1 w2 Hdef Hsame).
Qed.

Lemma C8_witness :
  Inj (=) (=) (fun x : nat => x)
  /\ Inj (=) (=) (fun x : nat => (x + 10)%nat)
  /\ Forall (fun s => arity_defined (spec_flags s)) (all_specs main_specs)
  /\ same_targets (fun x => x) (fun x => (x + 10)%nat)
       (mkWorld ∅ []) (mkWorld ∅ [])
  /\ exists w1' w2' out,
       parseCLI (fun _ => 0) ["prog"; "-i"; "3"; "positional"; "-b"]
         (bind (fun x => x) main_specs) (mkWorld ∅ []) = Some (w1', out)
       /\ parseCLI (fun _ => 7) ["prog"; "-i"; "3"; "positional"; "-b"]
            (bind (fun x => (x + 10)%nat) main_specs) (mkWorld ∅ [])
          = Some (w2', out)
       /\ same_targets (fun x => x) (fun x => (x + 10)%nat) w1' w2'.
Proof.
  assert (Inj (=) (=) (fun x : nat => x)) as H1 by (intros x y H; exact H).
  assert (Inj (=) (=) (fun x : nat => (x + 10)%nat)) as H2
    by (intros x y H; lia).
  assert (Forall (fun s => arity_defined (spec_flags s)) (all_specs main_specs))
    as H3.
  { repeat constructor; unfold arity_defined;
      first [left; reflexivity | right; left; reflexivity
            | right; right; reflexivity]. }
  assert (same_targets (fun x => x) (fun x => (x + 10)%nat)
            (mkWorld ∅ []) (mkWorld ∅ [])) as H4.
  { split; [reflexivity|]. intros x. simpl. rewrite !lookup_empty.
    reflexivity. }
  split; [exact H1|]. split; [exact H2|]. split; [exact H3|].
  split; [exact H4|].
  exact (proj2 C8_same_result_for_defined_masks_only (fun x => x)
           (fun x => (x + 10)%nat) (fun _ => 0) (fun _ => 7)
           ["prog"; "-i"; "3"; "positional"; "-b"]
           main_specs (mkWorld ∅ []) (mkWorld ∅ []) H1 H2 H3 H4).
Defined.
(** * Further properties *)

(** ** Registries of the sample configurations *)

Lemma build_registry_checked indet groups :
  match build_registry indet groups with
  | Normal _ => true
  | Thrown _ => false
  end = true ->
  exists reg, build_registry indet groups = Normal reg.
Proof. destruct (build_registry indet groups); [eauto | discriminate]. Qed.

Lemma unambiguous_checked indet groups :
  match build_registry indet groups with
  | Normal _ => true
  | Thrown _ => false
  end = true ->
  unambiguous (all_options groups).
Proof.
  intros H. destruct (build_registry_checked indet groups H) as [reg Hreg].
  apply build_registry_Normal in Hreg as (_ & _ & Hun). exact Hun.
Qed.

(** ** The registry of an unambiguous configuration *)

Lemma register_exact indet o r r' :
  exact_indices r -> register indet o r = Normal r' -> exact_indices r'.
Proof.
  intros [Hlong Hshort] Hreg.
  apply register_inv in Hreg as (_ & Hall & Hl & Hs).
  assert (forall i o', allOpts r' !! i = Some o' <->
            allOpts r !! i = Some o' \/ (i = length (allOpts r) /\ o' = o))
    as Hat.
  { intros i o'. rewrite Hall, lookup_app_Some, list_lookup_singleton_Some.
    split; [intros [?|(? & ? & ?)]; [auto | right; split; [lia | auto]]|].
    intros [?|[-> ->]]; [auto|]. right. split; [lia|].
    split; [lia | reflexivity]. }
  split.
  - intros n i. destruct (name o) as [n0|] eqn:Hn.
    + destruct Hl as (Hfresh & -> & _). rewrite lookup_insert.
      case_decide as Heq.
      * subst n0. split.
        -- intros [= <-]. exists o. rewrite Hat. auto.
        -- intros (o' & Ho' & Hn'). apply Hat in Ho' as [Ho' | [-> _]];
             [|reflexivity].
           assert (longOptIndex r !! n = Some i) as Hi
             by (apply Hlong; eauto).
           congruence.
      * rewrite Hlong. split.
        -- intros (o' & Ho' & Hn'). exists o'. rewrite Hat. auto.
        -- intros (o' & Ho' & Hn'). apply Hat in Ho' as [Ho' | [-> ->]];
             [eauto | congruence].
    + destruct Hl as [-> _]. rewrite Hlong. split.
      * intros (o' & Ho' & Hn'). exists o'. rewrite Hat. auto.
      * intros (o' & Ho' & Hn'). apply Hat in Ho' as [Ho' | [-> ->]];
          [eauto | congruence].
  - intros c i. destruct (Ascii.eqb (shortName o) zero) eqn:Hz.
    + apply Ascii.eqb_eq in Hz. destruct Hs as [-> _]. rewrite Hshort. split.
      * intros (Hc & o' & Ho' & Hn'). split; [assumption|].
        exists o'. rewrite Hat. auto.
      * intros (Hc & o' & Ho' & Hn'). split; [assumption|].
        apply Hat in Ho' as [Ho' | [-> ->]]; [eauto | congruence].
    + apply Ascii.eqb_neq in Hz. destruct Hs as (Hfresh & -> & _).
      rewrite lookup_insert. case_decide as Heq.
      * subst c. split.
        -- intros [= <-]. split; [assumption|]. exists o. rewrite Hat. auto.
        -- intros (_ & o' & Ho' & Hn'). apply Hat in Ho' as [Ho' | [-> _]];
             [|reflexivity].
           assert (shortOptIndex r !! shortName o = Some i) as Hi
             by (apply Hshort; eauto).
           congruence.
      * rewrite Hshort. split.
        -- intros (Hc & o' & Ho' & Hn'). split; [assumption|].
           exists o'. rewrite Hat. auto.
        -- intros (Hc & o' & Ho' & Hn'). split; [assumption|].
           apply Hat in Ho' as [Ho' | [-> ->]]; [eauto | congruence].
Qed.

Lemma exact_indices_empty : exact_indices empty_registry.
Proof.
  split; intros k i; simpl; rewrite lookup_empty; split;
    try discriminate.
  - intros (o & Ho & _). rewrite lookup_nil in Ho. discriminate.
  - intros (_ & o & Ho & _). rewrite lookup_nil in Ho. discriminate.
Qed.

(** After the first loop the indices are exact. *)
Lemma build_registry_exact indet groups reg :
  build_registry indet groups = Normal reg -> exact_indices reg.
Proof.
  unfold build_registry.
  destruct (register_groups indet groups empty_registry) as [r|e] eqn:Hreg;
    [|discriminate].
  simpl. intros [= <-].
  assert (exact_indices r) as [Hl Hs].
  { apply (register_groups_ind indet exact_indices) with (groups := groups)
      (r := empty_registry); [| apply exact_indices_empty | exact Hreg].
    intros o r0 r1 H0 H1. eapply register_exact; eassumption. }
  split; simpl; assumption.
Qed.

(** An option that clashes with none of the registered ones is
    registered. *)
Lemma register_succeeds indet o r :
  exact_indices r -> unambiguous (allOpts r ++ [o])%list ->
  exists r', register indet o r = Normal r'.
Proof.
  intros [Hlong Hshort] (Hconf & Hnames & Hshorts).
  assert ((allOpts r ++ [o])%list !! length (allOpts r) = Some o) as Hlast.
  { rewrite lookup_app_r by lia. rewrite Nat.sub_diag. reflexivity. }
  unfold register.
  rewrite (Hconf o) by (rewrite elem_of_app, list_elem_of_singleton; auto).
  assert (forall n, name o = Some n -> longOptIndex r !! n = None) as Hfresh.
  { intros n Hn. destruct (longOptIndex r !! n) as [i|] eqn:Hi; [|reflexivity].
    apply Hlong in Hi as (o' & Ho' & Hn').
    pose proof (lookup_lt_Some _ _ _ Ho') as Hlt.
    assert (i = length (allOpts r)); [|lia].
    eapply Hnames; [|exact Hlast| |]; eauto.
    rewrite lookup_app_l by lia. exact Ho'. }
  assert (shortName o <> zero -> shortOptIndex r !! shortName o = None)
    as Hsfresh.
  { intros Hnz.
    destruct (shortOptIndex r !! shortName o) as [i|] eqn:Hi; [|reflexivity].
    apply Hshort in Hi as (_ & o' & Ho' & Hn').
    pose proof (lookup_lt_Some _ _ _ Ho') as Hlt.
    assert (i = length (allOpts r)); [|lia].
    eapply Hshorts; [|exact Hlast| |]; eauto.
    - rewrite lookup_app_l by lia. exact Ho'.
    - congruence. }
  destruct (name o) as [n|]; [rewrite (Hfresh n eq_refl)|];
    (destruct (Ascii.eqb_spec (shortName o) zero) as [|Hnz];
     [|rewrite (Hsfresh Hnz)]); simpl; eauto.
Qed.

Lemma unambiguous_app_l l1 l2 :
  unambiguous (l1 ++ l2)%list -> unambiguous l1.
Proof.
  intros (Hconf & Hnames & Hshorts). split; [|split].
  - intros o Ho. apply Hconf. rewrite elem_of_app. auto.
  - intros i j o1 o2 n H1 H2. apply (Hnames i j o1 o2 n);
      apply lookup_app_l_Some; assumption.
  - intros i j o1 o2 H1 H2. apply (Hshorts i j o1 o2);
      apply lookup_app_l_Some; assumption.
Qed.

Lemma register_options_succeeds indet l r :
  exact_indices r -> unambiguous (allOpts r ++ l)%list ->
  exists r', register_options indet l r = Normal r'
             /\ exact_indices r' /\ allOpts r' = (allOpts r ++ l)%list.
Proof.
  revert r. induction l as [|o l IH]; intros r Hex Hun; simpl.
  - exists r. rewrite app_nil_r. auto.
  - assert (unambiguous (allOpts r ++ [o])%list) as Hun1.
    { apply (unambiguous_app_l _ l). rewrite <- app_assoc. exact Hun. }
    destruct (register_succeeds indet o r Hex Hun1) as [r1 Hr1].
    rewrite Hr1. simpl.
    pose proof (register_exact _ _ _ _ Hex Hr1) as Hex1.
    apply register_inv in Hr1 as (_ & Hall & _).
    destruct (IH r1 Hex1) as (r' & Hr' & Hex' & Hall').
    { rewrite Hall, <- app_assoc. exact Hun. }
    exists r'. rewrite Hall', Hall, <- app_assoc. auto.
Qed.

Lemma register_groups_succeeds indet groups r :
  exact_indices r -> unambiguous (allOpts r ++ all_options groups)%list ->
  exists r', register_groups indet groups r = Normal r'.
Proof.
  revert r. induction groups as [|g groups IH]; intros r Hex Hun; simpl;
    [eauto|].
  unfold all_options in Hun. simpl in Hun. rewrite app_assoc in Hun.
  destruct (register_options_succeeds indet (options g) r Hex)
    as (r1 & Hr1 & Hex1 & Hall1).
  { eapply unambiguous_app_l. exact Hun. }
  rewrite Hr1. simpl. apply IH; [assumption|]. rewrite Hall1. exact Hun.
Qed.

Lemma build_registry_succeeds indet groups :
  unambiguous (all_options groups) ->
  exists reg, build_registry indet groups = Normal reg.
Proof.
  intros Hun. unfold build_registry.
  destruct (register_groups_succeeds indet groups empty_registry
              exact_indices_empty Hun) as [r ->].
  simpl. eauto.
Qed.





(** X2: in the registry of a configuration that is accepted, both
    indices are exact: [longOptIndex] binds a name to [i] exactly when
    option [i] of [allOpts] has that long name, and [shortOptIndex] binds
    a character to [i] exactly when option [i] has that short name (the
    NUL character, which stands for no short name, is bound to
    nothing). *)
Theorem X2_indices_locate_the_options :
  forall indet groups reg,
    build_registry indet groups = Normal reg ->
    allOpts reg = all_options groups
    /\ (forall n i, longOptIndex reg !! n = Some i <->
                    exists o, all_options groups !! i = Some o
                              /\ name o = Some n)
    /\ (forall c i, shortOptIndex reg !! c = Some i <->
                    c <> zero
                    /\ exists o, all_options groups !! i = Some o
                                 /\ shortName o = c).
Proof.
  intros indet groups reg Hreg.
  pose proof (build_registry_exact _ _ _ Hreg) as [Hl Hs].
  apply build_registry_Normal in Hreg as (Hall & _ & _).
  rewrite <- Hall. auto.
Qed.

Lemma X2_witness :
  exists reg,
    build_registry (fun _ => 0) (short_only_first 0%nat 1%nat) = Normal reg
    /\ allOpts reg = all_options (short_only_first 0%nat 1%nat)
    /\ longOptIndex reg !! "bee" = Some 1%nat
    /\ shortOptIndex reg !! "a"%char = Some 0%nat.
Proof.
  destruct (build_registry_checked (fun _ => 0)
              (short_only_first 0%nat 1%nat) eq_refl) as [reg Hreg].
  exists reg. split; [exact Hreg|].
  destruct (X2_indices_locate_the_options _ _ _ Hreg) as (Hall & Hl & Hs).
  split; [exact Hall|]. split.
  - apply Hl. eexists. split; reflexivity.
  - apply Hs. split; [discriminate|]. eexists. split; reflexivity.
Defined.

(** ** The long options and allOpts *)

Lemma named_app l1 l2 : named (l1 ++ l2) = (named l1 ++ named l2)%list.
Proof. apply filter_app. Qed.

Lemma appendToLongOptions_entry indet o opts :
  exists e, appendToLongOptions indet o opts = (opts ++ [e])%list
            /\ entry_of o e.
Proof.
  unfold appendToLongOptions. eexists. split; [reflexivity|].
  split; [reflexivity|]. simpl. unfold arity_defined, arity_mask.
  intros [-> | [-> | ->]]; reflexivity.
Qed.

Lemma register_entries indet o r r' :
  Forall2 entry_of (named (allOpts r)) (longopts r) ->
  register indet o r = Normal r' ->
  Forall2 entry_of (named (allOpts r')) (longopts r').
Proof.
  intros Hent Hreg. apply register_inv in Hreg as (_ & Hall & Hl & _).
  rewrite Hall, named_app. unfold named at 2.
  destruct (name o) as [n|] eqn:Hn.
  - destruct Hl as (_ & _ & ->).
    destruct (appendToLongOptions_entry (indet (length (allOpts r))) o
                (longopts r)) as (e & -> & He).
    rewrite filter_cons_True by (rewrite Hn; eauto).
    apply Forall2_app; [exact Hent|].
    constructor; [assumption | rewrite filter_nil; constructor].
  - destruct Hl as [_ ->].
    rewrite filter_cons_False by (rewrite Hn; intros [? ?]; discriminate).
    rewrite filter_nil, app_nil_r. exact Hent.
Qed.

(** [longopts] holds one entry for each option that has a long name, in
    the order of the options, and the terminator. *)
Lemma build_registry_entries indet groups reg :
  build_registry indet groups = Normal reg ->
  exists entries,
    longopts reg = (entries ++ [mkLong None 0])%list
    /\ Forall2 entry_of (named (all_options groups)) entries.
Proof.
  intros Hbuild. pose proof Hbuild as Hall.
  apply build_registry_Normal in Hall as (Hall & _ & _).
  unfold build_registry in Hbuild.
  destruct (register_groups indet groups empty_registry) as [r|e] eqn:Hreg;
    [|discriminate].
  simpl in Hbuild. injection Hbuild as <-. simpl in *.
  exists (longopts r). split; [reflexivity|]. rewrite <- Hall.
  apply (register_groups_ind indet
           (fun r => Forall2 entry_of (named (allOpts r)) (longopts r)))
    with (groups := groups) (r := empty_registry).
  - intros o r0 r1 H0 H1. eapply register_entries; eassumption.
  - constructor.
  - exact Hreg.
Qed.

Lemma exact_match_found nm p k i e :
  exact_match nm p k = Some (i, e) ->
  exists j, i = (k + j)%nat /\ p !! j = Some e /\ lo_name e = Some nm.
Proof.
  revert k. induction p as [|o p IH]; intros k; simpl; [discriminate|].
  destruct (lo_name o) as [pname|] eqn:Hname; [|discriminate].
  destruct (String.eqb_spec pname nm) as [-> | Hne].
  - intros [= <- <-]. exists 0%nat. rewrite Nat.add_0_r. auto.
  - intros H. apply IH in H as (j & -> & Hj & Hn).
    exists (S j). split; [lia | auto].
Qed.

Lemma abbreviations_found nm p k pfound ambig i e ambig' :
  abbreviations nm p k pfound ambig = (Some (i, e), ambig') ->
  pfound = Some (i, e)
  \/ exists j pname, i = (k + j)%nat /\ p !! j = Some e
                     /\ lo_name e = Some pname
                     /\ String.prefix nm pname = true.
Proof.
  revert k pfound ambig.
  induction p as [|o p IH]; intros k pfound ambig; simpl.
  - intros [= -> _]. auto.
  - destruct (lo_name o) as [pname|] eqn:Hname; [|intros [= -> _]; auto].
    assert (forall pf am,
      abbreviations nm p (S k) pf am = (Some (i, e), ambig') ->
      pf = Some (i, e)
      \/ exists j pname, i = (k + j)%nat /\ (o :: p) !! j = Some e
                         /\ lo_name e = Some pname
                         /\ String.prefix nm pname = true) as IH'.
    { intros pf am H. apply IH in H as [H | (j & pn & -> & Hj & Hn & Hp)];
        [auto|]. right. exists (S j), pn. split; [lia | auto]. }
    destruct (String.prefix nm pname) eqn:Hpre; [|apply IH'].
    destruct pfound as [[i0 first]|].
    + apply IH'.
    + intros H. apply IH' in H as [[= <- <-] | H]; [|auto].
      right. exists 0%nat, pname. rewrite Nat.add_0_r. auto.
Qed.

(** What [lookup_long] finds is an entry in front of the terminator whose
    name starts with the name looked up. *)
Lemma lookup_long_found nm longopts i e ambig :
  lookup_long nm longopts = (Some (i, e), ambig) ->
  exists pname, longopts !! i = Some e /\ lo_name e = Some pname
                /\ String.prefix nm pname = true.
Proof.
  unfold lookup_long.
  destruct (exact_match nm longopts 0) as [[i0 e0]|] eqn:Hex.
  - intros [= <- <- _]. apply exact_match_found in Hex as (j & -> & Hj & Hn).
    exists nm. simpl. split; [assumption|]. split; [assumption|].
    clear. induction nm as [|a nm IH]; simpl; [reflexivity|].
    destruct (ascii_dec a a); [exact IH | contradiction].
  - intros H. apply abbreviations_found in H
      as [H | (j & pname & -> & Hj & Hn & Hp)]; [discriminate|].
    exists pname. simpl. auto.
Qed.

Lemma process_long_option_index argv optstring longopts d c i d' :
  process_long_option argv optstring longopts d = (c, Some i, d') ->
  exists nm e ambig, lookup_long nm longopts = (Some (i, e), ambig).
Proof.
  unfold process_long_option.
  destruct (split_name (nextchar d)) as [nm attached].
  destruct (lookup_long nm longopts) as [[[option_index pfound]|] [|]] eqn:Hl;
    try discriminate.
  destruct attached as [a|].
  - destruct (has_arg pfound =? 0); [discriminate|].
    intros [= _ <- _]. eauto.
  - destruct (has_arg pfound =? 1).
    + destruct (argv !! S (optind d)); [|discriminate].
      intros [= _ <- _]. eauto.
    + intros [= _ <- _]. eauto.
Qed.

Lemma short_option_index argv optstring longopts ch rest d c i d' :
  short_option argv optstring longopts ch rest d = (c, Some i, d') ->
  exists nm e ambig, lookup_long nm longopts = (Some (i, e), ambig).
Proof.
  unfold short_option.
  destruct (strchr optstring ch) as [temp|]; [|discriminate].
  destruct (Ascii.eqb ch ":" || Ascii.eqb ch ";"); [discriminate|].
  destruct (Ascii.eqb (char_at temp 0) "W" && Ascii.eqb (char_at temp 1) ";").
  { destruct (negb (String.eqb rest ""));
      [apply process_long_option_index|].
    destruct (argv !! _); [apply process_long_option_index | discriminate]. }
  destruct (Ascii.eqb (char_at temp 1) ":"); [|discriminate].
  destruct (Ascii.eqb (char_at temp 2) ":").
  - destruct (negb (String.eqb rest "")); discriminate.
  - destruct (negb (String.eqb rest "")); [discriminate|].
    destruct (argv !! _); discriminate.
Qed.

Lemma getopt_long_index argv shortopts longopts d c i d' :
  getopt_long argv shortopts longopts d = (c, Some i, d') ->
  exists nm e ambig, lookup_long nm longopts = (Some (i, e), ambig).
Proof.
  unfold getopt_long. destruct (length argv <? 1)%nat; [discriminate|].
  unfold next_option.
  destruct (nextchar (getopt_enter d)); [|apply short_option_index].
  destruct (argv !! optind (getopt_enter d)) as [arg|]; [|discriminate].
  destruct (String.eqb arg "--"); [discriminate|].
  destruct (NONOPTION_P arg); [discriminate|].
  destruct (Ascii.eqb (char_at arg 1) "-"); [apply process_long_option_index|].
  destruct (string_drop 1 arg); [discriminate | apply short_option_index].
Qed.

Lemma named_all all :
  (forall o, o ∈ all -> is_Some (name o)) -> named all = all.
Proof.
  unfold named. induction all as [|o l IH]; intros H; [reflexivity|].
  rewrite filter_cons_True by (apply H; left).
  f_equal. apply IH. intros o' Ho'. apply H. right. exact Ho'.
Qed.

Lemma named_length all : (length (named all) <= length all)%nat.
Proof. unfold named. apply length_filter. Qed.

(** X3: the index under which [parseCLI] reads [allOpts] is never out of
    range.  In the registry of an accepted configuration every value of
    [shortOptIndex] is below the number of options, and whatever
    [getopt_long] stores through [longind] is the position of an entry of
    [longopts] in front of the terminator, of which there are no more
    than options. *)
Theorem X3_allOpts_index_in_range :
  forall indet groups reg,
    build_registry indet groups = Normal reg ->
    (forall c i, shortOptIndex reg !! c = Some i ->
                 (i < length (allOpts reg))%nat)
    /\ (forall argv d c i d',
          getopt_long argv (shortopts reg) (longopts reg) d = (c, Some i, d')
          -> (i < length (allOpts reg))%nat).
Proof.
  intros indet groups reg Hreg.
  pose proof (build_registry_exact _ _ _ Hreg) as [_ Hs].
  destruct (build_registry_entries _ _ _ Hreg) as (entries & Hlo & Hent).
  apply build_registry_Normal in Hreg as (Hall & _ & _).
  split.
  - intros c i Hi. apply Hs in Hi as (_ & o & Ho & _).
    eapply lookup_lt_Some; eassumption.
  - intros argv d c i d' Hget.
    apply getopt_long_index in Hget as (nm & e & ambig & Hget).
    apply lookup_long_found in Hget as (pname & Hi & Hn & _).
    rewrite Hlo in Hi. apply lookup_app_Some in Hi as [Hi | [_ Hi]].
    + apply lookup_lt_Some in Hi.
      rewrite <- (Forall2_length _ _ _ Hent) in Hi.
      pose proof (named_length (all_options groups)). rewrite Hall. lia.
    + apply list_lookup_singleton_Some in Hi as [_ <-]. discriminate.
Qed.

Lemma X3_witness :
  exists reg i,
    build_registry (fun _ => 0) (short_only_first 0%nat 1%nat) = Normal reg
    /\ shortOptIndex reg !! "b"%char = Some i
    /\ (i < length (allOpts reg))%nat.
Proof.
  destruct (build_registry_checked (fun _ => 0)
              (short_only_first 0%nat 1%nat) eq_refl) as [reg Hreg].
  exists reg, 1%nat. split; [exact Hreg|].
  assert (shortOptIndex reg !! "b"%char = Some 1%nat) as Hb.
  { apply (build_registry_exact _ _ _ Hreg). split; [discriminate|].
    apply build_registry_Normal in Hreg as (-> & _).
    eexists. split; reflexivity. }
  split; [exact Hb|].
  exact (proj1 (X3_allOpts_index_in_range _ _ _ Hreg) _ _ Hb).
Defined.

(** X4: when every option has a long name, entry [i] of [longopts] is
    made from option [i] of [allOpts], so the index that [getopt_long]
    stores through [longind] is the index of the option whose long name
    the element names or abbreviates; the entry has the arity of the
    option's flags when their mask is one of the three defined ones. *)
Theorem X4_long_options_line_up_when_all_named :
  forall indet groups reg,
    build_registry indet groups = Normal reg ->
    (forall o, o ∈ all_options groups -> is_Some (name o)) ->
    (forall i o, all_options groups !! i = Some o ->
                 exists e, longopts reg !! i = Some e /\ entry_of o e)
    /\ length (longopts reg) = S (length (all_options groups))
    /\ (forall nm i e ambig,
          lookup_long nm (longopts reg) = (Some (i, e), ambig) ->
          exists o pname,
            allOpts reg !! i = Some o /\ name o = Some pname
            /\ String.prefix nm pname = true).
Proof.
  intros indet groups reg Hreg Hnamed.
  destruct (build_registry_entries _ _ _ Hreg) as (entries & Hlo & Hent).
  apply build_registry_Normal in Hreg as (Hall & _ & _).
  rewrite (named_all _ Hnamed) in Hent. split; [|split].
  - intros i o Ho.
    destruct (Forall2_lookup_l _ _ _ _ _ Hent Ho) as (e & He & Hoe).
    exists e. rewrite Hlo, lookup_app_l by (eapply lookup_lt_Some; eassumption).
    auto.
  - rewrite Hlo, length_app, (Forall2_length _ _ _ Hent). simpl. lia.
  - intros nm i e ambig Hfound.
    apply lookup_long_found in Hfound as (pname & Hi & Hn & Hp).
    rewrite Hlo in Hi. apply lookup_app_Some in Hi as [Hi | [_ Hi]].
    + destruct (Forall2_lookup_r _ _ _ _ _ Hent Hi) as (o & Ho & [Hname _]).
      exists o, pname. rewrite Hall. split; [assumption|].
      split; [congruence | assumption].
    + apply list_lookup_singleton_Some in Hi as [_ <-]. discriminate.
Qed.

Lemma X4_witness :
  exists reg,
    build_registry (fun _ => 0) (string_option RequiredArgument 0%nat None)
    = Normal reg
    /\ Forall (fun o => is_Some (name o))
         (all_options (string_option RequiredArgument 0%nat None))
    /\ length (longopts reg) = 2%nat.
Proof.
  destruct (build_registry_checked (fun _ => 0)
              (string_option RequiredArgument 0%nat None) eq_refl)
    as [reg Hreg].
  exists reg. split; [exact Hreg|].
  assert (Forall (fun o => is_Some (name o))
            (all_options (string_option RequiredArgument 0%nat None)))
    as Hnamed by (repeat constructor; eexists; reflexivity).
  split; [exact Hnamed|].
  exact (proj1 (proj2 (X4_long_options_line_up_when_all_named _ _ _ Hreg
                         (proj1 (Forall_forall _ _) Hnamed)))).
Defined.

(** ** Short options reach the option that declares them *)

Lemma char_of_int_of_char c : char_of_int (int_of_char c) = c.
Proof. destruct c as [[] [] [] [] [] [] [] []]; reflexivity. Qed.

Lemma int_of_char_inj c1 c2 : int_of_char c1 = int_of_char c2 -> c1 = c2.
Proof.
  intros H. rewrite <- (char_of_int_of_char c1), H.
  apply char_of_int_of_char.
Qed.

(** The [default] case of the [switch] for the character of a declared
    short option. *)
Lemma dispatch_declared_short indet groups reg argv i o_def opts d w :
  build_registry indet groups = Normal reg ->
  all_options groups !! i = Some o_def ->
  shortName o_def <> zero ->
  shortName o_def <> "?"%char -> shortName o_def <> ":"%char ->
  Forall2 same_definition (allOpts reg) opts ->
  exists o,
    opts !! i = Some o /\ same_definition o_def o
    /\ dispatch argv (shortOptIndex reg) (int_of_char (shortName o_def))
         None d opts w
       = (let '(v', w', _) :=
            set (value o) (ref_of o) (passed_argument d) w in
          (<[i := with_value o v']> opts, w')).
Proof.
  intros Hreg Hi Hnz Hq Hc Hsame.
  pose proof (build_registry_exact _ _ _ Hreg) as [_ Hs].
  pose proof Hreg as Hall.
  apply build_registry_Normal in Hall as (Hall & _ & _).
  rewrite <- Hall in Hi.
  destruct (Forall2_lookup_l _ _ _ _ _ Hsame Hi) as (o & Ho & Hdef).
  exists o. split; [exact Ho|]. split; [exact Hdef|].
  unfold dispatch.
  destruct (Z.eqb_spec (int_of_char (shortName o_def)) (int_of_char "?"))
    as [Heq | _]; [apply int_of_char_inj in Heq; contradiction|].
  destruct (Z.eqb_spec (int_of_char (shortName o_def)) (int_of_char ":"))
    as [Heq | _]; [apply int_of_char_inj in Heq; contradiction|].
  rewrite char_of_int_of_char.
  assert (shortOptIndex reg !! shortName o_def = Some i) as ->
    by (apply Hs; eauto).
  rewrite Ho. reflexivity.
Qed.

(** ** What a parse changes *)

Lemma touches_only_refl targets w : touches_only targets w w.
Proof. split; [auto|]. exists []. rewrite app_nil_r. reflexivity. Qed.

Lemma touches_only_trans targets w1 w2 w3 :
  touches_only targets w1 w2 -> touches_only targets w2 w3 ->
  touches_only targets w1 w3.
Proof.
  intros [Hv1 [l1 Hc1]] [Hv2 [l2 Hc2]]. split.
  - intros l Hl. rewrite Hv2, Hv1 by assumption. reflexivity.
  - exists (l1 ++ l2)%list. rewrite Hc2, Hc1, app_assoc. reflexivity.
Qed.

Lemma touches_only_store (targets : loc -> Prop) t x w :
  targets t -> touches_only targets w (store t x w).
Proof.
  intros Ht. split.
  - intros l Hl. simpl. apply lookup_insert_ne. intros ->. contradiction.
  - exists []. simpl. rewrite app_nil_r. reflexivity.
Qed.

Lemma touches_only_emit targets line w : touches_only targets w (emit line w).
Proof. split; [auto|]. exists [line]. reflexivity. Qed.

Lemma touches_only_push_back (targets : loc -> Prop) t s w :
  targets t -> touches_only targets w (push_back t s w).
Proof.
  intros Ht. unfold push_back.
  destruct (vars w !! t) as [[| | |l]|];
    auto using touches_only_refl, touches_only_store.
Qed.

Lemma setter_touches_only (targets : loc -> Prop) addr vs opt input w :
  targets (addr (target_of vs)) ->
  touches_only targets w (_setter (bind_value addr vs) opt input w).1.
Proof.
  intros Ht. destruct vs as [t dv h | t dv | t st dv | t h]; simpl in *.
  - destruct input; simpl; auto using touches_only_refl, touches_only_store.
  - destruct input as [s|]; simpl; [|apply touches_only_refl].
    destruct (stoi s); simpl;
      auto using touches_only_store, touches_only_emit.
  - auto using touches_only_store.
  - destruct input; simpl;
      auto using touches_only_refl, touches_only_push_back.
Qed.

Lemma set_touches_only (targets : loc -> Prop) addr b vs opt input w :
  targets (addr (target_of vs)) ->
  exists b',
    (set (with_wasSet b (bind_value addr vs)) opt input w).1.1
    = with_wasSet b' (bind_value addr vs)
    /\ touches_only targets w
         (set (with_wasSet b (bind_value addr vs)) opt input w).1.2.
Proof.
  intros Ht. unfold set. simpl _wasSet.
  destruct (b && negb (has_flag (ref_flags opt) Repeatable)).
  { exists b. split; [reflexivity | apply touches_only_emit]. }
  change (mark_set (with_wasSet b (bind_value addr vs)))
    with (with_wasSet true (bind_value addr vs)).
  change (_defaultVal (with_wasSet true (bind_value addr vs)))
    with (_defaultVal (bind_value addr vs)).
  change (_setter (with_wasSet true (bind_value addr vs)))
    with (_setter (bind_value addr vs)).
  exists true.
  destruct (negb (present input)
            && has_flag (ref_flags opt) OptionalArgument).
  - destruct (_defaultVal (bind_value addr vs) tt) as [optVal|].
    + pose proof (setter_touches_only targets addr vs opt (Some optVal) w Ht).
      destruct (_setter (bind_value addr vs) opt (Some optVal) w). auto.
    + split; [reflexivity | apply touches_only_refl].
  - destruct (present input
              || negb (present input)
                 && (Z.land (ref_flags opt) ArgumentTypeMask =? NoArgument)).
    + pose proof (setter_touches_only targets addr vs opt input w Ht).
      destruct (_setter (bind_value addr vs) opt input w). auto.
    + split; [reflexivity | apply touches_only_refl].
Qed.

Lemma dispatch_touches_only addr specs argv shortIdx optc option_index d
    opts w :
  bound_from addr specs opts ->
  bound_from addr specs
    (dispatch argv shortIdx optc option_index d opts w).1
  /\ touches_only (targets_of addr specs) w
       (dispatch argv shortIdx optc option_index d opts w).2.
Proof.
  intros Hopts. unfold dispatch.
  destruct (optc =? int_of_char "?");
    [simpl; auto using touches_only_emit|].
  destruct (optc =? int_of_char ":");
    [simpl; auto using touches_only_emit|].
  destruct (match option_index with
            | Some i => Some i
            | None => shortIdx !! char_of_int optc
            end) as [i|]; [|simpl; auto using touches_only_refl].
  destruct (opts !! i) as [o|] eqn:Ho; [|simpl; auto using touches_only_refl].
  destruct (proj1 (Forall_lookup _ _) Hopts i o Ho) as (b & s & Hs & ->).
  simpl value.
  destruct (set_touches_only (targets_of addr specs) addr b (spec_value s)
              (ref_of (bound addr b s))
              (match optarg d with
               | Some a => if (String.length a =? 0)%nat then None else Some a
               | None => None
               end) w) as (b' & Hv & Hw); [exists s; auto|].
  destruct (set _ _ _ w) as [[v' w'] r]. simpl in *. subst v'.
  split; [|exact Hw].
  apply Forall_insert; [exact Hopts|]. exists b', s. auto.
Qed.

Lemma scan_touches_only addr specs fuel argv reg d opts w d' opts' w' :
  bound_from addr specs opts ->
  scan fuel argv reg d opts w = Some (d', opts', w') ->
  touches_only (targets_of addr specs) w w'.
Proof.
  revert d opts w. induction fuel as [|fuel IH]; intros d opts w Hopts; simpl;
    [discriminate|].
  destruct (getopt_long argv (shortopts reg) (longopts reg) d)
    as [[optc option_index] d1].
  destruct (optc =? -1).
  - intros [= <- <- <-]. apply touches_only_refl.
  - destruct (dispatch_touches_only addr specs argv (shortOptIndex reg) optc
                option_index d1 opts w Hopts) as [Ho Hw].
    destruct (dispatch argv (shortOptIndex reg) optc option_index d1 opts w)
      as [opts1 w1].
    intros Hscan. eapply touches_only_trans; [exact Hw|].
    eapply IH; eassumption.
Qed.

Lemma all_options_bind addr groups :
  all_options (bind addr groups) = map (bind_option addr) (all_specs groups).
Proof.
  unfold all_options, all_specs, bind.
  induction groups as [|g groups IH]; simpl; [reflexivity|].
  rewrite IH, map_app. reflexivity.
Qed.

(** X6: a parse of options made with the typed constructors writes to
    nothing but their targets.  Every variable of the caller that is not
    the target of one of the definitions holds after [parseCLI] what it
    held before, whatever [argv] is and whether the call returns or
    throws; and what had been written to [cerr] is still there, followed
    by the new diagnostics. *)
Theorem X6_parse_writes_only_to_targets :
  forall indet addr groups argv w w' out,
    parseCLI indet argv (bind addr groups) w = Some (w', out) ->
    (forall l, ~ targets_of addr (all_specs groups) l ->
               vars w' !! l = vars w !! l)
    /\ exists lines, cerr w' = (cerr w ++ lines)%list.
Proof.
  intros indet addr groups argv w w' out. unfold parseCLI, parseCLI_run.
  destruct (build_registry indet (bind addr groups)) as [reg|e] eqn:Hreg.
  - apply build_registry_Normal in Hreg as (Hall & _ & _).
    destruct (scan _ argv reg _ (allOpts reg) w) as [[[d opts] w1]|] eqn:Hscan;
      [|discriminate].
    intros [= <- <-].
    apply (scan_touches_only addr (all_specs groups)) in Hscan; [exact Hscan|].
    rewrite Hall, all_options_bind. unfold bound_from.
    apply Forall_map, Forall_forall. intros s Hs.
    exists false, s. rewrite bound_false. auto.
  - intros [= <- <-]. apply touches_only_refl.
Qed.

Lemma X6_witness :
  exists w' out,
    parseCLI (fun _ => 0) ["prog"; "-b"; "--int=x"]
      (bind (fun x => x) main_specs) Main.initial_world
    = Some (w', out)
    /\ vars w' !! 7%nat = vars Main.initial_world !! 7%nat
    /\ exists lines, cerr w' = (cerr Main.initial_world ++ lines)%list.
Proof.
  destruct (parseCLI_total (fun _ => 0) ["prog"; "-b"; "--int=x"]
              (bind (fun x => x) main_specs) Main.initial_world)
    as [[w' out] Hparse].
  exists w', out. split; [exact Hparse|].
  destruct (X6_parse_writes_only_to_targets _ _ _ _ _ _ _ Hparse)
    as [Hvars Hcerr].
  split; [|exact Hcerr].
  apply Hvars. intros (s & Hs & Heq).
  assert (Forall (fun s => 7%nat <> target_of (spec_value s))
            (all_specs main_specs)) as Hall
    by (repeat constructor; discriminate).
  exact (proj1 (Forall_forall _ _) Hall s Hs Heq).
Defined.

(** ** The index returned *)

Lemma returned_index_bounds indet argv groups w w' r :
  parseCLI indet argv groups w = Some (w', Returned r) ->
  0 <= r <= Z.of_nat (length argv) /\ (argv <> [] -> 1 <= r).
Proof.
  intros Hparse.
  apply parseCLI_Returned in Hparse as (reg & d & opts & _ & Hscan & ->).
  destruct (decide (argv = [])) as [-> | Hne].
  - simpl in Hscan. injection Hscan as <- _ _. simpl. split; [lia|].
    contradiction.
  - apply scan_end in Hscan as ([Hle _] & Hnz & _);
      [|assumption | apply in_bounds_start; assumption].
    destruct (getopt_enter_stable d Hnz) as [Ho _]. rewrite Ho in Hle.
    split; [lia|]. intros _. lia.
Qed.

(** X7: the index that [parseCLI] returns is a position in [argv]: 0
    for an empty [argv], and otherwise at least 1 (the program name is
    never taken for an option) and at most [argc]. *)
Theorem X7_returned_index_within_argv :
  forall indet argv groups w w' r,
    parseCLI indet argv groups w = Some (w', Returned r) ->
    0 <= r <= Z.of_nat (length argv)
    /\ (argv <> [] -> 1 <= r).
Proof.
  intros indet argv groups w w' r. apply returned_index_bounds.
Qed.

Lemma X7_witness :
  exists w' r,
    parseCLI (fun _ => 0) ["prog"; "-a"; "file"]
      (short_only_first 0%nat 1%nat) (mkWorld ∅ [])
    = Some (w', Returned r)
    /\ 0 <= r <= 3 /\ 1 <= r.
Proof.
  assert (exists w', parseCLI (fun _ => 0) ["prog"; "-a"; "file"]
                       (short_only_first 0%nat 1%nat) (mkWorld ∅ [])
                     = Some (w', Returned 2)) as [w' Hparse]
    by (eexists; vm_compute; reflexivity).
  exists w', 2. split; [exact Hparse|].
  destruct (X7_returned_index_within_argv _ _ _ _ _ _ Hparse) as [Hr H1].
  split; [exact Hr|]. apply H1. discriminate.
Defined.

(** X8: without anything to scan nothing happens.  For a configuration
    that is accepted, a call with an empty [argv], with the program name
    alone, or with a first argument that is not an option (it does not
    start with a dash, or it is the lone dash) changes neither the
    caller's variables nor [cerr]; it returns 0 in the first case and 1
    in the other two. *)
Theorem X8_nothing_to_scan :
  forall indet groups w,
    unambiguous (all_options groups) ->
    parseCLI indet [] groups w = Some (w, Returned 0)
    /\ (forall prog, parseCLI indet [prog] groups w = Some (w, Returned 1))
    /\ (forall prog a rest,
          NONOPTION_P a = true ->
          parseCLI indet (prog :: a :: rest) groups w = Some (w, Returned 1)).
Proof.
  intros indet groups w Hun.
  destruct (build_registry_succeeds indet groups Hun) as [reg Hreg].
  unfold parseCLI, parseCLI_run. rewrite Hreg.
  split; [reflexivity|]. split.
  - intros prog. reflexivity.
  - intros prog a rest Hnon.
    unfold enough_fuel, scan, getopt_long, next_option, getopt_enter.
    simpl. destruct (String.eqb_spec a "--") as [-> | _]; [discriminate|].
    rewrite Hnon. reflexivity.
Qed.

Lemma X8_witness :
  unambiguous (all_options (short_only_first 0%nat 1%nat))
  /\ parseCLI (fun _ => 0) ["prog"; "file"; "-a"]
       (short_only_first 0%nat 1%nat) (mkWorld ∅ [])
     = Some (mkWorld ∅ [], Returned 1).
Proof.
  assert (unambiguous (all_options (short_only_first 0%nat 1%nat))) as Hun
    by (apply (unambiguous_checked (fun _ => 0)); reflexivity).
  split; [exact Hun|].
  exact (proj2 (proj2 (X8_nothing_to_scan (fun _ => 0)
                         (short_only_first 0%nat 1%nat) (mkWorld ∅ []) Hun))
           "prog" "file" ["-a"] eq_refl).
Defined.

(** ** Repeatable options *)

Lemma required_mask flags :
  arity_mask flags = RequiredArgument ->
  has_flag flags OptionalArgument = false
  /\ (Z.land flags ArgumentTypeMask =? NoArgument) = false.
Proof.
  intros Hm. rewrite (has_flag_of_mask flags OptionalArgument) by reflexivity.
  fold (arity_mask flags). rewrite Hm. split; reflexivity.
Qed.

(** [set] for a repeatable option that requires an argument: the setter
    when the argument is there, nothing but the mark when it is not. *)
Lemma set_repeatable_required v opt input w :
  has_flag (ref_flags opt) Repeatable = true ->
  arity_mask (ref_flags opt) = RequiredArgument ->
  set v opt input w
  = match input with
    | Some s => let '(w', r) := _setter v opt (Some s) w in (mark_set v, w', r)
    | None => (mark_set v, w, false)
    end.
Proof.
  intros Hrep Hm. rewrite set_accepted by auto.
  destruct (required_mask _ Hm) as [-> ->].
  rewrite andb_false_r, orb_false_r. destruct input; reflexivity.
Qed.

Lemma push_back_lookup target s w l :
  vars w !! target = Some (VStrings l) ->
  vars (push_back target s w) !! target = Some (VStrings (l ++ [s]))
  /\ (forall l', l' <> target ->
        vars (push_back target s w) !! l' = vars w !! l')
  /\ cerr (push_back target s w) = cerr w.
Proof.
  intros Hl. unfold push_back. rewrite Hl. simpl. split; [|split].
  - apply lookup_insert_eq.
  - intros l' Hne. apply lookup_insert_ne. congruence.
  - reflexivity.
Qed.

(** X9: a repeatable string-container option collects its arguments in
    the order of the calls.  After any number of calls of [Value::set]
    for an option that is [Repeatable] and requires an argument, the
    container holds what it held before followed by the arguments that
    were there, in order; a call without argument adds nothing and
    returns [false], the others return [true]; no other variable changes
    and nothing is written to [cerr]. *)
Theorem X9_container_collects_in_order :
  forall target hint opt b inputs w l,
    has_flag (ref_flags opt) Repeatable = true ->
    arity_mask (ref_flags opt) = RequiredArgument ->
    vars w !! target = Some (VStrings l) ->
    let '(_, w', rs) :=
      set_each (with_wasSet b (StringContainerType target hint)) opt inputs w
    in
    vars w' !! target = Some (VStrings (l ++ given inputs))
    /\ (forall l', l' <> target -> vars w' !! l' = vars w !! l')
    /\ cerr w' = cerr w
    /\ rs = map present inputs.
Proof.
  intros target hint opt b inputs w l Hrep Hm. revert b w l.
  induction inputs as [|input rest IH]; intros b w l Hl; simpl.
  - rewrite app_nil_r. auto.
  - rewrite set_repeatable_required by assumption.
    change (mark_set (with_wasSet b (StringContainerType target hint)))
      with (with_wasSet true (StringContainerType target hint)).
    destruct input as [s|]; simpl.
    + destruct (push_back_lookup target s w l Hl) as (Ht & Ho & Hc).
      specialize (IH true (push_back target s w) (l ++ [s])%list Ht).
      destruct (set_each _ opt rest (push_back target s w)) as [[v2 w2] rs].
      destruct IH as (IH1 & IH2 & IH3 & IH4).
      unfold given in *. simpl. rewrite <- app_assoc in IH1.
      split; [exact IH1|]. split; [|split].
      * intros l' Hne. rewrite IH2, Ho by assumption. reflexivity.
      * congruence.
      * congruence.
    + specialize (IH true w l Hl).
      destruct (set_each _ opt rest w) as [[v2 w2] rs].
      destruct IH as (IH1 & IH2 & IH3 & IH4).
      unfold given in *. simpl. rewrite IH4. auto.
Qed.

Lemma X9_witness :
  let opt := mkRef (Some "cstring") "c" (Z.lor RequiredArgument Repeatable)
               "Add value to list of strings." in
  has_flag (ref_flags opt) Repeatable = true
  /\ arity_mask (ref_flags opt) = RequiredArgument
  /\ vars Main.initial_world !! Main.stringVec = Some (VStrings [])
  /\ (let '(_, w', rs) :=
        set_each (with_wasSet false
                    (StringContainerType Main.stringVec "STRING"))
          opt [Some "a"; None; Some "b"] Main.initial_world in
      vars w' !! Main.stringVec = Some (VStrings ["a"; "b"])
      /\ cerr w' = []
      /\ rs = [true; false; true]).
Proof.
  intros opt.
  assert (has_flag (ref_flags opt) Repeatable = true) as H1 by reflexivity.
  assert (arity_mask (ref_flags opt) = RequiredArgument) as H2
    by reflexivity.
  assert (vars Main.initial_world !! Main.stringVec = Some (VStrings []))
    as H3 by reflexivity.
  split; [exact H1|]. split; [exact H2|]. split; [exact H3|].
  pose proof (X9_container_collects_in_order Main.stringVec "STRING" opt
                false [Some "a"; None; Some "b"] Main.initial_world [] H1 H2
                H3) as H.
  destruct (set_each _ opt _ Main.initial_world) as [[v' w'] rs].
  destruct H as (Ht & _ & Hc & Hrs). auto.
Defined.

(** X10: of the arguments of a repeatable string option the last one
    stays.  After any number of calls of [Value::set] for a [StringType]
    option that is [Repeatable] and requires an argument, the target
    holds the last argument that was there, or what it held before when
    there was none; no other variable changes and nothing is written to
    [cerr]. *)
Theorem X10_repeatable_string_keeps_the_last :
  forall target defValue hint opt b inputs w,
    has_flag (ref_flags opt) Repeatable = true ->
    arity_mask (ref_flags opt) = RequiredArgument ->
    let '(_, w', rs) :=
      set_each (with_wasSet b (StringType target defValue hint)) opt inputs w
    in
    vars w' !! target
    = match last (given inputs) with
      | Some s => Some (VString s)
      | None => vars w !! target
      end
    /\ (forall l', l' <> target -> vars w' !! l' = vars w !! l')
    /\ cerr w' = cerr w
    /\ rs = map present inputs.
Proof.
  intros target defValue hint opt b inputs w Hrep Hm. revert b w.
  induction inputs as [|input rest IH]; intros b w; simpl.
  - auto.
  - rewrite set_repeatable_required by assumption.
    change (mark_set (with_wasSet b (StringType target defValue hint)))
      with (with_wasSet true (StringType target defValue hint)).
    destruct input as [s|]; simpl.
    + specialize (IH true (store target (VString s) w)).
      destruct (set_each _ opt rest (store target (VString s) w))
        as [[v2 w2] rs].
      destruct IH as (IH1 & IH2 & IH3 & IH4).
      unfold given in *. simpl. split; [|split; [|split]].
      * rewrite IH1, last_cons. destruct (last (omap id rest)); [reflexivity|].
        apply lookup_insert_eq.
      * intros l' Hne. rewrite IH2 by assumption. simpl.
        apply lookup_insert_ne. congruence.
      * exact IH3.
      * congruence.
    + specialize (IH true w).
      destruct (set_each _ opt rest w) as [[v2 w2] rs].
      destruct IH as (IH1 & IH2 & IH3 & IH4).
      unfold given in *. simpl. rewrite IH4. auto.
Qed.

Lemma X10_witness :
  let opt := mkRef (Some "string") "s" (Z.lor RequiredArgument Repeatable)
               "Set the String value." in
  has_flag (ref_flags opt) Repeatable = true
  /\ arity_mask (ref_flags opt) = RequiredArgument
  /\ (let '(_, w', rs) :=
        set_each (with_wasSet false
                    (StringType Main.myStringVar None "STRING"))
          opt [Some "a"; Some "b"; None] Main.initial_world in
      vars w' !! Main.myStringVar = Some (VString "b")
      /\ cerr w' = []
      /\ rs = [true; true; false]).
Proof.
  intros opt.
  assert (has_flag (ref_flags opt) Repeatable = true) as H1 by reflexivity.
  assert (arity_mask (ref_flags opt) = RequiredArgument) as H2
    by reflexivity.
  split; [exact H1|]. split; [exact H2|].
  pose proof (X10_repeatable_string_keeps_the_last Main.myStringVar None
                "STRING" opt false [Some "a"; Some "b"; None]
                Main.initial_world H1 H2) as H.
  destruct (set_each _ opt _ Main.initial_world) as [[v' w'] rs].
  destruct H as (Ht & _ & Hc & Hrs). auto.
Defined.

(** ** The default of an int option *)

Ltac eval_digit :=
  match goal with
  | |- context [digit_of ?c] =>
      let d := eval vm_compute in (digit_of c) in
      change (digit_of c) with d
  end.

(** Reading back the digits of a decimal numeral. *)
Lemma digits_from_uint (u : Decimal.uint) (acc : positive) :
  digits_from (Z.pos acc) (NilEmpty.string_of_uint u)
  = Z.pos (Pos.of_uint_acc u acc).
Proof.
  revert acc. induction u; intros acc; simpl NilEmpty.string_of_uint;
    [reflexivity|..];
    cbn [digits_from Pos.of_uint_acc]; eval_digit; cbv iota beta;
    rewrite <- IHu; f_equal; lia.
Qed.

Lemma digits_from_0_uint (u : Decimal.uint) :
  digits_from 0 (NilEmpty.string_of_uint u) = Z.of_N (Pos.of_uint u).
Proof.
  induction u; simpl NilEmpty.string_of_uint; [reflexivity|..];
    cbn [digits_from Pos.of_uint]; eval_digit; cbv iota beta;
    [exact IHu|..];
    match goal with
    | |- digits_from ?a _ = _ =>
        let n := eval vm_compute in a in change a with n
    end;
    rewrite digits_from_uint; reflexivity.
Qed.

Lemma string_of_pos_digits p :
  let s := NilEmpty.string_of_uint (Pos.to_uint p) in
  starts_with_digit s = true /\ digits_from 0 s = Z.pos p
  /\ skip_spaces s = s /\ strip_sign s = (false, s).
Proof.
  intros s. subst s.
  split; [|split].
  - pose proof (DecimalPos.Unsigned.to_uint_nonnil p) as Hnn.
    destruct (Pos.to_uint p); [contradiction|..]; reflexivity.
  - rewrite digits_from_0_uint, DecimalPos.Unsigned.of_to. reflexivity.
  - pose proof (DecimalPos.Unsigned.to_uint_nonnil p) as Hnn.
    destruct (Pos.to_uint p); [contradiction|..]; split; reflexivity.
Qed.

Lemma stoi_to_string n :
  INT_MIN <= n <= INT_MAX -> stoi (to_string n) = Converted n.
Proof.
  intros Hn. unfold to_string, stoi.
  destruct n as [|p|p]; [reflexivity|..]; simpl Z.to_int;
    unfold NilZero.string_of_int, NilZero.string_of_uint;
    pose proof (DecimalPos.Unsigned.to_uint_nonnil p) as Hnn;
    destruct (string_of_pos_digits p) as (Hd & Hv & Hsp & Hsg);
    simpl in Hd, Hv, Hsp, Hsg.
  - replace (match Pos.to_uint p with
             | Decimal.Nil => "0"
             | _ => NilEmpty.string_of_uint (Pos.to_uint p)
             end) with (NilEmpty.string_of_uint (Pos.to_uint p))
      by (destruct (Pos.to_uint p); [contradiction|..]; reflexivity).
    rewrite Hsp, Hsg, Hd, Hv.
    destruct (Z.leb_spec INT_MIN (Z.pos p)), (Z.leb_spec (Z.pos p) INT_MAX);
      simpl; (reflexivity || lia).
  - replace (match Pos.to_uint p with
             | Decimal.Nil => "0"
             | _ => NilEmpty.string_of_uint (Pos.to_uint p)
             end) with (NilEmpty.string_of_uint (Pos.to_uint p))
      by (destruct (Pos.to_uint p); [contradiction|..]; reflexivity).
    cbn [skip_spaces]. change (isspace "-") with false. cbv iota.
    cbn [strip_sign]. rewrite Hd, Hv.
    change (- Z.pos p) with (Z.neg p).
    destruct (Z.leb_spec INT_MIN (Z.neg p)), (Z.leb_spec (Z.neg p) INT_MAX);
      simpl; (reflexivity || lia).
Qed.

(** X11: the default of an int option is a number its own setter takes
    back.  For an [IntType] option that takes an optional argument and
    has the default [n], an [int], a call of [Value::set] without
    argument that passes the once-only check stores [n] itself in the
    target and returns [true], writing nothing to [cerr]: the text
    [std::to_string] makes of [n] is converted back to [n] by
    [std::stoi]. *)
Theorem X11_int_default_is_stored :
  forall target n opt b w,
    INT_MIN <= n <= INT_MAX ->
    has_flag (ref_flags opt) OptionalArgument = true ->
    b = false \/ has_flag (ref_flags opt) Repeatable = true ->
    stoi (to_string n) = Converted n
    /\ set (with_wasSet b (IntType target (Some n))) opt None w
       = (with_wasSet true (IntType target (Some n)),
          store target (VInt n) w, true).
Proof.
  intros target n opt b w Hn Hopt Hfree.
  pose proof (stoi_to_string n Hn) as Hstoi. split; [exact Hstoi|].
  rewrite set_accepted by (destruct Hfree; auto).
  rewrite Hopt. simpl. rewrite Hstoi. reflexivity.
Qed.

Lemma X11_witness :
  let opt := mkRef (Some "int") "i" OptionalArgument "Set the Int value." in
  INT_MIN <= -42 <= INT_MAX
  /\ has_flag (ref_flags opt) OptionalArgument = true
  /\ stoi (to_string (-42)) = Converted (-42)
  /\ set (with_wasSet false (IntType Main.myInt (Some (-42)))) opt None
       Main.initial_world
     = (with_wasSet true (IntType Main.myInt (Some (-42))),
        store Main.myInt (VInt (-42)) Main.initial_world, true).
Proof.
  intros opt.
  assert (INT_MIN <= -42 <= INT_MAX) as H1 by (unfold INT_MIN, INT_MAX; lia).
  assert (has_flag (ref_flags opt) OptionalArgument = true) as H2
    by reflexivity.
  split; [exact H1|]. split; [exact H2|].
  exact (X11_int_default_is_stored Main.myInt (-42) opt false
           Main.initial_world H1 H2 (or_introl eq_refl)).
Defined.

(** ** Short options and the option string *)

Lemma string_app_cons a (s t : string) : String a s ++ t = String a (s ++ t).
Proof. reflexivity. Qed.

Lemma string_app_nil_l (t : string) : "" ++ t = t.
Proof. reflexivity. Qed.

Lemma string_app_assoc (s t u : string) : (s ++ t) ++ u = s ++ (t ++ u).
Proof.
  induction s as [|a s IH]; [reflexivity|].
  rewrite !string_app_cons, IH. reflexivity.
Qed.

Lemma string_app_nil_r (s : string) : s ++ "" = s.
Proof.
  induction s as [|a s IH]; [reflexivity|].
  rewrite string_app_cons, IH. reflexivity.
Qed.

Lemma appendToOptString_entry o s :
  appendToOptString o s = s ++ optstring_entry o.
Proof.
  unfold optstring_entry, appendToOptString.
  destruct (Ascii.eqb (shortName o) zero); [now rewrite string_app_nil_r|].
  destruct (Z.land (flags o) ArgumentTypeMask =? RequiredArgument);
    [|destruct (Z.land (flags o) ArgumentTypeMask =? OptionalArgument)];
    rewrite ?string_app_assoc; reflexivity.
Qed.

Lemma optstring_entries_app l1 l2 :
  optstring_entries (l1 ++ l2)
  = optstring_entries l1 ++ optstring_entries l2.
Proof.
  induction l1 as [|o l1 IH]; simpl; [reflexivity|].
  rewrite IH, string_app_assoc. reflexivity.
Qed.

Lemma build_registry_shortopts indet groups reg :
  build_registry indet groups = Normal reg ->
  shortopts reg = "+:" ++ optstring_entries (all_options groups).
Proof.
  intros Hbuild. pose proof Hbuild as Hall.
  apply build_registry_Normal in Hall as (Hall & _ & _).
  unfold build_registry in Hbuild.
  destruct (register_groups indet groups empty_registry) as [r|e] eqn:Hreg;
    [|discriminate].
  simpl in Hbuild. injection Hbuild as <-. simpl in *. rewrite <- Hall.
  apply (register_groups_ind indet
           (fun r => shortopts r = "+:" ++ optstring_entries (allOpts r)))
    with (groups := groups) (r := empty_registry); [|reflexivity|exact Hreg].
  intros o r0 r' HP Hr. apply register_inv in Hr as (_ & Ha & _ & Hs).
  rewrite Ha, optstring_entries_app. simpl optstring_entries.
  rewrite string_app_nil_r.
  destruct (Ascii.eqb (shortName o) zero) eqn:Hz.
  - destruct Hs as [_ ->]. rewrite HP.
    unfold optstring_entry, appendToOptString. rewrite Hz.
    rewrite string_app_nil_r. reflexivity.
  - destruct Hs as (_ & _ & ->).
    rewrite appendToOptString_entry, HP, string_app_assoc. reflexivity.
Qed.

(** The entry of an option: nothing, or its character and its colons. *)
Lemma optstring_entry_cases o :
  (shortName o = zero /\ optstring_entry o = "")
  \/ (shortName o <> zero
      /\ optstring_entry o
         = String (shortName o)
             (if Z.land (flags o) ArgumentTypeMask =? RequiredArgument
              then ":"
              else if Z.land (flags o) ArgumentTypeMask =? OptionalArgument
                   then "::" else "")).
Proof.
  unfold optstring_entry, appendToOptString.
  destruct (Ascii.eqb_spec (shortName o) zero) as [Hz | Hnz]; [auto|].
  right. split; [exact Hnz|].
  destruct (Z.land (flags o) ArgumentTypeMask =? RequiredArgument);
    [|destruct (Z.land (flags o) ArgumentTypeMask =? OptionalArgument)];
    reflexivity.
Qed.

Lemma strchr_skip_entry o s c :
  c <> ":"%char -> (shortName o <> zero -> shortName o <> c) ->
  strchr (optstring_entry o ++ s) c = strchr s c.
Proof.
  intros Hc Hne.
  assert (Ascii.eqb ":" c = false) as Hcolon
    by (apply Ascii.eqb_neq; congruence).
  destruct (optstring_entry_cases o) as [[_ ->] | [Hnz ->]]; [reflexivity|].
  specialize (Hne Hnz). apply Ascii.eqb_neq in Hne.
  destruct (Z.land (flags o) ArgumentTypeMask =? RequiredArgument);
    [|destruct (Z.land (flags o) ArgumentTypeMask =? OptionalArgument)];
    rewrite ?string_app_cons, ?string_app_nil_l; cbn [strchr];
    rewrite Hne, ?Hcolon; reflexivity.
Qed.

Lemma optstring_entries_head all :
  (forall o, o ∈ all -> shortName o <> ":"%char /\ shortName o <> ";"%char) ->
  char_at (optstring_entries all) 0 <> ":"%char
  /\ char_at (optstring_entries all) 0 <> ";"%char.
Proof.
  induction all as [|o all IH]; intros Hall; simpl.
  - split; discriminate.
  - destruct (optstring_entry_cases o) as [[_ ->] | [_ ->]].
    + apply IH. intros o' Ho'. apply Hall. now right.
    + simpl. apply Hall. now left.
Qed.

Lemma strchr_own_entry pre o post :
  shortName o <> zero -> shortName o <> ":"%char ->
  (forall o', o' ∈ pre -> shortName o' <> shortName o) ->
  strchr (":" ++ optstring_entries (pre ++ o :: post)) (shortName o)
  = Some (optstring_entry o ++ optstring_entries post).
Proof.
  intros Hnz Hc Hpre.
  rewrite ?string_app_cons, ?string_app_nil_l; cbn [strchr].
  destruct (Ascii.eqb_spec ":" (shortName o)) as [Heq | _];
    [congruence|].
  induction pre as [|o' pre IH]; simpl.
  - destruct (optstring_entry_cases o) as [[Hz _] | [_ He]];
      [contradiction|].
    rewrite He, ?string_app_cons, ?string_app_nil_l. cbn [strchr].
    rewrite Ascii.eqb_refl.
    reflexivity.
  - rewrite strchr_skip_entry.
    + apply IH. intros o'' Ho''. apply Hpre. now right.
    + exact Hc.
    + intros _. apply Hpre. now left.
Qed.

(** The tokenizer's step for the character of a declared short option
    is the one its flags describe. *)
Lemma short_option_by_its_flags :
  forall indet groups reg,
    build_registry indet groups = Normal reg ->
    (forall o, o ∈ all_options groups ->
               shortName o <> ":"%char /\ shortName o <> ";"%char) ->
    forall o argv rest d,
      o ∈ all_options groups -> shortName o <> zero ->
      short_option argv (string_drop 1 (shortopts reg)) (longopts reg)
        (shortName o) rest d
      = short_option_by_flags argv (flags o) (shortName o) rest d.
Proof.
  intros indet groups reg Hreg Hplain o argv rest d Ho Hnz.
  rewrite (build_registry_shortopts _ _ _ Hreg).
  change (string_drop 1 ("+:" ++ optstring_entries (all_options groups)))
    with (":" ++ optstring_entries (all_options groups)).
  apply build_registry_Normal in Hreg as (_ & _ & _ & _ & Hshort).
  destruct (Hplain o Ho) as [Hc Hs].
  (* the first option with that character is [o] itself *)
  apply list_elem_of_lookup in Ho as [i Hi].
  pose proof (take_drop_middle _ _ _ Hi) as Hsplit.
  assert (forall o', o' ∈ take i (all_options groups) ->
                     shortName o' <> shortName o) as Hpre.
  { intros o' Ho' Heq. apply elem_of_take in Ho' as (j & Hj & Hlt).
    assert (shortName o' <> zero) as Hnz' by congruence.
    pose proof (Hshort j i o' o Hj Hi Heq Hnz'). lia. }
  assert (forall o', o' ∈ drop (S i) (all_options groups) ->
            shortName o' <> ":"%char /\ shortName o' <> ";"%char) as Hpost.
  { intros o' Ho'. apply Hplain. rewrite <- Hsplit.
    apply elem_of_app. right. now right. }
  apply optstring_entries_head in Hpost as [Hh1 Hh2].
  unfold short_option, short_option_by_flags.
  rewrite <- Hsplit at 1.
  rewrite (strchr_own_entry _ o _ Hnz Hc Hpre).
  apply Ascii.eqb_neq in Hc, Hs. rewrite Hc, Hs. cbn [orb].
  unfold missing_code. change (char_at (":" ++ _) 0) with ":"%char.
  rewrite Ascii.eqb_refl.
  apply Ascii.eqb_neq in Hh1, Hh2.
  destruct (optstring_entry_cases o) as [[Hz _] | [_ ->]]; [contradiction|].
  destruct (Z.land (flags o) ArgumentTypeMask =? RequiredArgument);
    [|destruct (Z.land (flags o) ArgumentTypeMask =? OptionalArgument)];
    rewrite ?string_app_cons, ?string_app_nil_l;
    match goal with
    | |- context [char_at (String ?a ?s) 1] =>
        change (char_at (String a s) 1) with (char_at s 0)
    end.
  - change (char_at (String ":" _) 0) with ":"%char.
    change (Ascii.eqb ":" ";") with false. rewrite andb_false_r.
    rewrite Ascii.eqb_refl.
    match goal with
    | |- context [char_at (String ?a (String ?b ?s)) 2] =>
        change (char_at (String a (String b s)) 2) with (char_at s 0)
    end.
    rewrite Hh1. reflexivity.
  - change (char_at (String ":" _) 0) with ":"%char.
    change (Ascii.eqb ":" ";") with false. rewrite andb_false_r.
    rewrite Ascii.eqb_refl.
    match goal with
    | |- context [char_at (String ?a (String ?b ?s)) 2] =>
        change (char_at (String a (String b s)) 2) with (char_at s 0)
    end.
    change (char_at (String ":" _) 0) with ":"%char.
    rewrite Ascii.eqb_refl. reflexivity.
  - rewrite Hh1, Hh2, andb_false_r. reflexivity.
Qed.

(** X12: a short option is tokenized by its own flags.  In an accepted
    configuration in which no option has [:] or [;] as its short name,
    [getopt_long] treats the character of every option that has a short
    name as [appendToOptString] declared it, whatever the other options
    are: with a required argument it takes the rest of the element, or
    else the next element, as the argument and fails with [:] when there
    is none; with an optional argument it takes the rest of the element
    only; with any other mask it takes no argument and goes on in the
    cluster. *)
Theorem X12_short_option_tokenized_by_its_flags :
  forall indet groups reg,
    build_registry indet groups = Normal reg ->
    (forall o, o ∈ all_options groups ->
               shortName o <> ":"%char /\ shortName o <> ";"%char) ->
    forall o argv rest d,
      o ∈ all_options groups -> shortName o <> zero ->
      short_option argv (string_drop 1 (shortopts reg)) (longopts reg)
        (shortName o) rest d
      = short_option_by_flags argv (flags o) (shortName o) rest d.
Proof.
  intros indet groups reg Hreg Hplain o argv rest d Ho Hnz.
  apply (short_option_by_its_flags indet groups reg Hreg Hplain); assumption.
Qed.

Lemma X12_witness :
  exists reg,
    build_registry (fun _ => 0) (string_option RequiredArgument 0%nat None)
    = Normal reg
    /\ Forall (fun o => shortName o <> ":"%char /\ shortName o <> ";"%char)
         (all_options (string_option RequiredArgument 0%nat None))
    /\ short_option ["prog"; "-s"; "v"] (string_drop 1 (shortopts reg))
         (longopts reg) "s" "" (mkGetopt 1 "" None 0)
       = (int_of_char "s", None, mkGetopt 3 "" (Some "v") 0).
Proof.
  destruct (build_registry_checked (fun _ => 0)
              (string_option RequiredArgument 0%nat None) eq_refl)
    as [reg Hreg].
  exists reg. split; [exact Hreg|].
  assert (Forall (fun o => shortName o <> ":"%char /\ shortName o <> ";"%char)
            (all_options (string_option RequiredArgument 0%nat None)))
    as Hplain by (repeat constructor; discriminate).
  split; [exact Hplain|].
  exact (X12_short_option_tokenized_by_its_flags _ _ _ Hreg
           (proj1 (Forall_forall _ _) Hplain)
           (mkOption (Some "string") "s" RequiredArgument
              (StringType 0%nat (Some None) "STRING")
              "Set the String value.")
           ["prog"; "-s"; "v"] "" (mkGetopt 1 "" None 0)
           (list_elem_of_here _ _) ltac:(discriminate)).
Defined.

(** ** One turn of the loop at a short option *)

Lemma scan_S fuel argv reg d opts w :
  scan (S fuel) argv reg d opts w
  = (let '(optc, option_index, d') :=
       getopt_long argv (shortopts reg) (longopts reg) d in
     if optc =? -1 then Some (d', opts, w)
     else
       let '(opts', w') :=
         dispatch argv (shortOptIndex reg) optc option_index d' opts w in
       scan fuel argv reg d' opts' w').
Proof. reflexivity. Qed.

Lemma getopt_long_at_short_option argv shortopts longopts d c rest :
  argv <> [] -> optind d <> 0%nat -> c <> zero ->
  at_short_option argv d c rest ->
  getopt_long argv shortopts longopts d
  = short_option argv (string_drop 1 shortopts) longopts c rest
      (getopt_enter d).
Proof.
  intros Hne Hnz Hc Hat. unfold getopt_long.
  destruct argv as [|a0 argv]; [contradiction|]. simpl length.
  replace (S (length argv) <? 1)%nat with false
    by (symmetry; apply Nat.ltb_ge; lia).
  assert (getopt_enter d = mkGetopt (optind d) (nextchar d) None (optopt d))
    as Henter.
  { unfold getopt_enter. destruct (Nat.eqb_spec (optind d) 0);
      [contradiction | reflexivity]. }
  unfold next_option. rewrite Henter. simpl nextchar. simpl optind.
  destruct Hat as [-> | (-> & -> & Hdash)]; [reflexivity|].
  assert (String.eqb (String "-" (String c rest)) "--" = false) as ->.
  { apply String.eqb_neq. intros [= -> _]. contradiction. }
  unfold NONOPTION_P, char_at. simpl String.get. cbn [default]. unfold id.
  apply Ascii.eqb_neq in Hc, Hdash.
  rewrite Ascii.eqb_refl, Hc, Hdash. reflexivity.
Qed.

(** The value [short_option_by_flags] returns is the character, or [:]
    for a required argument that is missing. *)
Lemma short_option_by_flags_value argv flags c rest d :
  exists d',
    short_option_by_flags argv flags c rest d = (int_of_char c, None, d')
    \/ short_option_by_flags argv flags c rest d
       = (int_of_char ":", None, d').
Proof.
  unfold short_option_by_flags.
  destruct (Z.land flags ArgumentTypeMask =? RequiredArgument).
  - destruct (negb (String.eqb rest "")); [eauto|].
    destruct (argv !! _); eauto.
  - destruct (Z.land flags ArgumentTypeMask =? OptionalArgument); [|eauto].
    destruct (negb (String.eqb rest "")); eauto.
Qed.

(** X5: a short option on the command line reaches the option that
    declares its character.  In an accepted configuration in which no
    option has [:] or [;] as its short name, let the scan stand at the
    character of option [i], inside a cluster or right behind the dash
    of an element, the character being none of NUL, [?] and the
    character 255.  Then [getopt_long] returns what the flags of option
    [i] say, and the turn of the loop of [parseCLI] calls [Value::set]
    on entry [i] of [allOpts], the copy of that very option, with the
    argument the tokenizer left (none when it is empty), stores the
    [Value] back in place and goes on; only when a required argument is
    missing does it write the diagnostic instead and call nothing. *)
Theorem X5_short_option_reaches_its_option :
  forall indet groups reg argv i o_def opts d rest fuel w,
    build_registry indet groups = Normal reg ->
    (forall o, o ∈ all_options groups ->
               shortName o <> ":"%char /\ shortName o <> ";"%char) ->
    all_options groups !! i = Some o_def ->
    shortName o_def <> zero ->
    shortName o_def <> "?"%char -> shortName o_def <> "255"%char ->
    Forall2 same_definition (allOpts reg) opts ->
    argv <> [] -> optind d <> 0%nat ->
    at_short_option argv d (shortName o_def) rest ->
    exists o,
      opts !! i = Some o /\ same_definition o_def o
      /\ getopt_long argv (shortopts reg) (longopts reg) d
         = short_option_by_flags argv (flags o_def) (shortName o_def) rest
             (getopt_enter d)
      /\ (let '(optc, _, d') :=
            short_option_by_flags argv (flags o_def) (shortName o_def) rest
              (getopt_enter d) in
          scan (S fuel) argv reg d opts w
          = if optc =? int_of_char ":" then
              scan fuel argv reg d' opts
                (emit ("Missing argument for "
                       ++ arg_at argv (optind d' - 1)) w)
            else
              let '(v', w', _) :=
                set (value o) (ref_of o) (passed_argument d') w in
              scan fuel argv reg d' (<[i := with_value o v']> opts) w').
Proof.
  intros indet groups reg argv i o_def opts d rest fuel w Hreg Hplain Hi Hnz
    Hq H255 Hsame Hne Hd Hat.
  assert (o_def ∈ all_options groups) as Hin
    by (eapply list_elem_of_lookup_2; exact Hi).
  destruct (Hplain o_def Hin) as [Hc _].
  assert (getopt_long argv (shortopts reg) (longopts reg) d
          = short_option_by_flags argv (flags o_def) (shortName o_def) rest
              (getopt_enter d)) as Hget.
  { rewrite (getopt_long_at_short_option _ _ _ _ _ _ Hne Hd Hnz Hat).
    apply (short_option_by_its_flags indet groups reg Hreg Hplain);
      assumption. }
  destruct (short_option_by_flags_value argv (flags o_def) (shortName o_def)
              rest (getopt_enter d)) as [d' [Hval | Hval]].
  - destruct (dispatch_declared_short indet groups reg argv i o_def opts d' w
                Hreg Hi Hnz Hq Hc Hsame) as (o & Ho & Hdef & Hdisp).
    exists o. split; [exact Ho|]. split; [exact Hdef|].
    split; [exact Hget|].
    rewrite scan_S, Hget, Hval.
    destruct (Z.eqb_spec (int_of_char (shortName o_def)) (-1)) as [Heq | _];
      [apply int_of_char_minus_1 in Heq; contradiction|].
    destruct (Z.eqb_spec (int_of_char (shortName o_def)) (int_of_char ":"))
      as [Heq | _]; [apply int_of_char_inj in Heq; contradiction|].
    rewrite Hdisp.
    destruct (set (value o) (ref_of o) (passed_argument d') w)
      as [[v' w'] r]. reflexivity.
  - destruct (dispatch_declared_short indet groups reg argv i o_def opts d' w
                Hreg Hi Hnz Hq Hc Hsame) as (o & Ho & Hdef & _).
    exists o. split; [exact Ho|]. split; [exact Hdef|].
    split; [exact Hget|].
    rewrite scan_S, Hget, Hval. reflexivity.
Qed.

Lemma X5_witness :
  exists reg o,
    build_registry (fun _ => 0) (string_option RequiredArgument 0%nat None)
    = Normal reg
    /\ Forall (fun o => shortName o <> ":"%char /\ shortName o <> ";"%char)
         (all_options (string_option RequiredArgument 0%nat None))
    /\ at_short_option ["prog"; "-sv"; "file"] (mkGetopt 1 "" None 0) "s" "v"
    /\ allOpts reg !! 0%nat = Some o
    /\ shortName o = "s"%char
    /\ getopt_long ["prog"; "-sv"; "file"] (shortopts reg) (longopts reg)
         (mkGetopt 1 "" None 0)
       = (int_of_char "s", None, mkGetopt 2 "" (Some "v") 0)
    /\ scan 3 ["prog"; "-sv"; "file"] reg (mkGetopt 1 "" None 0)
         (allOpts reg) (mkWorld ∅ [])
       = (let '(v', w', _) :=
            set (value o) (ref_of o) (Some "v") (mkWorld ∅ []) in
          scan 2 ["prog"; "-sv"; "file"] reg (mkGetopt 2 "" (Some "v") 0)
            (<[0%nat := with_value o v']> (allOpts reg)) w').
Proof.
  destruct (build_registry_checked (fun _ => 0)
              (string_option RequiredArgument 0%nat None) eq_refl)
    as [reg Hreg].
  assert (Forall (fun o => shortName o <> ":"%char /\ shortName o <> ";"%char)
            (all_options (string_option RequiredArgument 0%nat None)))
    as Hplain by (repeat constructor; discriminate).
  assert (at_short_option ["prog"; "-sv"; "file"] (mkGetopt 1 "" None 0)
            "s" "v") as Hat.
  { right. split; [reflexivity|]. split; [reflexivity | discriminate]. }
  destruct (X5_short_option_reaches_its_option (fun _ => 0)
              (string_option RequiredArgument 0%nat None) reg
              ["prog"; "-sv"; "file"] 0%nat
              (mkOption (Some "string") "s" RequiredArgument
                 (StringType 0%nat (Some None) "STRING")
                 "Set the String value.")
              (allOpts reg) (mkGetopt 1 "" None 0) "v" 2%nat (mkWorld ∅ [])
              Hreg (proj1 (Forall_forall _ _) Hplain) eq_refl)
    as (o & Ho & Hdef & Hget & Hscan);
    [discriminate | discriminate | discriminate | | discriminate
    | discriminate | exact Hat |].
  - apply Forall_Forall2_diag, Forall_forall. intros o _.
    apply same_definition_refl.
  - exists reg, o. split; [exact Hreg|]. split; [exact Hplain|].
    split; [exact Hat|]. split; [exact Ho|].
    split; [exact (proj1 (proj2 Hdef))|]. split; [exact Hget|].
    exact Hscan.
Defined.

(** ** renderHelp *)

Lemma put_bad s out : badbit out = true -> put s out = out.
Proof. intros H. unfold put. rewrite H. reflexivity. Qed.

Lemma put_cstr_bad s out : badbit out = true -> put_cstr s out = out.
Proof.
  intros H. destruct s; simpl; [apply put_bad; exact H|].
  destruct out as [t b]. simpl in *. subst b. reflexivity.
Qed.

Lemma render_option_bad o out :
  badbit out = true -> render_option o out = out.
Proof.
  intros H. unfold render_option, option_start, endl.
  repeat first
    [ rewrite (put_bad _ out H)
    | rewrite (put_cstr_bad _ out H)
    | match goal with
      | |- context [if ?b then _ else _] => destruct b
      | |- context [match ?x with Some _ => _ | None => _ end] => destruct x
      end ]; reflexivity.
Qed.

Lemma render_options_bad opts out :
  badbit out = true -> render_options opts out = out.
Proof.
  intros H. unfold render_options.
  induction opts as [|o opts IH]; simpl; [reflexivity|].
  rewrite render_option_bad by exact H. exact IH.
Qed.

Lemma render_group_bad g out :
  badbit out = true -> render_group g out = out.
Proof.
  intros H. unfold render_group, group_start, endl.
  rewrite !(put_bad _ out H), render_options_bad by exact H.
  apply put_bad, H.
Qed.

Lemma renderHelp_bad groups out :
  badbit out = true -> renderHelp groups out = out.
Proof.
  intros H. unfold renderHelp.
  induction groups as [|g groups IH]; simpl; [reflexivity|].
  rewrite render_group_bad by exact H. exact IH.
Qed.

Lemma extends_by_refl out : extends_by false out out.
Proof.
  split; [now rewrite orb_false_r|]. exists "".
  now rewrite string_app_nil_r.
Qed.

Lemma extends_by_trans b1 b2 out1 out2 out3 :
  extends_by b1 out1 out2 -> extends_by b2 out2 out3 ->
  extends_by (b1 || b2) out1 out3.
Proof.
  intros [Hb1 [s1 Hs1]] [Hb2 [s2 Hs2]]. split.
  - rewrite Hb2, Hb1, orb_assoc. reflexivity.
  - exists (s1 ++ s2). rewrite Hs2, Hs1, string_app_assoc. reflexivity.
Qed.

Lemma put_extends s out : extends_by false out (put s out).
Proof.
  unfold put. destruct (badbit out) eqn:Hb; [apply extends_by_refl|].
  split; [simpl; now rewrite Hb|]. exists s. reflexivity.
Qed.

Lemma put_cstr_extends s out :
  extends_by (negb (present s)) out (put_cstr s out).
Proof.
  destruct s as [s|]; simpl; [apply put_extends|].
  split; [simpl; now rewrite orb_true_r|]. exists "".
  simpl. now rewrite string_app_nil_r.
Qed.

Lemma extends_by_false_step out1 out2 out3 b :
  extends_by b out1 out2 -> extends_by false out2 out3 ->
  extends_by b out1 out3.
Proof.
  intros H1 H2. pose proof (extends_by_trans _ _ _ _ _ H1 H2) as H.
  now rewrite orb_false_r in H.
Qed.

Lemma option_start_extends o out : extends_by false out (option_start o out).
Proof.
  unfold option_start.
  destruct (Ascii.eqb (shortName o) zero);
    repeat (eapply extends_by_false_step; [|apply put_extends]);
    apply extends_by_refl.
Qed.

Lemma render_option_extends o out :
  extends_by (nameless o) out (render_option o out).
Proof.
  unfold render_option, endl.
  eapply extends_by_false_step; [|apply put_extends].
  assert (forall out1 out2 : ostream, forall b,
            extends_by b out1 out2 ->
            extends_by b out1
              (match defaultValue (value o) with
               | Some defVal => put defVal (put " Default: " out2)
               | None => out2
               end)) as Hdef.
  { intros out1 out2 b H. destruct (defaultValue (value o)); [|exact H].
    repeat (eapply extends_by_false_step; [|apply put_extends]). exact H. }
  apply Hdef.
  repeat (eapply extends_by_false_step; [|apply put_extends]).
  assert (extends_by (nameless o) out
            (put_cstr (name o) (option_start o out))) as Hname.
  { pose proof (extends_by_trans _ _ _ _ _ (option_start_extends o out)
                  (put_cstr_extends (name o) (option_start o out))) as H.
    exact H. }
  destruct (String.length (argHint (value o)) =? 0)%nat; [exact Hname|].
  destruct (has_flag (flags o) OptionalArgument);
    repeat (eapply extends_by_false_step; [|apply put_extends]);
    exact Hname.
Qed.

Lemma render_options_extends opts out :
  extends_by (existsb nameless opts) out (render_options opts out).
Proof.
  unfold render_options. revert out.
  induction opts as [|o opts IH]; intros out; simpl.
  - apply extends_by_refl.
  - eapply extends_by_trans; [apply render_option_extends | apply IH].
Qed.

Lemma render_group_extends g out :
  extends_by (existsb nameless (options g)) out (render_group g out).
Proof.
  unfold render_group, group_start, endl.
  eapply extends_by_false_step; [|apply put_extends].
  pose proof (render_options_extends (options g)
                (put (String "010" "") (put (String "010" "")
                   (put ":" (put (grp_name g) out))))) as H.
  refine (extends_by_trans false _ _ _ _ _ H).
  repeat (eapply extends_by_false_step; [|apply put_extends]).
  apply extends_by_refl.
Qed.

Lemma renderHelp_extends groups out :
  extends_by (existsb nameless (all_options groups)) out
    (renderHelp groups out).
Proof.
  unfold renderHelp, all_options. revert out.
  induction groups as [|g groups IH]; intros out; simpl.
  - apply extends_by_refl.
  - rewrite existsb_app.
    eapply extends_by_trans; [apply render_group_extends | apply IH].
Qed.

(** X13: [renderHelp] leaves the stream good exactly when every option
    has a long name.  After the call [badbit] of [std::cout] is set if
    it was set before or if some option of some group has a null [name];
    and, either way, what had been written before is still there, with
    the help text after it. *)
Theorem X13_renderHelp_good_iff_all_named :
  forall groups out,
    badbit (renderHelp groups out)
    = badbit out || existsb nameless (all_options groups)
    /\ exists s, text (renderHelp groups out) = text out ++ s.
Proof. intros groups out. apply renderHelp_extends. Qed.

Lemma render_options_app l1 l2 out :
  render_options (l1 ++ l2) out = render_options l2 (render_options l1 out).
Proof. unfold render_options. apply fold_left_app. Qed.

Lemma renderHelp_app g1 g2 out :
  renderHelp (g1 ++ g2) out = renderHelp g2 (renderHelp g1 out).
Proof. unfold renderHelp. apply fold_left_app. Qed.

(** X14: the help text ends at the first option without a long name.
    When the option at some place of some group has a null [name],
    [renderHelp] writes the groups before it, the heading of its group,
    the lines of the options before it, the start of its own line up to
    the two dashes, and nothing after that: not the rest of the line,
    not the later options, not the later groups; [badbit] is set. *)
Theorem X14_renderHelp_ends_at_nameless_option :
  forall gs1 n pre o post gs2 out,
    name o = None ->
    renderHelp (gs1 ++ mkGroup n (pre ++ o :: post) :: gs2) out
    = put_cstr None
        (option_start o
           (render_options pre (group_start n (renderHelp gs1 out)))).
Proof.
  intros gs1 n pre o post gs2 out Hname.
  rewrite renderHelp_app.
  set (out1 := renderHelp gs1 out).
  change (renderHelp (mkGroup n (pre ++ o :: post) :: gs2) out1)
    with (renderHelp gs2 (render_group (mkGroup n (pre ++ o :: post)) out1)).
  unfold render_group. simpl options. simpl grp_name.
  rewrite render_options_app.
  set (out2 := render_options pre (group_start n out1)).
  change (render_options (o :: post) out2)
    with (render_options post (render_option o out2)).
  assert (exists out3, render_option o out2 = out3 /\ badbit out3 = true
                       /\ out3 = put_cstr None (option_start o out2))
    as (out3 & -> & Hbad & ->).
  { eexists. split; [reflexivity|].
    assert (badbit (put_cstr None (option_start o out2)) = true) as Hb
      by reflexivity.
    unfold render_option. rewrite Hname.
    split.
    - pose proof (render_option_extends o out2) as [H _].
      unfold render_option in H. rewrite Hname in H. rewrite H.
      unfold nameless. rewrite Hname. apply orb_true_r.
    - unfold endl.
      repeat first
        [ rewrite (put_bad _ _ Hb)
        | match goal with
          | |- context [if ?b then _ else _] => destruct b
          | |- context [match ?x with Some _ => _ | None => _ end] =>
              destruct x
          end ]; reflexivity. }
  rewrite render_options_bad by exact Hbad.
  unfold endl. rewrite put_bad by exact Hbad.
  apply renderHelp_bad, Hbad.
Qed.

Lemma X14_witness :
  name (mkOption None "a" NoArgument (BoolType 0%nat StoreTrue None)
          "Short name only.") = None
  /\ renderHelp (short_only_first 0%nat 1%nat) (mkStream "" false)
     = mkStream ("Default:" ++ String "010" (String "010" "-a, --")) true.
Proof.
  split; [reflexivity|].
  exact (X14_renderHelp_ends_at_nameless_option [] "Default" []
           (mkOption None "a" NoArgument (BoolType 0%nat StoreTrue None)
              "Short name only.")
           [mkOption (Some "bee") "b" NoArgument
              (BoolType 1%nat StoreTrue None) "Both names."]
           [] (mkStream "" false) eq_refl).
Defined.

(** ** main *)

(** The world after [set] is the one before, that one with the once-only
    diagnostic, or the one the setter leaves. *)
Lemma set_world_cases v opt input w :
  (set v opt input w).1.2 = w
  \/ (set v opt input w).1.2 = emit (once_only_message opt) w
  \/ exists x, (set v opt input w).1.2 = (_setter v opt x w).1.
Proof.
  unfold set.
  destruct (_wasSet v && negb (has_flag (ref_flags opt) Repeatable));
    [right; left; reflexivity|].
  simpl _defaultVal. simpl _setter.
  destruct (negb (present input)
            && has_flag (ref_flags opt) OptionalArgument).
  - destruct (_defaultVal v tt) as [optVal|]; [|left; reflexivity].
    right; right. exists (Some optVal).
    destruct (_setter v opt (Some optVal) w). reflexivity.
  - destruct (present input
              || negb (present input)
                 && (Z.land (ref_flags opt) ArgumentTypeMask =? NoArgument));
      [|left; reflexivity].
    right; right. exists input.
    destruct (_setter v opt input w). reflexivity.
Qed.

Section Invariant.

Variable P : World -> Prop.
Hypothesis P_emit : forall line w, P w -> P (emit line w).

Lemma dispatch_preserves argv shortIdx optc option_index d opts w :
  Forall (keeps P) opts -> P w ->
  Forall (keeps P) (dispatch argv shortIdx optc option_index d opts w).1
  /\ P (dispatch argv shortIdx optc option_index d opts w).2.
Proof.
  intros Hopts Hw. unfold dispatch.
  destruct (optc =? int_of_char "?"); [simpl; auto|].
  destruct (optc =? int_of_char ":"); [simpl; auto|].
  destruct (match option_index with
            | Some i => Some i
            | None => shortIdx !! char_of_int optc
            end) as [i|]; [|simpl; auto].
  destruct (opts !! i) as [o|] eqn:Ho; [|simpl; auto].
  pose proof (proj1 (Forall_lookup _ _) Hopts i o Ho) as Hk.
  set (arg := match optarg d with
              | Some a => if (String.length a =? 0)%nat then None else Some a
              | None => None
              end).
  pose proof (set_value_cases (value o) (ref_of o) arg w) as Hv.
  pose proof (set_world_cases (value o) (ref_of o) arg w) as Hcases.
  destruct (set (value o) (ref_of o) arg w) as [[v' w'] r]. simpl in *.
  split.
  - apply Forall_insert; [exact Hopts|].
    intros opt x w0 Hw0. simpl.
    destruct Hv as [-> | ->]; apply Hk, Hw0.
  - destruct Hcases as [-> | [-> | [x ->]]]; auto.
Qed.

Lemma scan_preserves fuel argv reg d opts w d' opts' w' :
  Forall (keeps P) opts -> P w ->
  scan fuel argv reg d opts w = Some (d', opts', w') -> P w'.
Proof.
  revert d opts w.
  induction fuel as [|fuel IH]; intros d opts w Hopts Hw; simpl;
    [discriminate|].
  destruct (getopt_long argv (shortopts reg) (longopts reg) d)
    as [[optc option_index] d1].
  destruct (optc =? -1).
  - intros [= <- <- <-]. exact Hw.
  - destruct (dispatch_preserves argv (shortOptIndex reg) optc option_index
                d1 opts w Hopts Hw) as [Ho1 Hw1].
    destruct (dispatch argv (shortOptIndex reg) optc option_index d1 opts w)
      as [opts1 w1].
    apply IH; assumption.
Qed.

End Invariant.

Lemma main_typed_emit line w : main_typed w -> main_typed (emit line w).
Proof. intros H. exact H. Qed.

Lemma main_typed_store l x w :
  main_typed w ->
  match x with
  | VString _ => l = Main.myStringVar \/ l = Main.optionalVar
  | VStrings _ => l = Main.stringVec
  | VBool _ => l = Main.myFlag
  | VInt _ => l = Main.myInt
  end ->
  main_typed (store l x w).
Proof.
  intros (H0 & H1 & H2 & H3 & H4) Hl. unfold main_typed, store.
  cbn [vars].
  destruct x; [destruct Hl as [-> | ->]|subst l..]; repeat split;
    first [ rewrite lookup_insert_eq; eauto
          | rewrite lookup_insert_ne by discriminate; assumption ].
Qed.

Lemma main_slot_keeps s :
  main_slot (spec_value s) -> keeps main_typed (bind_option (fun x => x) s).
Proof.
  intros Hslot opt x w Hw. unfold bind_option. cbn [value].
  destruct (spec_value s) as [t dv h | t dv | t st dv | t h];
    cbn [main_slot] in Hslot; cbn [bind_value].
  - destruct x as [a|]; [|exact Hw].
    apply main_typed_store; assumption.
  - destruct x as [a|]; [|exact Hw].
    change (main_typed
              (match stoi a with
               | Converted n => (store t (VInt n) w, true)
               | invalid_argument =>
                   (emit ("Argument: " ++ show (ref_name opt)
                          ++ " is invalid.") w, false)
               | out_of_range =>
                   (emit ("Argument: " ++ show (ref_name opt)
                          ++ " is out of range.") w, false)
               end).1).
    destruct (stoi a); [|exact Hw..].
    apply main_typed_store; assumption.
  - apply main_typed_store; assumption.
  - destruct x as [a|]; [|exact Hw].
    change (main_typed (push_back t a w)). unfold push_back.
    match goal with
    | |- context [match ?m with Some _ => _ | None => _ end] =>
        destruct m as [[| | |l]|]
    end; try exact Hw.
    apply main_typed_store; assumption.
Qed.

Lemma main_options_keep_types :
  Forall (keeps main_typed) (all_options Main.options).
Proof.
  rewrite <- main_specs_bound, all_options_bind.
  apply Forall_map, Forall_forall. intros s Hs.
  apply main_slot_keeps. revert s Hs. apply Forall_forall.
  repeat (constructor; [cbn; auto|]). constructor.
Qed.

Lemma main_typed_initial : main_typed Main.initial_world.
Proof. repeat split; eexists; reflexivity. Qed.

Lemma main_registry indet :
  exists reg, build_registry indet Main.options = Normal reg.
Proof.
  assert (match build_registry indet Main.options with
          | Normal _ => true
          | Thrown _ => false
          end = true) as H by (vm_compute; reflexivity).
  destruct (build_registry indet Main.options) as [reg|e];
    [eauto | discriminate].
Qed.

Lemma badbit_put s out : badbit (put s out) = badbit out.
Proof. unfold put. destruct (badbit out) eqn:H; [exact H | reflexivity]. Qed.

Lemma badbit_endl out : badbit (endl out) = badbit out.
Proof. apply badbit_put. Qed.

Lemma badbit_print_container l out :
  badbit (print_container l out) = badbit out.
Proof.
  unfold print_container. revert out.
  induction l as [|s l IH]; intros out; simpl; [reflexivity|].
  rewrite IH, badbit_endl, !badbit_put. reflexivity.
Qed.

Lemma main_help_good :
  badbit (renderHelp Main.options
            (endl (put "My options: " (mkStream "" false)))) = false.
Proof.
  destruct (renderHelp_extends Main.options
              (endl (put "My options: " (mkStream "" false)))) as [-> _].
  reflexivity.
Qed.

(** X15: [main] always runs to its end, and its last line is cut short
    exactly when nothing of [argv] is left.  For every [argv] the
    configuration of [main] is accepted, so nothing is thrown;
    [argv[nextArgv]] is read within [argv] or at the null pointer that
    ends it; and [main] returns 0.  [std::cout] is in a bad state at the
    end if and only if [parseCLI] returned [argc]: then the last line
    stops after its label, since what is streamed is the null
    pointer. *)
Theorem X15_main_returns_0 :
  forall indet argv,
    exists cout w r,
      parseCLI indet argv Main.options Main.initial_world
      = Some (w, Returned r)
      /\ main indet argv = Some (cout, w, returned 0)
      /\ 0 <= r <= Z.of_nat (length argv)
      /\ (badbit cout = true <-> r = Z.of_nat (length argv)).
Proof.
  intros indet argv.
  destruct (main_registry indet) as [reg Hreg].
  destruct (parseCLI_total indet argv Main.options Main.initial_world)
    as [[w out] Hparse].
  assert (exists r, out = Returned r) as [r ->].
  { revert Hparse. unfold parseCLI, parseCLI_run. rewrite Hreg.
    destruct (scan _ argv reg _ (allOpts reg) _) as [[[d opts] w1]|];
      [|discriminate].
    intros [= _ <-]. eauto. }
  pose proof (returned_index_bounds _ _ _ _ _ _ Hparse) as [Hr _].
  assert (main_typed w) as Htyped.
  { pose proof Hparse as Hp.
    apply parseCLI_Returned in Hp as (reg' & d & opts & Hreg' & Hscan & _).
    apply build_registry_Normal in Hreg' as (Hall & _ & _).
    eapply (scan_preserves main_typed main_typed_emit); [| |exact Hscan].
    - rewrite Hall. apply main_options_keep_types.
    - apply main_typed_initial. }
  destruct Htyped as ([s Hs] & [o Ho] & [l Hl] & [b Hb] & [n Hn]).
  unfold main. rewrite Hparse, Hs, Ho, Hl, Hb, Hn.
  pose proof main_help_good as Hhelp.
  set (help := renderHelp Main.options
                 (endl (put "My options: " (mkStream "" false)))) in *.
  clearbody help.
  assert ((Z.to_nat r <=? length argv)%nat = true) as ->
    by (apply Nat.leb_le; lia).
  eexists _, w, r. split; [reflexivity|]. split; [reflexivity|].
  split; [exact Hr|].
  rewrite badbit_endl.
  destruct (argv !! Z.to_nat r) as [a|] eqn:Ha; simpl put_cstr.
  - apply lookup_lt_Some in Ha.
    repeat first [ rewrite badbit_endl | rewrite badbit_put
                 | rewrite badbit_print_container ].
    rewrite Hhelp. split; [discriminate | lia].
  - apply lookup_ge_None in Ha. simpl. split; [lia | reflexivity].
Qed.

(** ** Long options by their full name *)




(** ** What the index returned depends on *)








